(** * Kite MCP: the token store and the OAuth handshake

    A shallow embedding of [src/auth/token-manager.ts] (class [TokenManager])
    and [src/auth/oauth-server.ts] (class [OAuthServer]), with the properties
    the specification states about them.

    The sources are TypeScript running on Bun.  What the JavaScript platform
    supplies ([JSON.parse], [JSON.stringify], the [Date] constructor,
    [toISOString]) is a parameter of the development (class [Platform]); the
    file system is an explicit [disk] value threaded through the operations;
    exceptions are the [Throw] case of [result], threaded with the disk by
    the monad [io]; the event loop (timers, requests, the pending session
    exchange) is a deterministic transition function on an explicit [state].

    Left out: what the sources write to the console, and the search of
    [findTokenFile] for the path of the token file (the disk is the file at
    [this.tokenFile] and its directory).

    - [JS], [Fs]: values, exceptions, the platform, the file system.
    - [TokenManager], [OAuthServer]: the two classes.
    - [Reference]: an executable platform, for concrete runs.
    - [Spec], [Examples]: the vocabulary of the specification; inputs.
    - [TokenStoreProps], [ReferenceProps], [HandshakeProps]: the proofs. *)

From Stdlib Require Import String Ascii ZArith QArith List Bool Lia.
From Stdlib Require Import PrimFloat SpecFloat FloatOps Uint63.
Import ListNotations.
Local Open Scope string_scope.
Local Open Scope Z_scope.

(* ===================================================================== *)
(** ** JavaScript values, exceptions and platform services *)
(* ===================================================================== *)

Module JS.

(** Plain JavaScript data: what [JSON.parse] can return, with [undefined]
    added.  An object is the list of its own properties in insertion
    order. *)
#[warnings="-register-all"]
Inductive jsval : Type :=
| JUndefined
| JNull
| JBool (b : bool)
| JNum (f : float)
| JStr (s : string)
| JArr (items : list jsval)
| JObj (fields : list (string * jsval)).

Definition object : Type := list (string * jsval).

(** ToBoolean. *)
Definition truthy (v : jsval) : bool :=
  match v with
  | JUndefined | JNull => false
  | JBool b => b
  | JNum f => negb (PrimFloat.eqb f 0%float || PrimFloat.is_nan f)
  | JStr s => negb (String.eqb s "")
  | JArr _ | JObj _ => true
  end.

(** [a || b] on values. *)
Definition or_else (a b : jsval) : jsval := if truthy a then a else b.

(** A thrown value: an [Error] instance with its message, or anything
    else. *)
Inductive thrown : Type :=
| ErrorObj (message : string)
| Thrown (v : jsval).

(** [error instanceof Error ? error.message : 'Unknown error'] *)
Definition message_of (e : thrown) : string :=
  match e with
  | ErrorObj m => m
  | Thrown _ => "Unknown error"
  end.

(** Computations that return or throw. *)
Inductive result (A : Type) : Type :=
| Ok (a : A)
| Throw (e : thrown).
Arguments Ok {A} a.
Arguments Throw {A} e.

Definition bind {A B : Type} (c : result A) (k : A -> result B) : result B :=
  match c with
  | Ok a => k a
  | Throw e => Throw e
  end.

(** [try { c } catch (error) { h error }] *)
Definition try_catch {A : Type} (c : result A) (h : thrown -> result A) : result A :=
  match c with
  | Ok a => Ok a
  | Throw e => h e
  end.

Fixpoint lookup (k : string) (fields : object) : option jsval :=
  match fields with
  | [] => None
  | (k', v) :: rest => if String.eqb k k' then Some v else lookup k rest
  end.

(** [o.k] on an object's own properties: [undefined] when there is none. *)
Definition field (k : string) (fields : object) : jsval :=
  match lookup k fields with
  | Some v => v
  | None => JUndefined
  end.

(** [{ ...o, k: v }] writes [k] where the spread put it, or appends it. *)
Fixpoint set_field (k : string) (v : jsval) (fields : object) : object :=
  match fields with
  | [] => [(k, v)]
  | (k', v') :: rest =>
      if String.eqb k k' then (k, v) :: rest else (k', v') :: set_field k v rest
  end.

(** The services of the platform the sources call.  [JSON_parse] is [None]
    where [JSON.parse] throws a SyntaxError; [JSON_stringify v] is
    [JSON.stringify(v, null, 2)] on plain data; [Date_new v] is the time
    value (milliseconds since the epoch) of [new Date(v)], [None] standing
    for the NaN of an invalid date; [Date_toISOString t] is
    [new Date(t).toISOString()] for a valid time value [t];
    [TypeError_message v k] is the message of the TypeError raised by
    reading property [k] of [v] when [v] is [null] or [undefined];
    [String_of v] is [String(v)]. *)
Class Platform : Type := {
  JSON_parse : string -> option jsval;
  JSON_stringify : jsval -> string;
  Date_new : jsval -> option Z;
  Date_toISOString : Z -> string;
  TypeError_message : jsval -> string -> string;
  String_of : jsval -> string
}.

(** [v.k] for a property name [k] that no prototype defines (the six
    token fields): a TypeError on [null] and [undefined], the own property
    of an object, [undefined] on every other value. *)
Definition get_prop `{Platform} (v : jsval) (k : string) : result jsval :=
  match v with
  | JUndefined | JNull => Throw (ErrorObj (TypeError_message v k))
  | JObj fields => Ok (field k fields)
  | JBool _ | JNum _ | JStr _ | JArr _ => Ok JUndefined
  end.

(** [String(error)]: Error.prototype.toString for an object whose name is
    "Error", the platform's conversion for any other thrown value. *)
Definition String_of_thrown `{Platform} (e : thrown) : string :=
  match e with
  | ErrorObj m => if String.eqb m "" then "Error" else "Error: " ++ m
  | Thrown v => String_of v
  end.

(** JavaScript numbers as far as the token arithmetic needs them: a
    rational, or NaN ([None]).  Time values are integers of magnitude at
    most 8.64e15, their difference and the comparison of the quotient with
    5 are decided the same way by binary64 arithmetic: a difference is an
    integer, so its quotient by 3600000 is either at least 5 or at most
    17999999/3600000, which is farther from 5 than any rounding error. *)
Definition number : Type := option Q.

Definition getTime (d : option Z) : number := option_map inject_Z d.

Definition num_sub (a b : number) : number :=
  match a, b with
  | Some x, Some y => Some (x - y)%Q
  | _, _ => None
  end.

(** [a / b]; the sources only divide by a non-zero constant. *)
Definition num_div (a b : number) : number :=
  match a, b with
  | Some x, Some y => if Qeq_bool y 0 then None else Some (x / y)%Q
  | _, _ => None
  end.

Definition Qlt_bool (x y : Q) : bool := negb (Qle_bool y x).

(** [a < b]: false as soon as one side is NaN. *)
Definition num_lt (a b : number) : bool :=
  match a, b with
  | Some x, Some y => Qlt_bool x y
  | _, _ => false
  end.

End JS.

(* ===================================================================== *)
(** ** The file system, as far as the token file is concerned *)
(* ===================================================================== *)

Module Fs.
Import JS.

(** The token file and its directory.  The four [*_error] fields say
    which calls of [fs] fail on this disk, and with what message: they
    stand for permissions, a full device, a directory in place of the
    file and the like. *)
Record disk : Type := mkDisk {
  dir_exists : bool;
  token_file : option string;
  read_error : option string;
  write_error : option string;
  mkdir_error : option string;
  unlink_error : option string
}.

Definition with_dir (d : disk) : disk :=
  mkDisk true (token_file d) (read_error d) (write_error d)
         (mkdir_error d) (unlink_error d).

Definition with_file (f : option string) (d : disk) : disk :=
  mkDisk (dir_exists d) f (read_error d) (write_error d)
         (mkdir_error d) (unlink_error d).

(** Code that reads and writes the disk and may throw: the disk it leaves
    behind, and what it returned or threw. *)
Definition io (A : Type) : Type := disk -> disk * result A.

Definition ret {A : Type} (a : A) : io A := fun d => (d, Ok a).

Definition throw {A : Type} (e : thrown) : io A := fun d => (d, Throw e).

Definition lift {A : Type} (r : result A) : io A := fun d => (d, r).

Definition bind {A B : Type} (c : io A) (k : A -> io B) : io B :=
  fun d =>
    match c d with
    | (d', Ok a) => k a d'
    | (d', Throw e) => (d', Throw e)
    end.

(** [try { c } catch (error) { h error }] *)
Definition try_catch {A : Type} (c : io A) (h : thrown -> io A) : io A :=
  fun d =>
    match c d with
    | (d', Ok a) => (d', Ok a)
    | (d', Throw e) => h e d'
    end.

Definition has_file (d : disk) : bool :=
  match token_file d with
  | Some _ => true
  | None => false
  end.

(** [fs.existsSync(this.tokenFile)] *)
Definition existsSync_file : io bool := fun d => (d, Ok (has_file d)).

(** [fs.existsSync(tokenDir)] *)
Definition existsSync_dir : io bool := fun d => (d, Ok (dir_exists d)).

(** [fs.mkdirSync(tokenDir, { recursive: true })] *)
Definition mkdirSync : io unit :=
  fun d =>
    match mkdir_error d with
    | Some m => (d, Throw (ErrorObj m))
    | None => (with_dir d, Ok tt)
    end.

Definition ENOENT : string := "ENOENT: no such file or directory".

(** [fs.writeFileSync(this.tokenFile, text)] *)
Definition writeFileSync (text : string) : io unit :=
  fun d =>
    match write_error d with
    | Some m => (d, Throw (ErrorObj m))
    | None =>
        if dir_exists d then (with_file (Some text) d, Ok tt)
        else (d, Throw (ErrorObj ENOENT))
    end.

(** [fs.readFileSync(this.tokenFile, 'utf-8')] *)
Definition readFileSync : io string :=
  fun d =>
    match read_error d with
    | Some m => (d, Throw (ErrorObj m))
    | None =>
        match token_file d with
        | Some text => (d, Ok text)
        | None => (d, Throw (ErrorObj ENOENT))
        end
    end.

(** [fs.unlinkSync(this.tokenFile)] *)
Definition unlinkSync : io unit :=
  fun d =>
    match unlink_error d with
    | Some m => (d, Throw (ErrorObj m))
    | None =>
        match token_file d with
        | Some _ => (with_file None d, Ok tt)
        | None => (d, Throw (ErrorObj ENOENT))
        end
    end.

End Fs.

Module Notations.
Notation "x <- c ;; k" := (Fs.bind c (fun x => k))
  (at level 61, c at next level, right associativity).
Notation "c ;; k" := (Fs.bind c (fun _ => k))
  (at level 61, right associativity).
End Notations.

(* ===================================================================== *)
(** ** [TokenManager] (src/auth/token-manager.ts) *)
(* ===================================================================== *)

Module TokenManager.
Import JS Fs Notations.

Section WithPlatform.
Context `{Platform}.

(** [{ ...tokenData, generated_at: tokenData.generated_at || new Date().toISOString() }] *)
Definition completeTokenData (now : Z) (tokenData : object) : object :=
  set_field "generated_at"
    (or_else (field "generated_at" tokenData) (JStr (Date_toISOString now)))
    tokenData.

(** [saveToken(tokenData)] at clock reading [now]. *)
Definition saveToken (now : Z) (tokenData : object) : io unit :=
  try_catch
    (let complete := completeTokenData now tokenData in
     tokenDir_exists <- existsSync_dir ;;
     (if negb tokenDir_exists then mkdirSync else ret tt) ;;
     writeFileSync (JSON_stringify (JObj complete)))
    (fun error => throw (ErrorObj ("Failed to save token: " ++ message_of error))).

Definition Invalid_token_data : thrown := ErrorObj "Invalid token data structure".

(** [JSON.parse(data)]; the message of the SyntaxError is the
    platform's and is only ever logged. *)
Definition JSON_parse_or_throw (data : string) : io jsval :=
  match JSON_parse data with
  | Some v => ret v
  | None => throw (ErrorObj "SyntaxError")
  end.

(** [loadToken()]: the stored record, or [None] for [null].  The
    [catch] block returns [null] for whatever was thrown. *)
Definition loadToken : io (option jsval) :=
  try_catch
    (file_exists <- existsSync_file ;;
     if negb file_exists then ret None
     else
       data <- readFileSync ;;
       tokenData <- JSON_parse_or_throw data ;;
       a <- lift (get_prop tokenData "access_token") ;;
       if negb (truthy a) then throw Invalid_token_data
       else
         u <- lift (get_prop tokenData "user_id") ;;
         if negb (truthy u) then throw Invalid_token_data
         else
           g <- lift (get_prop tokenData "generated_at") ;;
           if negb (truthy g) then throw Invalid_token_data
           else ret (Some tokenData))
    (fun _ => ret None).

Definition MS_PER_HOUR : Z := 1000 * 60 * 60.

(** [validateTokenExpiry(tokenData)] at clock reading [now]. *)
Definition validateTokenExpiry (now : Z) (tokenData : jsval) : result bool :=
  JS.bind (get_prop tokenData "expires_at") (fun e =>
  if truthy e then
    let expiresAt := Date_new e in
    Ok (num_lt (getTime (Some now)) (getTime expiresAt))
  else
    JS.bind (get_prop tokenData "generated_at") (fun g =>
    let generatedAt := Date_new g in
    let diffHours :=
      num_div (num_sub (getTime (Some now)) (getTime generatedAt))
              (Some (inject_Z MS_PER_HOUR)) in
    Ok (num_lt diffHours (Some (inject_Z 5))))).

(** [isTokenValid()] *)
Definition isTokenValid (now : Z) : io bool :=
  loaded <- loadToken ;;
  match loaded with
  | None => ret false
  | Some tokenData => lift (validateTokenExpiry now tokenData)
  end.

(** [getValidToken()]: [tokenData?.access_token || null] *)
Definition getValidToken (now : Z) : io jsval :=
  valid <- isTokenValid now ;;
  if negb valid then ret JNull
  else
    loaded <- loadToken ;;
    match loaded with
    | None => ret JNull
    | Some tokenData =>
        a <- lift (get_prop tokenData "access_token") ;;
        ret (or_else a JNull)
    end.

(** [getValidTokenData()] *)
Definition getValidTokenData (now : Z) : io (option jsval) :=
  valid <- isTokenValid now ;;
  if negb valid then ret None else loadToken.

(** [clearToken()] *)
Definition clearToken : io unit :=
  try_catch
    (file_exists <- existsSync_file ;;
     if file_exists then unlinkSync else ret tt)
    (fun error => throw (ErrorObj ("Failed to clear token: " ++ message_of error))).

End WithPlatform.
End TokenManager.

(* ===================================================================== *)
(** ** [OAuthServer] (src/auth/oauth-server.ts) *)
(* ===================================================================== *)

Module OAuthServer.
Import JS Fs Notations.

(** A parsed request URL: [url.pathname] and [url.searchParams]. *)
Record URL : Type := mkURL {
  pathname : string;
  searchParams : list (string * string)
}.

(** [url.searchParams.get(name)]: the first value, [None] for [null]. *)
Fixpoint searchParams_get (name : string) (params : list (string * string))
  : option string :=
  match params with
  | [] => None
  | (k, v) :: rest => if String.eqb name k then Some v else searchParams_get name rest
  end.

Record Response : Type := mkResponse {
  status : Z;
  content_type : string;
  body : string
}.

Record Config : Type := mkConfig {
  apiKey : string;
  apiSecret : string;
  oauthPort : Z
}.

(** The promise returned by [startAuthFlow]. *)
Inductive settlement : Type :=
| Pending
| Resolved (value : object)
| Rejected (reason : thrown).

(** The two callbacks the source hands to [setTimeout]. *)
Inductive timer_action : Type :=
| AuthTimeout
| Shutdown.

Record timer : Type := mkTimer {
  timer_id : nat;
  due : Z;
  action : timer_action
}.

(** What the flow did, in program order. *)
Inductive effect : Type :=
| Listen (port : Z)
| SetTimeout (id : nat) (at_time : Z) (a : timer_action)
| ClearTimeout (id : nat)
| ServerStop
| GenerateSession (call : nat) (requestToken secret : string)
| SaveToken (tokenData : object)
| Settle (outcome : settlement).

(** One flow: the closure of [startAuthFlow], the fields of the
    [OAuthServer] it belongs to, the timers and session exchanges the
    event loop holds for it, the disk, and the clock. *)
Record state : Type := mkState {
  config : Config;
  clock : Z;
  promise : settlement;
  timeoutId : option nat;
  server : bool;
  timers : list timer;
  next_timer : nat;
  calls : list (nat * string);
  next_call : nat;
  store : disk;
  log : list effect
}.

Definition set_clock (x : Z) (st : state) : state :=
  mkState (config st) x (promise st) (timeoutId st) (server st) (timers st)
          (next_timer st) (calls st) (next_call st) (store st) (log st).
Definition set_promise (x : settlement) (st : state) : state :=
  mkState (config st) (clock st) x (timeoutId st) (server st) (timers st)
          (next_timer st) (calls st) (next_call st) (store st) (log st).
Definition set_timeoutId (x : option nat) (st : state) : state :=
  mkState (config st) (clock st) (promise st) x (server st) (timers st)
          (next_timer st) (calls st) (next_call st) (store st) (log st).
Definition set_server (x : bool) (st : state) : state :=
  mkState (config st) (clock st) (promise st) (timeoutId st) x (timers st)
          (next_timer st) (calls st) (next_call st) (store st) (log st).
Definition set_timers (x : list timer) (n : nat) (st : state) : state :=
  mkState (config st) (clock st) (promise st) (timeoutId st) (server st) x
          n (calls st) (next_call st) (store st) (log st).
Definition set_calls (x : list (nat * string)) (n : nat) (st : state) : state :=
  mkState (config st) (clock st) (promise st) (timeoutId st) (server st) (timers st)
          (next_timer st) x n (store st) (log st).
Definition set_store (x : disk) (st : state) : state :=
  mkState (config st) (clock st) (promise st) (timeoutId st) (server st) (timers st)
          (next_timer st) (calls st) (next_call st) x (log st).
Definition say (e : effect) (st : state) : state :=
  mkState (config st) (clock st) (promise st) (timeoutId st) (server st) (timers st)
          (next_timer st) (calls st) (next_call st) (store st) (log st ++ [e]).

(** A promise settles once: [resolve] and [reject] on a settled promise
    do nothing. *)
Definition settle (outcome : settlement) (st : state) : state :=
  match promise st with
  | Pending => say (Settle outcome) (set_promise outcome st)
  | Resolved _ | Rejected _ => st
  end.

Definition resolve (value : object) : state -> state := settle (Resolved value).
Definition reject (reason : thrown) : state -> state := settle (Rejected reason).

(** [setTimeout(callback, delay)] *)
Definition setTimeout (a : timer_action) (delay : Z) (st : state) : nat * state :=
  let id := next_timer st in
  let t := mkTimer id (clock st + delay) a in
  (id, say (SetTimeout id (due t) a) (set_timers (timers st ++ [t]) (S id) st)).

Definition keep_other (id : nat) (t : timer) : bool := negb (Nat.eqb (timer_id t) id).

(** [clearTimeout(id)] *)
Definition clearTimeout (id : nat) (st : state) : state :=
  say (ClearTimeout id) (set_timers (filter (keep_other id) (timers st)) (next_timer st) st).

(** [if (timeoutId) clearTimeout(timeoutId)] *)
Definition cleanup (st : state) : state :=
  match timeoutId st with
  | Some id => clearTimeout id st
  | None => st
  end.

Definition cleanupAndResolve (value : object) (st : state) : state :=
  resolve value (cleanup st).

Definition cleanupAndReject (reason : thrown) (st : state) : state :=
  reject reason (cleanup st).

(** [if (this.server) { this.server.stop(); this.server = null; }] *)
Definition stop (st : state) : state :=
  if server st then say ServerStop (set_server false st) else st.

Definition CALLBACK_PATH : string := "/zerodha/auth/redirect".
Definition GRACE_MS : Z := 1000.
Definition AUTH_TIMEOUT_MS : Z := 5 * 60 * 1000.

Definition TIMEOUT_ERROR : thrown :=
  ErrorObj "Authentication timeout - no callback received within 5 minutes".

Definition WAITING : Response :=
  mkResponse 200 "text/plain" "Kite OAuth Server - Waiting for callback...".

Definition SUCCESS_PAGE : Response :=
  mkResponse 200 "text/plain"
    "✅ Authentication successful! Token saved. You can close this window.".

Section WithPlatform.
Context `{Platform}.

Definition failure_page (error : thrown) : Response :=
  mkResponse 500 "text/plain" ("❌ Authentication failed: " ++ String_of_thrown error).

(** [startAuthFlow()] at clock reading [now]: the executor of the
    promise runs to its end before any request is served.  [Bun.serve]
    is taken to bind the port.  Timer handles are counted from 1: a handle
    is never falsy. *)
Definition startAuthFlow (cfg : Config) (now : Z) (d : disk) : state :=
  let st0 := mkState cfg now Pending None false [] 1 [] 0 d [] in
  let st1 := say (Listen (oauthPort cfg)) (set_server true st0) in
  let (id, st2) := setTimeout AuthTimeout AUTH_TIMEOUT_MS st1 in
  set_timeoutId (Some id) st2.

(** The [try] branch of [fetch] once [handleOAuthCallback] returned. *)
Definition fetch_then (tokenData : object) (st : state) : state * Response :=
  let st1 := cleanupAndResolve tokenData st in
  (snd (setTimeout Shutdown GRACE_MS st1), SUCCESS_PAGE).

(** The [catch] branch of [fetch]. *)
Definition fetch_catch (error : thrown) (st : state) : state * Response :=
  let st1 := cleanupAndReject error st in
  (snd (setTimeout Shutdown GRACE_MS st1), failure_page error).

(** [status !== 'success'] *)
Definition not_success (status : option string) : bool :=
  match status with
  | Some v => negb (String.eqb v "success")
  | None => true
  end.

(** [!s] for a string or [null]. *)
Definition falsy (s : option string) : bool :=
  match s with
  | Some v => String.eqb v ""
  | None => true
  end.

(** [s || fallback] *)
Definition or_default (s : option string) (fallback : string) : string :=
  match s with
  | Some v => if String.eqb v "" then fallback else v
  | None => fallback
  end.

(** [handleOAuthCallback(url)] up to its [await]: the error it throws,
    or the request token it passes to [generateSession]. *)
Definition handleOAuthCallback_check (url : URL) : thrown + string :=
  let requestToken := searchParams_get "request_token" (searchParams url) in
  let status := searchParams_get "status" (searchParams url) in
  if not_success status || falsy requestToken then
    let error :=
      or_default (searchParams_get "error_type" (searchParams url))
                 "OAuth callback failed" in
    inl (ErrorObj error)
  else inr (or_default requestToken "").

(** [this.kiteConnect.generateSession(requestToken, apiSecret)] is
    called; its promise settles in a later turn of the event loop. *)
Definition generateSession (requestToken : string) (st : state) : state :=
  let call := next_call st in
  say (GenerateSession call requestToken (apiSecret (config st)))
      (set_calls (calls st ++ [(call, requestToken)]) (S call) st).

(** [handleOAuthCallback(url)] from its [await] on, given how the
    session promise settled. *)
Definition handleOAuthCallback_resume (now : Z) (session : result jsval) : io object :=
  try_catch
    (response <- lift session ;;
     access_token <- lift (get_prop response "access_token") ;;
     refresh_token <- lift (get_prop response "refresh_token") ;;
     user_id <- lift (get_prop response "user_id") ;;
     user_name <- lift (get_prop response "user_name") ;;
     let tokenData : object :=
       [ ("access_token", access_token);
         ("refresh_token", refresh_token);
         ("user_id", user_id);
         ("user_name", user_name);
         ("generated_at", JStr (Date_toISOString now)) ] in
     TokenManager.saveToken now tokenData ;;
     ret tokenData)
    (fun error =>
       throw (ErrorObj ("Session generation failed: " ++ message_of error))).

(** The [fetch] handler on an arriving request. *)
Definition fetch (url : URL) (st : state) : state * option Response :=
  if String.eqb (pathname url) CALLBACK_PATH then
    match handleOAuthCallback_check url with
    | inl error => let (st', r) := fetch_catch error st in (st', Some r)
    | inr requestToken => (generateSession requestToken st, None)
    end
  else (st, Some WAITING).

(** The [fetch] handler resumed by the session promise of [call]. *)
Definition fetch_resume (session : result jsval) (st : state) : state * Response :=
  let (d, r) := handleOAuthCallback_resume (clock st) session (store st) in
  let st1 := set_store d st in
  match r with
  | Ok tokenData => fetch_then tokenData (say (SaveToken tokenData) st1)
  | Throw error => fetch_catch error st1
  end.

(** The callback of a timer. *)
Definition fire (a : timer_action) (st : state) : state :=
  match a with
  | AuthTimeout => cleanupAndReject TIMEOUT_ERROR (stop st)
  | Shutdown => stop st
  end.

Definition is_armed (id : nat) (st : state) : bool :=
  existsb (fun t => Nat.eqb (timer_id t) id) (timers st).

(** Timers fire in the order of their due times, the earlier call of
    [setTimeout] first among equals: [sort_by_due] inserts the timers from
    the last to the first, each before its equals. *)
Fixpoint insert_by_due (t : timer) (sorted : list timer) : list timer :=
  match sorted with
  | [] => [t]
  | u :: rest =>
      if due t <=? due u then t :: u :: rest else u :: insert_by_due t rest
  end.

Definition sort_by_due (ts : list timer) : list timer :=
  fold_right insert_by_due [] ts.

Fixpoint fire_each (due_now : list timer) (st : state) : state :=
  match due_now with
  | [] => st
  | t :: rest =>
      fire_each rest
        (if is_armed (timer_id t) st then
           fire (action t)
                (set_timers (filter (keep_other (timer_id t)) (timers st))
                            (next_timer st) st)
         else st)
  end.

(** The clock reaches [t]: every timer due by then fires. *)
Definition advance (t : Z) (st : state) : state :=
  let st1 := set_clock (Z.max (clock st) t) st in
  fire_each (sort_by_due (filter (fun x => due x <=? clock st1) (timers st1))) st1.

Fixpoint find_call (call : nat) (cs : list (nat * string)) : option string :=
  match cs with
  | [] => None
  | (c, tok) :: rest => if Nat.eqb c call then Some tok else find_call call rest
  end.

(** What happens to a flow: time passes, a request reaches the
    listener, a session exchange answers, or [stop()] is called. *)
Inductive input : Type :=
| Advance (t : Z)
| Request (url : URL)
| SessionResult (call : nat) (session : result jsval)
| Stop.

(** One turn of the event loop.  A stopped listener serves no request;
    an exchange answers once. *)
Definition step (i : input) (st : state) : state * option Response :=
  match i with
  | Advance t => (advance t st, None)
  | Request url => if server st then fetch url st else (st, None)
  | SessionResult call session =>
      match find_call call (calls st) with
      | Some _ =>
          let st1 :=
            set_calls (filter (fun c => negb (Nat.eqb (fst c) call)) (calls st))
                      (next_call st) st in
          let (st2, r) := fetch_resume session st1 in
          (st2, Some r)
      | None => (st, None)
      end
  | Stop => (stop st, None)
  end.

Fixpoint run (inputs : list input) (st : state) : state :=
  match inputs with
  | [] => st
  | i :: rest => run rest (fst (step i st))
  end.

End WithPlatform.
End OAuthServer.

(* ===================================================================== *)
(** ** Where the token file is (src/auth/token-manager.ts, constructor) *)
(* ===================================================================== *)

Module TokenLocation.

(** What the module sees of the process it runs in: [__dirname], which is
    not defined in an ES module ([None]), [import.meta.url], and
    [process.cwd()]. *)
Record runtime : Type := mkRuntime {
  __dirname : option string;
  import_meta_url : option string;
  cwd : string
}.

Section WithFileSystem.

(** [path.join], [fs.existsSync] and
    [path.dirname(new URL(url).pathname)]. *)
Variable join : list string -> string.
Variable existsSync : string -> bool.
Variable dirname_of_url : string -> string.

(** [getScriptDirectory()] *)
Definition getScriptDirectory (rt : runtime) : string :=
  match __dirname rt with
  | Some dir => dir
  | None =>
      match import_meta_url rt with
      | Some url => if String.eqb url "" then cwd rt else dirname_of_url url
      | None => cwd rt
      end
  end.

Definition tokenPaths (rt : runtime) : list string :=
  let scriptDir := getScriptDirectory rt in
  [ join [scriptDir; "access_token.json"];
    join [scriptDir; ".."; "access_token.json"];
    join [cwd rt; "access_token.json"];
    join [scriptDir; ".."; ".."; "access_token.json"] ].

(** The [for] loop of [findTokenFile]: the path it returns from, if any. *)
Fixpoint first_existing (paths : list string) : option string :=
  match paths with
  | [] => None
  | tokenPath :: rest =>
      if existsSync tokenPath then Some tokenPath else first_existing rest
  end.

(** [findTokenFile()] *)
Definition findTokenFile (rt : runtime) : string :=
  match first_existing (tokenPaths rt) with
  | Some tokenPath => tokenPath
  | None => join [getScriptDirectory rt; "access_token.json"]
  end.

(** [new TokenManager(tokenFilePath)]: the value of [this.tokenFile],
    which [getTokenFilePath()] returns. *)
Definition getTokenFilePath (tokenFilePath : option string) (rt : runtime) : string :=
  match tokenFilePath with
  | Some p => if String.eqb p "" then findTokenFile rt else p
  | None => findTokenFile rt
  end.

End WithFileSystem.
End TokenLocation.

(* ===================================================================== *)
(** ** [KiteClient] (src/api/kite-client.ts) *)
(* ===================================================================== *)

Module KiteClient.
Import JS Fs Notations.

(** The methods of [KiteClient] that call the Kite API. *)
Inductive operation : Type :=
| getProfile
| getPositions
| getHoldings
| getOrders
| getOrderHistory
| getInstruments
| getLTP
| getOHLC
| getQuote
| placeOrder
| modifyOrder
| cancelOrder
| getMargins.

(** The name each method passes to [handleApiError]. *)
Definition operation_name (op : operation) : string :=
  match op with
  | getProfile => "getProfile"
  | getPositions => "getPositions"
  | getHoldings => "getHoldings"
  | getOrders => "getOrders"
  | getOrderHistory => "getOrderHistory"
  | getInstruments => "getInstruments"
  | getLTP => "getLTP"
  | getOHLC => "getOHLC"
  | getQuote => "getQuote"
  | placeOrder => "placeOrder"
  | modifyOrder => "modifyOrder"
  | cancelOrder => "cancelOrder"
  | getMargins => "getMargins"
  end.

(** The [n]-th argument of a call: [undefined] when it was not passed. *)
Definition argument (n : nat) (args : list jsval) : jsval := nth n args JUndefined.

(** The arguments each method passes to the method of [kiteConnect] of
    the same name. *)
Definition passed_on (op : operation) (args : list jsval) : list jsval :=
  match op with
  | getProfile | getPositions | getHoldings | getOrders | getMargins => []
  | getOrderHistory | getInstruments | getLTP | getOHLC | getQuote =>
      [argument 0 args]
  | placeOrder => [JStr "regular"; argument 0 args]
  | modifyOrder => [JStr "regular"; argument 0 args; argument 1 args]
  | cancelOrder => [JStr "regular"; argument 0 args]
  end.

(** A call on [this.kiteConnect]. *)
Inductive kite_call : Type :=
| setAccessToken (token : jsval)
| request (id : nat) (op : operation) (args : list jsval).

(** What the promise of an API call is rejected with: an [Error]
    instance with its own properties ([message] among them when it has
    one), or any other value. *)
Inductive rejection : Type :=
| ErrorInstance (props : object)
| Value (v : jsval).

(** How the promise of an API call settles. *)
Inductive answer : Type :=
| Fulfilled (v : jsval)
| Failed (error : rejection).

(** A [KiteClient]: its field [isAuthenticated], the calls it has made on
    [kiteConnect], the API calls it awaits, and the disk its token
    manager reads. *)
Record client : Type := mkClient {
  isAuthenticated : bool;
  kiteConnect : list kite_call;
  awaited : list (nat * operation);
  next_request : nat;
  token_disk : disk
}.

Definition set_isAuthenticated (x : bool) (c : client) : client :=
  mkClient x (kiteConnect c) (awaited c) (next_request c) (token_disk c).
Definition set_token_disk (x : disk) (c : client) : client :=
  mkClient (isAuthenticated c) (kiteConnect c) (awaited c) (next_request c) x.

(** Code of the token manager run on the client's disk. *)
Definition on_disk {A : Type} (m : io A) (c : client) : client * result A :=
  let (d, r) := m (token_disk c) in (set_token_disk d c, r).

Definition NOT_AUTHENTICATED : thrown :=
  ErrorObj "Not authenticated. Please run authentication first.".

Section WithPlatform.
Context `{Platform}.

(** [new KiteClient(config, tokenManager)] at clock reading [now]:
    [initializeAuthentication()] runs in the constructor. *)
Definition new_KiteClient (now : Z) (d : disk) : result client :=
  match TokenManager.getValidToken now d with
  | (d', Ok token) =>
      Ok (if truthy token
          then mkClient true [setAccessToken token] [] 0 d'
          else mkClient false [] [] 0 d')
  | (_, Throw e) => Throw e
  end.

(** [isReady()]: [this.isAuthenticated && this.tokenManager.isTokenValid()] *)
Definition isReady (now : Z) (c : client) : io bool :=
  if isAuthenticated c then TokenManager.isTokenValid now else ret false.

(** [ensureAuthenticated()] *)
Definition ensureAuthenticated (now : Z) (c : client) : io unit :=
  ready <- isReady now c ;;
  if negb ready then throw NOT_AUTHENTICATED else ret tt.

(** An API method up to its [await]: it throws, which rejects the
    promise it returns, or calls [kiteConnect] and waits for the answer to
    the call whose number it returns. *)
Definition call (now : Z) (op : operation) (args : list jsval) (c : client)
  : client * result nat :=
  match on_disk (ensureAuthenticated now c) c with
  | (c1, Ok _) =>
      let id := next_request c1 in
      (mkClient (isAuthenticated c1)
                (kiteConnect c1 ++ [request id op (passed_on op args)])
                (awaited c1 ++ [(id, op)]) (S id) (token_disk c1),
       Ok id)
  | (c1, Throw e) => (c1, Throw e)
  end.

(** [`${v}`] *)
Definition to_string (v : jsval) : string :=
  match v with
  | JStr s => s
  | _ => String_of v
  end.

(** [error.message] on an [Error] instance: its own property, or the
    empty string of [Error.prototype]. *)
Definition message_property (props : object) : jsval :=
  match lookup "message" props with
  | Some v => v
  | None => JStr ""
  end.

(** [error && typeof error === 'object'] *)
Definition is_object (error : rejection) : bool :=
  match error with
  | ErrorInstance _ => true
  | Value (JObj _) | Value (JArr _) => true
  | Value _ => false
  end.

(** [error.status] and [error.message], for an [error] that
    [is_object]. *)
Definition status_of (error : rejection) : jsval :=
  match error with
  | ErrorInstance props => field "status" props
  | Value (JObj fields) => field "status" fields
  | Value _ => JUndefined
  end.

Definition message_of_rejection (error : rejection) : jsval :=
  match error with
  | ErrorInstance props => message_property props
  | Value (JObj fields) => field "message" fields
  | Value _ => JUndefined
  end.

(** [v === 403] *)
Definition is_403 (v : jsval) : bool :=
  match v with
  | JNum f => PrimFloat.eqb f 403%float
  | _ => false
  end.

(** [error instanceof Error ? error.message : String(error)] *)
Definition describe (error : rejection) : string :=
  match error with
  | ErrorInstance props => to_string (message_property props)
  | Value v => String_of v
  end.

(** [handleApiError(error, operation)]: the [Error] it returns, and what
    it does to [isAuthenticated]. *)
Definition handleApiError (error : rejection) (op : operation) (c : client)
  : client * thrown :=
  if is_object error && is_403 (status_of error) then
    (set_isAuthenticated false c,
     ErrorObj ("Authentication failed during " ++ operation_name op
               ++ ". Token may be expired."))
  else if is_object error && truthy (message_of_rejection error) then
    (c, ErrorObj (operation_name op ++ " failed: "
                  ++ to_string (message_of_rejection error)))
  else
    (c, ErrorObj (operation_name op ++ " failed: " ++ describe error)).

(** An API method from its [await] on. *)
Definition settle_call (op : operation) (a : answer) (c : client)
  : client * result jsval :=
  match a with
  | Fulfilled v => (c, Ok v)
  | Failed error => let (c', e) := handleApiError error op c in (c', Throw e)
  end.

(** [tokenData?.k] *)
Definition optional_prop (tokenData : option jsval) (k : string) : result jsval :=
  match tokenData with
  | None => Ok JUndefined
  | Some record => get_prop record k
  end.

(** [getAuthenticationStatus()]: the token manager reads the clock at
    [now1] for [getValidTokenData()] and at [now2] for [isReady()]. *)
Definition getAuthenticationStatus (now1 now2 : Z) (c : client) : io object :=
  tokenData <- TokenManager.getValidTokenData now1 ;;
  ready <- isReady now2 c ;;
  user_name <- lift (optional_prop tokenData "user_name") ;;
  user <- (if truthy user_name then ret user_name
           else lift (optional_prop tokenData "user_id")) ;;
  tokenExpiry <- lift (optional_prop tokenData "generated_at") ;;
  ret [ ("authenticated", JBool ready);
        ("user", user);
        ("tokenExpiry", tokenExpiry) ].

Fixpoint find_awaited (id : nat) (l : list (nat * operation)) : option operation :=
  match l with
  | [] => None
  | (i, op) :: rest => if Nat.eqb i id then Some op else find_awaited id rest
  end.

(** What happens to a client: one of its API methods is called, an API
    call it awaits is answered, or the token file changes under it (the
    authentication script saves a token, the file is removed). *)
Inductive client_input : Type :=
| Call (now : Z) (op : operation) (args : list jsval)
| Answer (id : nat) (a : answer)
| TokenFile (d : disk).

(** One turn: the client after it, and the promise that settled in it,
    if one did. *)
Definition client_step (i : client_input) (c : client) : client * option (result jsval) :=
  match i with
  | Call now op args =>
      match call now op args c with
      | (c', Ok _) => (c', None)
      | (c', Throw e) => (c', Some (Throw e))
      end
  | Answer id a =>
      match find_awaited id (awaited c) with
      | Some op =>
          let c1 :=
            mkClient (isAuthenticated c) (kiteConnect c)
                     (filter (fun x => negb (Nat.eqb (fst x) id)) (awaited c))
                     (next_request c) (token_disk c) in
          let (c2, r) := settle_call op a c1 in
          (c2, Some r)
      | None => (c, None)
      end
  | TokenFile d => (set_token_disk d c, None)
  end.

Fixpoint client_run (inputs : list client_input) (c : client) : client :=
  match inputs with
  | [] => c
  | i :: rest => client_run rest (fst (client_step i c))
  end.

End WithPlatform.
End KiteClient.

(* ===================================================================== *)
(** ** The tools and the [CallTool] handler (src/mcp/tools/index.ts,
       src/mcp/server.ts) *)
(* ===================================================================== *)

Module McpServer.
Import JS Fs Notations KiteClient.

(** The tool classes of [ALL_TOOLS]. *)
Inductive tool : Type :=
| GetProfileTool
| GetPositionsTool
| GetHoldingsTool
| GetOrdersTool
| PlaceOrderTool
| CancelOrderTool
| GetLTPTool
| GetQuoteTool
| GetInstrumentsTool
| GetMarginsTool
| GetAuthStatusTool.

(** [tool.name] *)
Definition tool_name (t : tool) : string :=
  match t with
  | GetProfileTool => "get_profile"
  | GetPositionsTool => "get_positions"
  | GetHoldingsTool => "get_holdings"
  | GetOrdersTool => "get_orders"
  | PlaceOrderTool => "place_order"
  | CancelOrderTool => "cancel_order"
  | GetLTPTool => "get_ltp"
  | GetQuoteTool => "get_quote"
  | GetInstrumentsTool => "get_instruments"
  | GetMarginsTool => "get_margins"
  | GetAuthStatusTool => "get_auth_status"
  end.

Definition ALL_TOOLS : list tool :=
  [ GetProfileTool; GetPositionsTool; GetHoldingsTool; GetOrdersTool;
    PlaceOrderTool; CancelOrderTool; GetLTPTool; GetQuoteTool;
    GetInstrumentsTool; GetMarginsTool; GetAuthStatusTool ].

Inductive ErrorCode : Type :=
| MethodNotFound
| InternalError.

(** [new McpError(code, message)] *)
Record McpError : Type := mkMcpError {
  code : ErrorCode;
  message : string
}.

(** What is thrown inside the handler: an [McpError], or anything else. *)
Inductive failure : Type :=
| Mcp (e : McpError)
| Other (e : thrown).

Definition NOT_AUTHENTICATED_WITH_KITE : McpError :=
  mkMcpError InternalError
    "Not authenticated with Kite API. Please run authentication first.".

(** How a call of the handler stands after a turn: it returned a
    result, it threw, or it awaits the answer to an API call. *)
Inductive outcome : Type :=
| Returned (response : jsval)
| Threw (e : McpError)
| Awaits (id : nat).

Section WithPlatform.
Context `{Platform}.

(** [ALL_TOOLS.find(t => t.name === name)] *)
Definition find_tool (n : string) : option tool :=
  find (fun t => String.eqb (tool_name t) n) ALL_TOOLS.

(** The method of [kiteClient] an API tool calls, with the arguments it
    passes; [args] is never [null] or [undefined] here. *)
Definition delegate (t : tool) (args : jsval) : option (result (operation * list jsval)) :=
  match t with
  | GetProfileTool => Some (Ok (getProfile, []))
  | GetPositionsTool => Some (Ok (getPositions, []))
  | GetHoldingsTool => Some (Ok (getHoldings, []))
  | GetOrdersTool => Some (Ok (getOrders, []))
  | PlaceOrderTool => Some (Ok (placeOrder, [args]))
  | CancelOrderTool =>
      Some (JS.bind (get_prop args "order_id") (fun v => Ok (cancelOrder, [v])))
  | GetLTPTool =>
      Some (JS.bind (get_prop args "instruments") (fun v => Ok (getLTP, [v])))
  | GetQuoteTool =>
      Some (JS.bind (get_prop args "instruments") (fun v => Ok (getQuote, [v])))
  | GetInstrumentsTool =>
      Some (JS.bind (get_prop args "exchange") (fun v => Ok (getInstruments, [v])))
  | GetMarginsTool => Some (Ok (getMargins, []))
  | GetAuthStatusTool => None
  end.

(** [{ content: [{ type: 'text', text: JSON.stringify(result, null, 2) }] }] *)
Definition text_content (result : jsval) : jsval :=
  JObj [ ("content",
          JArr [ JObj [ ("type", JStr "text");
                        ("text", JStr (JSON_stringify result)) ] ]) ].

(** [error instanceof Error ? error.message : String(error)] *)
Definition describe_thrown (e : thrown) : string :=
  match e with
  | ErrorObj m => m
  | Thrown v => String_of v
  end.

(** The [catch] block of the handler. *)
Definition handler_catch (e : failure) : McpError :=
  match e with
  | Mcp error => error
  | Other error =>
      mkMcpError InternalError ("Tool execution failed: " ++ describe_thrown error)
  end.

(** [tool.execute(args, context)] up to its [await]: what it returned
    or threw, or the API call it awaits. *)
Definition execute (t : tool) (args : jsval) (now1 now2 : Z) (c : client)
  : client * (result jsval + nat) :=
  match delegate t args with
  | None =>
      match on_disk (getAuthenticationStatus now1 now2 c) c with
      | (c', Ok status) => (c', inl (Ok (JObj status)))
      | (c', Throw e) => (c', inl (Throw e))
      end
  | Some (Throw e) => (c, inl (Throw e))
  | Some (Ok (op, passed)) =>
      match call now2 op passed c with
      | (c', Ok id) => (c', inr id)
      | (c', Throw e) => (c', inl (Throw e))
      end
  end.

(** The handler of [CallToolRequestSchema] on a request for the tool
    [n] with the arguments [args] ([undefined] when the request has
    none), up to its [await].  The clock is read at [now1] by the first
    call of the token manager and at [now2] by the second. *)
Definition callTool (now1 now2 : Z) (n : string) (args : jsval) (c : client)
  : client * outcome :=
  match find_tool n with
  | None => (c, Threw (mkMcpError MethodNotFound ("Tool " ++ n ++ " not found")))
  | Some t =>
      let (c1, ready) :=
        if negb (String.eqb n "get_auth_status")
        then on_disk (isReady now1 c) c
        else (c, Ok true) in
      match ready with
      | Throw e => (c1, Threw (handler_catch (Other e)))
      | Ok false => (c1, Threw (handler_catch (Mcp NOT_AUTHENTICATED_WITH_KITE)))
      | Ok true =>
          match execute t (or_else args (JObj [])) now1 now2 c1 with
          | (c2, inl (Ok result)) => (c2, Returned (text_content result))
          | (c2, inl (Throw e)) => (c2, Threw (handler_catch (Other e)))
          | (c2, inr id) => (c2, Awaits id)
          end
      end
  end.

(** The handler from its [await] on, given how the promise of the API
    method settled. *)
Definition callTool_resume (r : result jsval) : outcome :=
  match r with
  | Ok result => Returned (text_content result)
  | Throw e => Threw (handler_catch (Other e))
  end.

(** What reaches the server: a [CallTool] request, the answer to an API
    call, a change of the token file. *)
Inductive event : Type :=
| CallTool (now1 now2 : Z) (n : string) (args : jsval)
| ApiAnswer (id : nat) (a : answer)
| TokenFileChange (d : disk).

(** One turn of the server: its client after it, and what a call of the
    handler came to in it. *)
Definition serve (e : event) (c : client) : client * option outcome :=
  match e with
  | CallTool now1 now2 n args =>
      let (c', o) := callTool now1 now2 n args c in (c', Some o)
  | ApiAnswer id a =>
      match client_step (Answer id a) c with
      | (c', Some r) => (c', Some (callTool_resume r))
      | (c', None) => (c', None)
      end
  | TokenFileChange d => (fst (client_step (TokenFile d) c), None)
  end.

Fixpoint serve_all (events : list event) (c : client) : client :=
  match events with
  | [] => c
  | e :: rest => serve_all rest (fst (serve e c))
  end.

End WithPlatform.
End McpServer.

(* ===================================================================== *)
(** ** A reference platform *)
(* ===================================================================== *)

(** An executable instance of [Platform], to run the model on concrete
    files and clock readings.  It covers what token files and the examples
    below use: JSON texts made of objects, arrays, strings, [true], [false],
    [null] and integer literals below 2^53, printed the way
    [JSON.stringify(v, null, 2)] prints them, and timestamps in the format of
    [toISOString] (four-digit years).  Strings are sequences of UTF-8
    bytes.  Outside that fragment it answers "no parse" or "invalid date",
    which the real platform does not always do. *)
Module Reference.
Import JS.

Definition chr (n : N) : ascii := ascii_of_N n.
Definition code (c : ascii) : N := N_of_ascii c.

Fixpoint join (sep : string) (parts : list string) : string :=
  match parts with
  | [] => ""
  | [p] => p
  | p :: rest => p ++ sep ++ join sep rest
  end.

Definition digit (n : Z) : ascii := chr (Z.to_N (48 + n mod 10)).

(** The last [width] decimal digits of [n], most significant first. *)
Fixpoint digits (width : nat) (n : Z) : string :=
  match width with
  | O => ""
  | S w => digits w (n / 10) ++ String (digit n) ""
  end.

Fixpoint decimal_fuel (fuel : nat) (n : Z) : string :=
  match fuel with
  | O => ""
  | S f => if n <? 10 then String (digit n) ""
           else decimal_fuel f (n / 10) ++ String (digit n) ""
  end.

(** A natural number in decimal. *)
Definition decimal (n : Z) : string := decimal_fuel 20 n.

Definition hex_digit (n : N) : ascii :=
  if N.ltb n 10 then chr (48 + n) else chr (87 + n).

Definition QUOTE : ascii := chr 34.
Definition BACKSLASH : ascii := chr 92.
Definition NEWLINE : string := String (chr 10) "".

Definition two (a b : ascii) : string := String a (String b "").

(** The escape of one byte inside a JSON string. *)
Definition escape_byte (c : ascii) : string :=
  let n := code c in
  if N.eqb n 34 then two BACKSLASH QUOTE
  else if N.eqb n 92 then two BACKSLASH BACKSLASH
  else if N.eqb n 8 then two BACKSLASH "b"
  else if N.eqb n 12 then two BACKSLASH "f"
  else if N.eqb n 10 then two BACKSLASH "n"
  else if N.eqb n 13 then two BACKSLASH "r"
  else if N.eqb n 9 then two BACKSLASH "t"
  else if N.ltb n 32 then
    two BACKSLASH "u" ++ "00" ++ two (hex_digit (n / 16)) (hex_digit (n mod 16))
  else String c "".

Fixpoint escape (s : string) : string :=
  match s with
  | EmptyString => ""
  | String c rest => escape_byte c ++ escape rest
  end.

(** QuoteJSONString *)
Definition quote (s : string) : string :=
  String QUOTE (escape s) ++ String QUOTE "".

(** The integer a float denotes, when it denotes one below 2^53. *)
Definition integer_of (f : float) : option Z :=
  match Prim2SF f with
  | S754_zero _ => Some 0
  | S754_finite sign m e =>
      let magnitude :=
        if 0 <=? e then Some (Z.pos m * 2 ^ e)
        else if Z.pos m mod 2 ^ (- e) =? 0 then Some (Z.pos m / 2 ^ (- e))
        else None in
      match magnitude with
      | Some z => if z <? 2 ^ 53 then Some (if sign then - z else z) else None
      | None => None
      end
  | S754_infinity _ | S754_nan => None
  end.

Definition print_number (f : float) : string :=
  match integer_of f with
  | Some z => if z <? 0 then "-" ++ decimal (- z) else decimal z
  | None => "null"
  end.

(** The printed members of an object: a member that is [undefined] is left
    out. *)
Fixpoint members_of (value : jsval -> string) (fields : object) : list string :=
  match fields with
  | [] => []
  | (k, JUndefined) :: rest => members_of value rest
  | (k, x) :: rest => (quote k ++ ": " ++ value x) :: members_of value rest
  end.

(** An opening bracket, the members one per line at the indentation
    [inner], and the closing bracket at the indentation [indent]. *)
Definition block (indent inner opening closing : string) (members : list string)
  : string :=
  match members with
  | [] => opening ++ closing
  | _ => opening ++ NEWLINE ++ inner
         ++ join ("," ++ NEWLINE ++ inner) members
         ++ NEWLINE ++ indent ++ closing
  end.

(** [JSON.stringify(v, null, 2)], [indent] being the current indentation.
    At the top level [undefined] has no text; inside an array it prints as
    [null]. *)
Fixpoint stringify (indent : string) (v : jsval) : string :=
  let inner := (indent ++ "  ")%string in
  match v with
  | JUndefined | JNull => "null"
  | JBool true => "true"
  | JBool false => "false"
  | JNum f => print_number f
  | JStr s => quote s
  | JArr items => block indent inner "[" "]" (map (stringify inner) items)
  | JObj fields => block indent inner "{" "}" (members_of (stringify inner) fields)
  end.

(** *** Parsing *)

Definition is_space (c : ascii) : bool :=
  let n := code c in
  N.eqb n 32 || N.eqb n 9 || N.eqb n 10 || N.eqb n 13.

Fixpoint skip_space (s : string) : string :=
  match s with
  | String c rest => if is_space c then skip_space rest else s
  | EmptyString => s
  end.

Definition hex_value (c : ascii) : option N :=
  let n := code c in
  if N.leb 48 n && N.leb n 57 then Some (n - 48)%N
  else if N.leb 97 n && N.leb n 102 then Some (n - 87)%N
  else if N.leb 65 n && N.leb n 70 then Some (n - 55)%N
  else None.

(** The UTF-8 bytes of a code point of the basic plane that is not a
    surrogate. *)
Definition utf8 (cp : N) : option string :=
  if N.ltb cp 128 then Some (String (chr cp) "")
  else if N.ltb cp 2048 then
    Some (two (chr (192 + cp / 64)) (chr (128 + cp mod 64)))
  else if N.leb 55296 cp && N.leb cp 57343 then None
  else
    Some (String (chr (224 + cp / 4096))
            (two (chr (128 + (cp / 64) mod 64)) (chr (128 + cp mod 64)))).

(** The characters of a string literal after its opening quote: the
    string, and the text after the closing quote. *)
Fixpoint parse_chars (s : string) : option (string * string) :=
  match s with
  | EmptyString => None
  | String c rest =>
      let n := code c in
      if N.eqb n 34 then Some ("", rest)
      else if N.ltb n 32 then None
      else if N.eqb n 92 then
        match rest with
        | String e rest' =>
            let plain (b : N) :=
              match parse_chars rest' with
              | Some (str, tl) => Some (String (chr b) str, tl)
              | None => None
              end in
            let m := code e in
            if N.eqb m 34 then plain 34%N
            else if N.eqb m 92 then plain 92%N
            else if N.eqb m 47 then plain 47%N
            else if N.eqb m 98 then plain 8%N
            else if N.eqb m 102 then plain 12%N
            else if N.eqb m 110 then plain 10%N
            else if N.eqb m 114 then plain 13%N
            else if N.eqb m 116 then plain 9%N
            else if N.eqb m 117 then
              match rest' with
              | String h1 (String h2 (String h3 (String h4 rest''))) =>
                  match hex_value h1, hex_value h2, hex_value h3, hex_value h4 with
                  | Some a, Some b, Some c', Some d =>
                      match utf8 ((((a * 16 + b) * 16 + c') * 16 + d)%N),
                            parse_chars rest'' with
                      | Some bytes, Some (str, tl) => Some (bytes ++ str, tl)
                      | _, _ => None
                      end
                  | _, _, _, _ => None
                  end
              | _ => None
              end
            else None
        | EmptyString => None
        end
      else
        match parse_chars rest with
        | Some (str, tl) => Some (String c str, tl)
        | None => None
        end
  end.

Definition is_digit (c : ascii) : bool :=
  N.leb 48 (code c) && N.leb (code c) 57.

(** A run of digits: its value, how many there were, and the rest. *)
Fixpoint parse_digits (acc : Z) (count : nat) (s : string) : Z * nat * string :=
  match s with
  | String c rest =>
      if is_digit c then parse_digits (acc * 10 + Z.of_N (code c - 48)) (S count) rest
      else (acc, count, s)
  | EmptyString => (acc, count, s)
  end.

Definition starts_with_zero (s : string) : bool :=
  match s with
  | String c _ => N.eqb (code c) 48
  | EmptyString => false
  end.

Definition continues_number (s : string) : bool :=
  match s with
  | String c _ =>
      let n := code c in N.eqb n 46 || N.eqb n 101 || N.eqb n 69
  | EmptyString => false
  end.

Definition float_of (z : Z) : float := PrimFloat.of_uint63 (Uint63.of_Z z).

(** An integer literal below 2^53. *)
Definition parse_number (s : string) : option (jsval * string) :=
  let (negative, body) :=
    match s with
    | String c rest => if N.eqb (code c) 45 then (true, rest) else (false, s)
    | EmptyString => (false, s)
    end in
  let '(z, count, rest) := parse_digits 0 0 body in
  if Nat.eqb count 0 then None
  else if starts_with_zero body && Nat.ltb 1 count then None
  else if continues_number rest then None
  else if 2 ^ 53 <=? z then None
  else Some (JNum (if negative then PrimFloat.opp (float_of z) else float_of z), rest).

Fixpoint strip_prefix (prefix s : string) : option string :=
  match prefix, s with
  | EmptyString, _ => Some s
  | String a p, String b rest => if Ascii.eqb a b then strip_prefix p rest else None
  | String _ _, EmptyString => None
  end.

(** The members of an object after its opening brace or a comma, up to the
    closing brace; [value] parses one value, [n] bounds the number of
    members.  A repeated key keeps its place and takes the later value. *)
Fixpoint parse_members (value : string -> option (jsval * string)) (n : nat)
  (acc : object) (s : string) : option (jsval * string) :=
  match n with
  | O => None
  | S n' =>
      match skip_space s with
      | String q after_quote =>
          if negb (N.eqb (code q) 34) then None
          else
            match parse_chars after_quote with
            | Some (key, s1) =>
                match skip_space s1 with
                | String colon s2 =>
                    if negb (N.eqb (code colon) 58) then None
                    else
                      match value s2 with
                      | Some (v, s3) =>
                          let acc' := set_field key v acc in
                          match skip_space s3 with
                          | String sep s4 =>
                              if N.eqb (code sep) 44 then
                                parse_members value n' acc' s4
                              else if N.eqb (code sep) 125 then Some (JObj acc', s4)
                              else None
                          | EmptyString => None
                          end
                      | None => None
                      end
                | EmptyString => None
                end
            | None => None
            end
      | EmptyString => None
      end
  end.

(** The items of an array after its opening bracket or a comma, up to the
    closing bracket. *)
Fixpoint parse_items (value : string -> option (jsval * string)) (n : nat)
  (acc : list jsval) (s : string) : option (jsval * string) :=
  match n with
  | O => None
  | S n' =>
      match value s with
      | Some (v, s1) =>
          match skip_space s1 with
          | String sep s2 =>
              if N.eqb (code sep) 44 then parse_items value n' (acc ++ [v])%list s2
              else if N.eqb (code sep) 93 then Some (JArr (acc ++ [v])%list, s2)
              else None
          | EmptyString => None
          end
      | None => None
      end
  end.

(** One JSON value, leading white space skipped: the value and the text
    after it.  [fuel] bounds the nesting and the number of members. *)
Fixpoint parse_value (fuel : nat) (text : string) : option (jsval * string) :=
  match fuel with
  | O => None
  | S fuel' =>
      match skip_space text with
      | EmptyString => None
      | String c rest as s =>
          let n := code c in
          if N.eqb n 34 then
            match parse_chars rest with
            | Some (str, tl) => Some (JStr str, tl)
            | None => None
            end
          else if N.eqb n 123 then
            match skip_space rest with
            | String c' rest' =>
                if N.eqb (code c') 125 then Some (JObj [], rest')
                else parse_members (parse_value fuel') fuel' [] rest
            | EmptyString => None
            end
          else if N.eqb n 91 then
            match skip_space rest with
            | String c' rest' =>
                if N.eqb (code c') 93 then Some (JArr [], rest')
                else parse_items (parse_value fuel') fuel' [] rest
            | EmptyString => None
            end
          else if N.eqb n 110 then option_map (pair JNull) (strip_prefix "null" s)
          else if N.eqb n 116 then option_map (pair (JBool true)) (strip_prefix "true" s)
          else if N.eqb n 102 then option_map (pair (JBool false)) (strip_prefix "false" s)
          else parse_number s
      end
  end.

(** [JSON.parse(text)] *)
Definition parse (text : string) : option jsval :=
  match parse_value (S (String.length text)) text with
  | Some (v, rest) =>
      match skip_space rest with
      | EmptyString => Some v
      | String _ _ => None
      end
  | None => None
  end.

(** *** Timestamps *)

(** Days from 1970-01-01 to the given day of the proleptic Gregorian
    calendar. *)
Definition days_from_civil (y m d : Z) : Z :=
  let y' := if m <=? 2 then y - 1 else y in
  let era := y' / 400 in
  let yoe := y' - era * 400 in
  let doy := (153 * (if 2 <? m then m - 3 else m + 9) + 2) / 5 + d - 1 in
  let doe := yoe * 365 + yoe / 4 - yoe / 100 + doy in
  era * 146097 + doe - 719468.

(** The year, month and day of a number of days since 1970-01-01. *)
Definition civil_from_days (days : Z) : Z * Z * Z :=
  let z := days + 719468 in
  let era := z / 146097 in
  let doe := z - era * 146097 in
  let yoe := (doe - doe / 1460 + doe / 36524 - doe / 146096) / 365 in
  let doy := doe - (365 * yoe + yoe / 4 - yoe / 100) in
  let mp := (5 * doy + 2) / 153 in
  let d := doy - (153 * mp + 2) / 5 + 1 in
  let m := if mp <? 10 then mp + 3 else mp - 9 in
  let y := yoe + era * 400 + (if m <=? 2 then 1 else 0) in
  (y, m, d).

Definition MS_PER_DAY : Z := 86400000.

(** [new Date(t).toISOString()] for years 0 to 9999. *)
Definition toISOString (t : Z) : string :=
  let days := t / MS_PER_DAY in
  let ms := t mod MS_PER_DAY in
  let '(y, m, d) := civil_from_days days in
  digits 4 y ++ "-" ++ digits 2 m ++ "-" ++ digits 2 d ++ "T"
    ++ digits 2 (ms / 3600000) ++ ":" ++ digits 2 (ms / 60000 mod 60) ++ ":"
    ++ digits 2 (ms / 1000 mod 60) ++ "." ++ digits 3 (ms mod 1000) ++ "Z".

(** Exactly [width] digits: their value and the rest. *)
Fixpoint read_digits (width : nat) (acc : Z) (s : string) : option (Z * string) :=
  match width with
  | O => Some (acc, s)
  | S w =>
      match s with
      | String c rest =>
          if is_digit c then read_digits w (acc * 10 + Z.of_N (code c - 48)) rest
          else None
      | EmptyString => None
      end
  end.

Definition expect (c : string) (s : string) : option string := strip_prefix c s.

Definition days_in_month (y m : Z) : Z :=
  days_from_civil (if m =? 12 then y + 1 else y) (if m =? 12 then 1 else m + 1) 1
  - days_from_civil y m 1.

(** The time value of a string in the format YYYY-MM-DDTHH:mm:ss.sssZ. *)
Definition parse_iso (s : string) : option Z :=
  match read_digits 4 0 s with
  | Some (y, s) =>
  match expect "-" s with Some s =>
  match read_digits 2 0 s with Some (m, s) =>
  match expect "-" s with Some s =>
  match read_digits 2 0 s with Some (d, s) =>
  match expect "T" s with Some s =>
  match read_digits 2 0 s with Some (hh, s) =>
  match expect ":" s with Some s =>
  match read_digits 2 0 s with Some (mm, s) =>
  match expect ":" s with Some s =>
  match read_digits 2 0 s with Some (ss, s) =>
  match expect "." s with Some s =>
  match read_digits 3 0 s with Some (ms, s) =>
    if String.eqb s "Z" && (1 <=? m) && (m <=? 12) && (1 <=? d)
       && (d <=? days_in_month y m) && (hh <=? 23) && (mm <=? 59) && (ss <=? 59)
    then Some (days_from_civil y m d * MS_PER_DAY
               + hh * 3600000 + mm * 60000 + ss * 1000 + ms)
    else None
  | None => None end | None => None end | None => None end | None => None end
  | None => None end | None => None end | None => None end | None => None end
  | None => None end | None => None end | None => None end | None => None end
  | None => None
  end.

(** [new Date(v)] on a string; any other value is outside the fragment. *)
Definition date_of (v : jsval) : option Z :=
  match v with
  | JStr s => parse_iso s
  | _ => None
  end.

(** *** Records of strings *)

(** The members of an object that are strings. *)
Fixpoint strings_of (fields : object) : list (string * string) :=
  match fields with
  | [] => []
  | (k, JStr s) :: rest => (k, s) :: strings_of rest
  | _ :: rest => strings_of rest
  end.

(** One printed member. *)
Definition render (m : string * string) : string :=
  quote (fst m) ++ ": " ++ quote (snd m).

(** What separates the members of a top-level object. *)
Definition SEP : string := "," ++ NEWLINE ++ "  ".

(** The parser's accumulation of one member. *)
Definition put (acc : object) (m : string * string) : object :=
  set_field (fst m) (JStr (snd m)) acc.

(** Every member of the record is a string, or undefined. *)
Definition typed (record : object) : Prop :=
  Forall (fun kv => snd kv = JUndefined \/ exists s, snd kv = JStr s) record.

(** The message of the TypeError for reading a property of [null] or
    [undefined]. *)
Definition type_error (v : jsval) (k : string) : string :=
  match v with
  | JNull => "null is not an object (reading " ++ k ++ ")"
  | _ => "undefined is not an object (reading " ++ k ++ ")"
  end.

#[export] Instance platform : Platform := {
  JSON_parse := parse;
  JSON_stringify := stringify "";
  Date_new := date_of;
  Date_toISOString := toISOString;
  TypeError_message := type_error;
  String_of := stringify ""
}.

End Reference.

(* ===================================================================== *)
(** ** The specification's vocabulary *)
(* ===================================================================== *)

(** Definitions that follow the words of the specification, to state its
    claims against the code above. *)
Module Spec.
Import JS Fs.

(** The six fields of a token record. *)
Definition token_fields : list string :=
  ["access_token"; "refresh_token"; "user_id"; "user_name"; "generated_at";
   "expires_at"].

(** Two records with the same value in each of the six fields. *)
Definition same_fields (a b : object) : Prop :=
  Forall (fun k => field k a = field k b) token_fields.

(** A field of a stored record is missing, or empty. *)
Definition missing_or_empty (v : jsval) : Prop :=
  v = JUndefined \/ v = JNull \/ v = JStr "".

(** A field holds a non-empty string. *)
Definition non_empty (v : jsval) : Prop :=
  exists s, v = JStr s /\ s <> "".

(** A field is typed as the [TokenData] interface types it: a string
    when it is there at all. *)
Definition string_or_missing (v : jsval) : Prop :=
  v = JUndefined \/ v = JNull \/ exists s, v = JStr s.

(** The fixed freshness window: 5 hours, in milliseconds. *)
Definition FRESHNESS_WINDOW : Z := 5 * 3600000.

(** The time elapsed since the creation timestamp is strictly less than
    the freshness window. *)
Definition fresh (created : option Z) (now : Z) : bool :=
  match created with
  | Some t => now - t <? FRESHNESS_WINDOW
  | None => false
  end.

(** The current time is strictly before the expiry timestamp. *)
Definition before (now : Z) (expiry : option Z) : bool :=
  match expiry with
  | Some t => now <? t
  | None => false
  end.

Section WithPlatform.
Context `{Platform}.

(** Validity as section 4.1 words it: with an explicit expiry
    timestamp, the current time is strictly before it; otherwise the
    creation timestamp is less than the freshness window old. *)
Definition valid_at (now : Z) (record : object) : bool :=
  if truthy (field "expires_at" record)
  then before now (Date_new (field "expires_at" record))
  else fresh (Date_new (field "generated_at" record)) now.

(** The same, as a proposition. *)
Definition unexpired (now : Z) (record : object) : Prop :=
  if truthy (field "expires_at" record)
  then exists expiry,
         Date_new (field "expires_at" record) = Some expiry /\ now < expiry
  else exists created,
         Date_new (field "generated_at" record) = Some created
         /\ now - created < FRESHNESS_WINDOW.

(** The timestamp that decides the validity of a record. *)
Definition deciding_timestamp (record : object) : jsval :=
  if truthy (field "expires_at" record) then field "expires_at" record
  else field "generated_at" record.

(** The record [loadToken] finds on a disk: the file is there, can be
    read, parses to an object, and its three required fields pass the
    test of the source. *)
Definition stored (d : disk) : option jsval :=
  match token_file d, read_error d with
  | Some text, None =>
      match JSON_parse text with
      | Some (JObj fields) =>
          if truthy (field "access_token" fields)
             && truthy (field "user_id" fields)
             && truthy (field "generated_at" fields)
          then Some (JObj fields)
          else None
      | _ => None
      end
  | _, _ => None
  end.

(** What the platform's JSON makes of a record written and read back:
    an object with the same six fields. *)
Definition round_trips (record : object) : Prop :=
  exists loaded,
    JSON_parse (JSON_stringify (JObj record)) = Some (JObj loaded)
    /\ same_fields loaded record.

End WithPlatform.

(** [e1] happened before [e2] in a log. *)
Definition precedes {A : Type} (e1 e2 : A) (log : list A) : Prop :=
  exists l1 l2 l3, log = (l1 ++ e1 :: l2 ++ e2 :: l3)%list.

(** *** The handshake *)

Import OAuthServer.

(** An input that is not a request on the callback path. *)
Definition no_callback (i : input) : Prop :=
  match i with
  | Request url => pathname url <> CALLBACK_PATH
  | Advance _ | SessionResult _ _ | Stop => True
  end.

(** An input that is not the answer to the exchange [call]. *)
Definition not_result_of (call : nat) (i : input) : Prop :=
  match i with
  | SessionResult c _ => c <> call
  | Advance _ | Request _ | Stop => True
  end.

(** The flow is waiting for the answer to [call], made with
    [requestToken]. *)
Definition awaiting (call : nat) (requestToken : string) (st : state) : Prop :=
  find_call call (calls st) = Some requestToken.

(** The identifiers of the pending exchanges were all handed out. *)
Definition calls_fresh (st : state) : Prop :=
  Forall (fun c => (fst c < next_call st)%nat) (calls st).

(** The timeout timer is the one [timeoutId] names, it is the only timer
    with the timeout callback, and it is not armed once the promise has
    settled. *)
Definition timer_discipline (st : state) : Prop :=
  timeoutId st = Some 1%nat
  /\ (2 <= next_timer st)%nat
  /\ Forall (fun t => timer_id t = 1%nat \/ action t = Shutdown) (timers st)
  /\ (promise st <> Pending -> Forall (fun t => timer_id t <> 1%nat) (timers st)).

(** A flow started at [t0] that no callback has reached: it waits with
    its timeout timer armed, or the timer has fired. *)
Definition quiet (t0 : Z) (st : state) : Prop :=
  calls st = []
  /\ timeoutId st = Some 1%nat
  /\ ((promise st = Pending
       /\ timers st = [mkTimer 1 (t0 + AUTH_TIMEOUT_MS) AuthTimeout]
       /\ clock st < t0 + AUTH_TIMEOUT_MS)
      \/ (promise st = Rejected TIMEOUT_ERROR
          /\ timers st = []
          /\ server st = false
          /\ t0 + AUTH_TIMEOUT_MS <= clock st)).

(** The timeout callback is not armed. *)
Definition timeout_disarmed (st : state) : Prop :=
  Forall (fun t => action t = Shutdown) (timers st).

(** An outcome the flow can settle with: a rejection, or a resolution
    with a record that [handleOAuthCallback] built. *)
Definition settled_by_flow (outcome : settlement) : Prop :=
  match outcome with
  | Pending => False
  | Rejected _ => True
  | Resolved tokenData =>
      exists a r u n g,
        tokenData = [ ("access_token", a); ("refresh_token", r); ("user_id", u);
                      ("user_name", n); ("generated_at", JStr g) ]
  end.

(** From [st] to [st'] the promise kept its state, or settled for the
    first time. *)
Definition evolves (st st' : state) : Prop :=
  promise st' = promise st
  \/ (promise st = Pending /\ settled_by_flow (promise st')).

End Spec.

(* ===================================================================== *)
(** ** Invariants of the flow and of the client *)
(* ===================================================================== *)

Module FlowInvariants.
Import JS Fs OAuthServer Spec.

(** The timer [startAuthFlow] arms. *)
Definition timeout_timer (t0 : Z) : timer :=
  mkTimer 1 (t0 + AUTH_TIMEOUT_MS) AuthTimeout.

(** A timer of a flow started at [t0]: the timeout timer, or a shutdown
    timer armed no later than [bound]. *)
Definition timer_ok (t0 bound : Z) (t : timer) : Prop :=
  t = timeout_timer t0
  \/ (timer_id t <> 1%nat /\ action t = Shutdown /\ due t <= bound + GRACE_MS).

(** What every state of a flow started at [t0] satisfies: [timeoutId] names
    the timeout timer; the armed timers are the timeout timer and shutdown
    timers, none of them overdue; the timeout timer is armed while the
    promise is pending; once the promise has settled the listener is down
    or a shutdown timer is armed. *)
Definition sound (t0 : Z) (st : state) : Prop :=
  timeoutId st = Some 1%nat
  /\ (2 <= next_timer st)%nat
  /\ Forall (timer_ok t0 (clock st)) (timers st)
  /\ Forall (fun t => clock st < due t) (timers st)
  /\ (promise st = Pending -> In (timeout_timer t0) (timers st))
  /\ (promise st <> Pending ->
      server st = false \/ exists t, In t (timers st) /\ timer_id t <> 1%nat).

(** The same without the clause on overdue timers, which does not hold
    while the timers of one turn are firing. *)
Definition sound_firing (t0 bound : Z) (st : state) : Prop :=
  timeoutId st = Some 1%nat
  /\ (2 <= next_timer st)%nat
  /\ Forall (timer_ok t0 bound) (timers st)
  /\ (promise st = Pending -> In (timeout_timer t0) (timers st))
  /\ (promise st <> Pending ->
      server st = false \/ exists t, In t (timers st) /\ timer_id t <> 1%nat).

(** An input that is not the answer of an exchange that succeeded. *)
Definition no_session (i : input) : Prop :=
  match i with
  | SessionResult _ (Ok _) => False
  | _ => True
  end.


(** An input that is not a call of [stop()]. *)
Definition no_stop (i : input) : Prop :=
  match i with
  | Stop => False
  | Advance _ | Request _ | SessionResult _ _ => True
  end.

(** While the promise is pending the listener is up and the timeout timer
    is the only timer. *)
Definition listening (t0 : Z) (st : state) : Prop :=
  timeoutId st = Some 1%nat
  /\ (promise st = Pending ->
      server st = true /\ timers st = [timeout_timer t0]).

End FlowInvariants.

Module ClientSpec.
Import JS Fs KiteClient Spec.

(** A call on [kiteConnect] that is an API request. *)
Definition is_request (k : kite_call) : Prop :=
  match k with
  | request _ _ _ => True
  | setAccessToken _ => False
  end.

(** The methods of [KiteClient] that no tool calls. *)
Definition not_exposed (op : operation) : Prop :=
  op = getOrderHistory \/ op = getOHLC \/ op = modifyOrder.

(** The requests of a client are those a tool makes: none of the methods
    that are not exposed, and orders of the variety "regular". *)
Definition tool_request (k : kite_call) : Prop :=
  match k with
  | setAccessToken _ => True
  | request _ op args =>
      ~ not_exposed op
      /\ (op = placeOrder \/ op = cancelOrder ->
          exists rest, args = JStr "regular" :: rest)
  end.

Section WithPlatform.
Context `{Platform}.

(** The answer of [isTokenValid] on a disk. *)
Definition valid_on (now : Z) (d : disk) : bool :=
  match stored d with
  | Some (JObj fields) => valid_at now fields
  | _ => false
  end.

End WithPlatform.
End ClientSpec.

(* ===================================================================== *)
(** ** Concrete inputs *)
(* ===================================================================== *)

Module Examples.
Import JS Fs OAuthServer.

(** 2026-11-02T10:00:00.000Z *)
Definition NOW : Z := 1793613600000.

Definition empty_disk : disk := mkDisk true None None None None None.

Definition disk_with (text : string) : disk :=
  mkDisk true (Some text) None None None None.

Definition read_only_disk : disk :=
  mkDisk true None None (Some "EACCES: permission denied") None None.

Definition jane : object :=
  [ ("access_token", JStr "tok-123");
    ("refresh_token", JStr "ref-456");
    ("user_id", JStr "AB1234");
    ("user_name", JStr "Jane") ].

(** A record saved at [NOW]. *)
Definition jane_saved : object :=
  [ ("access_token", JStr "tok-123");
    ("refresh_token", JStr "ref-456");
    ("user_id", JStr "AB1234");
    ("user_name", JStr "Jane");
    ("generated_at", JStr "2026-11-02T10:00:00.000Z") ].

(** A record whose creation timestamp is no timestamp, with an expiry in
    2099. *)
Definition odd_record : object :=
  [ ("access_token", JStr "tok-123");
    ("user_id", JStr "AB1234");
    ("generated_at", JStr "not a timestamp");
    ("expires_at", JStr "2099-01-01T00:00:00.000Z") ].

(** A record with no user. *)
Definition anonymous : object :=
  [ ("access_token", JStr "tok-123");
    ("user_id", JStr "");
    ("generated_at", JStr "2026-11-02T10:00:00.000Z") ].

Definition file_of (record : object) : string :=
  Reference.stringify "" (JObj record).

Definition cfg : Config := mkConfig "key" "secret" 50000.

Definition callback (params : list (string * string)) : URL :=
  mkURL CALLBACK_PATH params.

Definition success_url : URL :=
  callback [("request_token", "abc"); ("action", "login"); ("status", "success")].

Definition denied_url : URL :=
  callback [("status", "failure"); ("error_type", "access_denied")].

Definition other_url : URL := mkURL "/favicon.ico" [].

Definition session_fields : object :=
  [ ("user_id", JStr "AB1234");
    ("user_name", JStr "Jane");
    ("access_token", JStr "tok-123");
    ("refresh_token", JStr "ref-456");
    ("login_time", JStr "2026-11-02 15:30:00") ].

(** The record built two seconds after [NOW] from [session_fields]. *)
Definition jane_exchanged : object :=
  [ ("access_token", JStr "tok-123");
    ("refresh_token", JStr "ref-456");
    ("user_id", JStr "AB1234");
    ("user_name", JStr "Jane");
    ("generated_at", JStr "2026-11-02T10:00:02.000Z") ].

Definition session : jsval := JObj session_fields.

(** A flow started at [NOW] on the disk [d], and its runs on the reference
    platform. *)
Definition flow (d : disk) : state := startAuthFlow cfg NOW d.

Definition go : list input -> state -> state := run (H := Reference.platform).

End Examples.

Module MoreExamples.
Import JS Fs KiteClient McpServer Examples.

(** A client constructed at [NOW] on a disk that holds the record
    [jane_saved], one second later, waiting for the answer to
    [getProfile]. *)
Definition waiting_client : client :=
  mkClient true
    [setAccessToken (JStr "tok-123"); request 0 getProfile []]
    [(0%nat, getProfile)] 1 (disk_with (file_of jane_saved)).

(** What the Kite API answers to a token it no longer accepts. *)
Definition forbidden : rejection :=
  Value (JObj [ ("status", JNum 403%float);
                ("message", JStr "Incorrect api_key or access_token.");
                ("error_type", JStr "TokenException") ]).

Definition ready_client : client :=
  mkClient true [setAccessToken (JStr "tok-123")] [] 0
           (disk_with (file_of jane_saved)).

Definition order : jsval :=
  JObj [ ("exchange", JStr "NSE"); ("tradingsymbol", JStr "INFY");
         ("transaction_type", JStr "BUY"); ("order_type", JStr "MARKET");
         ("quantity", JNum 1%float); ("product", JStr "CNC") ].

End MoreExamples.

(* ===================================================================== *)
(** ** Properties of the token store *)
(* ===================================================================== *)

Module TokenStoreProps.
Import JS Fs TokenManager Spec.

Lemma Qlt_bool_iff (x y : Q) : Qlt_bool x y = true <-> (x < y)%Q.
Proof.
  unfold Qlt_bool. rewrite negb_true_iff. split.
  - intros Hb. apply Qnot_le_lt. intros Hle.
    apply Qle_bool_iff in Hle. congruence.
  - intros Hlt. destruct (Qle_bool y x) eqn:E; [|reflexivity].
    apply Qle_bool_iff in E. exfalso. exact (Qlt_not_le _ _ Hlt E).
Qed.

(** The hours computed by [validateTokenExpiry] are below 5 exactly when
    the milliseconds are below the freshness window. *)
Lemma diffHours_fresh (now : Z) (generatedAt : option Z) :
  num_lt (num_div (num_sub (getTime (Some now)) (getTime generatedAt))
                  (Some (inject_Z MS_PER_HOUR)))
         (Some (inject_Z 5))
  = fresh generatedAt now.
Proof.
  destruct generatedAt as [g|]; [|reflexivity].
  cbn [getTime option_map num_sub num_div fresh].
  change (Qeq_bool (inject_Z MS_PER_HOUR) 0) with false. cbn [num_lt].
  apply eq_true_iff_eq. rewrite Qlt_bool_iff, Z.ltb_lt.
  unfold MS_PER_HOUR, FRESHNESS_WINDOW.
  unfold Qlt, Qdiv, Qminus, Qplus, Qopp, Qmult, Qinv, inject_Z. simpl. lia.
Qed.

Lemma now_before (now : Z) (expiresAt : option Z) :
  num_lt (getTime (Some now)) (getTime expiresAt) = before now expiresAt.
Proof.
  destruct expiresAt as [e|]; [|reflexivity].
  cbn. apply eq_true_iff_eq. rewrite Qlt_bool_iff, Z.ltb_lt.
  unfold Qlt. simpl. lia.
Qed.

Section WithPlatform.
Context `{Platform}.

Lemma loadToken_stored (d : disk) : loadToken d = (d, Ok (stored d)).
Proof.
  unfold loadToken, stored, try_catch, bind, existsSync_file, has_file,
    readFileSync, JSON_parse_or_throw, ret, throw, lift.
  destruct d as [dir [text|] [re|] we me ue]; cbn; try reflexivity.
  destruct (JSON_parse text) as [[| |b|f|s|items|fields]|]; cbn; try reflexivity.
  destruct (truthy (field "access_token" fields)); cbn; [|reflexivity].
  destruct (truthy (field "user_id" fields)); cbn; [|reflexivity].
  destruct (truthy (field "generated_at" fields)); reflexivity.
Qed.

Lemma stored_is_object (d : disk) (record : jsval) :
  stored d = Some record ->
  exists fields, record = JObj fields
    /\ truthy (field "access_token" fields) = true
    /\ truthy (field "user_id" fields) = true
    /\ truthy (field "generated_at" fields) = true.
Proof.
  unfold stored.
  destruct (token_file d) as [text|]; [|discriminate].
  destruct (read_error d); [discriminate|].
  destruct (JSON_parse text) as [[| |b|f|s|items|fields]|]; try discriminate.
  destruct (truthy (field "access_token" fields)) eqn:Ea; [|discriminate].
  destruct (truthy (field "user_id" fields)) eqn:Eu; [|discriminate].
  destruct (truthy (field "generated_at" fields)) eqn:Eg; [|discriminate].
  intros [= <-]. exists fields. auto.
Qed.

Lemma validateTokenExpiry_object (now : Z) (fields : object) :
  validateTokenExpiry now (JObj fields) = Ok (valid_at now fields).
Proof.
  unfold validateTokenExpiry, valid_at. cbn [get_prop JS.bind].
  destruct (truthy (field "expires_at" fields)).
  - now rewrite now_before.
  - now rewrite diffHours_fresh.
Qed.

Lemma isTokenValid_stored (now : Z) (d : disk) :
  isTokenValid now d
  = (d, Ok match stored d with
           | Some (JObj fields) => valid_at now fields
           | _ => false
           end).
Proof.
  unfold isTokenValid, bind. rewrite loadToken_stored.
  destruct (stored d) as [record|] eqn:E; [|reflexivity].
  destruct (stored_is_object _ _ E) as (fields & -> & _).
  unfold lift. now rewrite validateTokenExpiry_object.
Qed.

Lemma truthy_non_empty (v : jsval) :
  string_or_missing v -> (truthy v = true <-> non_empty v).
Proof.
  intros [->|[->|[s ->]]]; cbn; split; try discriminate.
  - intros (s & E & _). discriminate.
  - intros (s & E & _). discriminate.
  - rewrite negb_true_iff, String.eqb_neq. intros Hs. now exists s.
  - intros (s' & [= <-] & Hs). now rewrite negb_true_iff, String.eqb_neq.
Qed.

Lemma missing_or_empty_falsy (v : jsval) :
  missing_or_empty v -> truthy v = false.
Proof. intros [->|[->| ->]]; reflexivity. Qed.

Lemma valid_at_unexpired (now : Z) (record : object) :
  valid_at now record = true <-> unexpired now record.
Proof.
  unfold valid_at, unexpired, before, fresh.
  destruct (truthy (field "expires_at" record)).
  - destruct (Date_new (field "expires_at" record)) as [t|].
    + rewrite Z.ltb_lt. split; [intros Hlt; now exists t|].
      now intros (t' & [= <-] & Hlt).
    + split; [discriminate|]. now intros (t' & [=] & _).
  - destruct (Date_new (field "generated_at" record)) as [t|].
    + rewrite Z.ltb_lt. split; [intros Hlt; now exists t|].
      now intros (t' & [= <-] & Hlt).
    + split; [discriminate|]. now intros (t' & [=] & _).
Qed.

Lemma field_set_field_same (k : string) (v : jsval) (o : object) :
  field k (set_field k v o) = v.
Proof.
  unfold field. induction o as [|[k' v'] rest IH]; cbn.
  - now rewrite String.eqb_refl.
  - destruct (String.eqb k k') eqn:E; cbn.
    + now rewrite String.eqb_refl.
    + now rewrite E.
Qed.

Lemma field_set_field_other (k k' : string) (v : jsval) (o : object) :
  k <> k' -> field k' (set_field k v o) = field k' o.
Proof.
  intros Hne. unfold field. induction o as [|[k0 v0] rest IH]; cbn.
  - apply String.eqb_neq in Hne. rewrite String.eqb_sym in Hne. now rewrite Hne.
  - destruct (String.eqb k k0) eqn:E; cbn.
    + apply String.eqb_eq in E. subst k0.
      apply String.eqb_neq in Hne. rewrite String.eqb_sym in Hne. now rewrite Hne.
    + destruct (String.eqb k' k0); [reflexivity|exact IH].
Qed.

Lemma non_empty_truthy (v : jsval) : non_empty v -> truthy v = true.
Proof.
  intros (s & -> & Hs). cbn. now rewrite negb_true_iff, String.eqb_neq.
Qed.

(** What [saveToken] leaves on the disk when it returns. *)
Lemma saveToken_returns (now : Z) (tokenData : object) (d d' : disk) :
  saveToken now tokenData d = (d', Ok tt) ->
  token_file d' = Some (JSON_stringify (JObj (completeTokenData now tokenData)))
  /\ read_error d' = read_error d
  /\ write_error d = None.
Proof.
  unfold saveToken, try_catch, bind, existsSync_dir, mkdirSync, writeFileSync,
    ret, throw.
  destruct d as [[|] file re [we|] [me|] ue]; cbn; try discriminate;
    intros [= <-]; cbn; auto.
Qed.

(** [saveToken] returns on a disk that takes the write. *)
Lemma saveToken_writable (now : Z) (tokenData : object) (d : disk) :
  write_error d = None -> mkdir_error d = None ->
  exists d', saveToken now tokenData d = (d', Ok tt).
Proof.
  unfold saveToken, try_catch, bind, existsSync_dir, mkdirSync, writeFileSync,
    ret, throw.
  destruct d as [[|] file re we me ue]; cbn; intros -> ->; cbn; eauto.
Qed.

(** C1. The validity check never throws; with no loadable record it
    answers false; with one, it answers true exactly when the record is
    unexpired: the current time strictly before [expires_at] when the
    record carries one, the time since [generated_at] strictly less than
    5 hours otherwise. *)
Theorem isTokenValid_iff_unexpired (now : Z) (d : disk) :
  exists loaded valid,
    loadToken d = (d, Ok loaded)
    /\ isTokenValid now d = (d, Ok valid)
    /\ match loaded with
       | None => valid = false
       | Some record =>
           exists fields,
             record = JObj fields
             /\ validateTokenExpiry now record = Ok valid
             /\ (valid = true <-> unexpired now fields)
       end.
Proof.
  exists (stored d).
  exists (match stored d with
          | Some (JObj fields) => valid_at now fields
          | _ => false
          end).
  split; [apply loadToken_stored|]. split; [apply isTokenValid_stored|].
  destruct (stored d) as [record|] eqn:E; [|reflexivity].
  destruct (stored_is_object _ _ E) as (fields & -> & _).
  exists fields. split; [reflexivity|]. split.
  - apply validateTokenExpiry_object.
  - apply valid_at_unexpired.
Qed.

(** C5. [loadToken] never throws and leaves the disk as it was.  It
    returns [null] for a missing file, an unreadable one, contents that do
    not parse, contents that parse to something else than an object, and a
    record one of whose required fields is missing or empty; it returns
    the parsed record exactly when the three required fields pass the test
    of the source, which for fields typed as strings is: each is
    non-empty. *)
Theorem loadToken_total (d : disk) :
  exists loaded,
    loadToken d = (d, Ok loaded)
    /\ (token_file d = None -> loaded = None)
    /\ (read_error d <> None -> loaded = None)
    /\ (forall text,
          token_file d = Some text -> JSON_parse text = None -> loaded = None)
    /\ (forall text v,
          token_file d = Some text -> JSON_parse text = Some v ->
          (forall fields, v <> JObj fields) -> loaded = None)
    /\ (forall text fields,
          token_file d = Some text -> read_error d = None ->
          JSON_parse text = Some (JObj fields) ->
          let a := field "access_token" fields in
          let u := field "user_id" fields in
          let g := field "generated_at" fields in
          (missing_or_empty a \/ missing_or_empty u \/ missing_or_empty g ->
           loaded = None)
          /\ (string_or_missing a -> string_or_missing u -> string_or_missing g ->
              (loaded = Some (JObj fields)
               <-> non_empty a /\ non_empty u /\ non_empty g))
          /\ (loaded = Some (JObj fields)
              <-> truthy a && truthy u && truthy g = true)
          /\ (loaded = None \/ loaded = Some (JObj fields))).
Proof.
  exists (stored d). split; [apply loadToken_stored|].
  unfold stored. split; [|split; [|split; [|split]]].
  - now intros ->.
  - destruct (token_file d); [|reflexivity].
    destruct (read_error d); [reflexivity|]. now intros [].
  - intros text -> ->. now destruct (read_error d).
  - intros text v -> -> Hv. destruct (read_error d); [reflexivity|].
    destruct v; try reflexivity. now destruct (Hv fields).
  - intros text fields Hfile Hread Hparse. cbv zeta.
    rewrite Hfile, Hread, Hparse.
    set (a := field "access_token" fields).
    set (u := field "user_id" fields).
    set (g := field "generated_at" fields).
    split; [|split; [|split]].
    + intros [Hm|[Hm|Hm]]; apply missing_or_empty_falsy in Hm;
        rewrite Hm; cbn; rewrite ?andb_false_r; reflexivity.
    + intros Ta Tu Tg. split.
      * intros Hl.
        destruct (truthy a && truthy u && truthy g) eqn:E; [|discriminate].
        apply andb_true_iff in E as [E Eg]. apply andb_true_iff in E as [Ea Eu].
        repeat split; now apply truthy_non_empty.
      * intros (Ha & Hu & Hg).
        now rewrite (non_empty_truthy _ Ha), (non_empty_truthy _ Hu),
          (non_empty_truthy _ Hg).
    + destruct (truthy a && truthy u && truthy g); split;
        try reflexivity; discriminate.
    + destruct (truthy a && truthy u && truthy g); auto.
Qed.

Lemma same_fields_at (k : string) (a b : object) :
  same_fields a b -> In k token_fields -> field k a = field k b.
Proof.
  unfold same_fields. rewrite Forall_forall. intros Hall Hk. now apply Hall.
Qed.

Lemma completeTokenData_other (now : Z) (tokenData : object) (k : string) :
  k <> "generated_at" ->
  field k (completeTokenData now tokenData) = field k tokenData.
Proof.
  intros Hk. unfold completeTokenData. apply field_set_field_other. congruence.
Qed.

Lemma completeTokenData_generated_at (now : Z) (tokenData : object) :
  field "generated_at" (completeTokenData now tokenData)
  = or_else (field "generated_at" tokenData) (JStr (Date_toISOString now)).
Proof. unfold completeTokenData. apply field_set_field_same. Qed.

(** What [loadToken] finds after [saveToken] returned, given the object the
    platform parses from the text it printed. *)
Lemma saved_record_loads (now : Z) (tokenData loaded : object) (d d' : disk) :
  non_empty (field "access_token" tokenData) ->
  non_empty (field "user_id" tokenData) ->
  Date_toISOString now <> "" ->
  JSON_parse (JSON_stringify (JObj (completeTokenData now tokenData)))
  = Some (JObj loaded) ->
  same_fields loaded (completeTokenData now tokenData) ->
  read_error d = None ->
  saveToken now tokenData d = (d', Ok tt) ->
  loadToken d' = (d', Ok (Some (JObj loaded))).
Proof.
  intros Ha Hu Hiso Hparse Hsame Hread Hsave.
  destruct (saveToken_returns _ _ _ _ Hsave) as (Hfile & Hread' & _).
  rewrite loadToken_stored. unfold stored.
  rewrite Hfile, Hread', Hread, Hparse.
  rewrite !(same_fields_at _ _ _ Hsame) by (cbn; tauto).
  rewrite !completeTokenData_other by discriminate.
  rewrite completeTokenData_generated_at.
  rewrite (non_empty_truthy _ Ha), (non_empty_truthy _ Hu). cbn [andb].
  unfold or_else.
  destruct (truthy (field "generated_at" tokenData)) eqn:E.
  - now rewrite E.
  - cbn. apply String.eqb_neq in Hiso. now rewrite Hiso.
Qed.

(** C6. A record with non-empty required fields, saved and loaded again,
    comes back with the six fields it was saved with, [generated_at] being
    the current time when the input had none.  The platform's JSON is
    taken to give back the fields it printed, and the file to be
    readable. *)
Theorem save_then_load (now : Z) (tokenData : object) (d d' : disk) :
  non_empty (field "access_token" tokenData) ->
  non_empty (field "user_id" tokenData) ->
  Date_toISOString now <> "" ->
  round_trips (completeTokenData now tokenData) ->
  read_error d = None ->
  saveToken now tokenData d = (d', Ok tt) ->
  exists loaded,
    loadToken d' = (d', Ok (Some (JObj loaded)))
    /\ field "access_token" loaded = field "access_token" tokenData
    /\ field "refresh_token" loaded = field "refresh_token" tokenData
    /\ field "user_id" loaded = field "user_id" tokenData
    /\ field "user_name" loaded = field "user_name" tokenData
    /\ field "expires_at" loaded = field "expires_at" tokenData
    /\ (non_empty (field "generated_at" tokenData) ->
        field "generated_at" loaded = field "generated_at" tokenData)
    /\ (field "generated_at" tokenData = JUndefined ->
        field "generated_at" loaded = JStr (Date_toISOString now)).
Proof.
  intros Ha Hu Hiso (loaded & Hparse & Hsame) Hread Hsave.
  assert (Hat : forall k, In k token_fields -> k <> "generated_at" ->
                          field k loaded = field k tokenData).
  { intros k Hin Hk. rewrite (same_fields_at k _ _ Hsame Hin).
    now apply completeTokenData_other. }
  assert (Hg : field "generated_at" loaded
               = or_else (field "generated_at" tokenData)
                         (JStr (Date_toISOString now))).
  { rewrite (same_fields_at "generated_at" _ _ Hsame) by (cbn; tauto).
    apply completeTokenData_generated_at. }
  exists loaded. split.
  - now apply (saved_record_loads now tokenData loaded d d').
  - repeat split; try (apply Hat; (cbn; tauto) || discriminate).
    + intros Hne. rewrite Hg. unfold or_else.
      now rewrite (non_empty_truthy _ Hne).
    + intros Hund. rewrite Hg, Hund. reflexivity.
Qed.

(** [clearToken] in closed form. *)
Lemma clearToken_cases (d : disk) :
  clearToken d
  = match token_file d, unlink_error d with
    | None, _ => (d, Ok tt)
    | Some _, None => (with_file None d, Ok tt)
    | Some _, Some m => (d, Throw (ErrorObj ("Failed to clear token: " ++ m)))
    end.
Proof.
  unfold clearToken, try_catch, bind, existsSync_file, has_file, unlinkSync,
    ret, throw.
  destruct d as [dir [text|] re we me [ue|]]; reflexivity.
Qed.

(** C7. [clearToken] does nothing and does not throw when there is no
    file; it removes the file when there is one and the file system lets
    it; whenever it returns the file is gone and [loadToken] finds
    nothing; and a second call always leaves the disk the first call left,
    with the same outcome. *)
Theorem clearToken_idempotent (d : disk) :
  (token_file d = None -> clearToken d = (d, Ok tt))
  /\ (token_file d <> None -> unlink_error d = None ->
      clearToken d = (with_file None d, Ok tt))
  /\ (forall d',
        clearToken d = (d', Ok tt) ->
        token_file d' = None /\ loadToken d' = (d', Ok None))
  /\ (forall d' r, clearToken d = (d', r) -> clearToken d' = (d', r)).
Proof.
  rewrite clearToken_cases. split; [|split; [|split]].
  - now intros ->.
  - intros Hfile ->. now destruct (token_file d).
  - intros d' Hclear.
    assert (Hgone : token_file d' = None).
    { destruct (token_file d) eqn:Ef; [|congruence].
      destruct (unlink_error d); [discriminate|]. now injection Hclear as <-. }
    split; [exact Hgone|].
    rewrite loadToken_stored. unfold stored. now rewrite Hgone.
  - intros d' r Hclear. rewrite clearToken_cases.
    destruct (token_file d) eqn:Ef.
    + destruct (unlink_error d) eqn:Eu; injection Hclear as <- <-.
      * now rewrite Ef, Eu.
      * reflexivity.
    + injection Hclear as <- <-. now rewrite Ef.
Qed.

(** C9, as the code has it.  The validity check never throws, whatever the
    timestamps hold; and when the timestamp that decides (a non-empty
    [expires_at], [generated_at] otherwise) is not a valid date, it
    answers false. *)
Theorem isTokenValid_invalid_date (now : Z) (d : disk) :
  exists valid,
    isTokenValid now d = (d, Ok valid)
    /\ (forall fields,
          loadToken d = (d, Ok (Some (JObj fields))) ->
          Date_new (deciding_timestamp fields) = None ->
          valid = false)
    /\ (forall fields,
          loadToken d = (d, Ok (Some (JObj fields))) ->
          validateTokenExpiry now (JObj fields) = Ok valid).
Proof.
  eexists. split; [apply isTokenValid_stored|].
  split; intros fields; rewrite loadToken_stored; intros [= ->].
  - unfold valid_at, deciding_timestamp.
    destruct (truthy (field "expires_at" fields)); now intros ->.
  - now rewrite validateTokenExpiry_object.
Qed.

(** [getValidTokenData] hands out the stored record when, and only when,
    [isTokenValid] answers true; [getValidToken] hands out its access
    token then, and [null] otherwise. *)
Theorem getValidToken_only_when_valid (now : Z) (d : disk) :
  exists valid,
    isTokenValid now d = (d, Ok valid)
    /\ getValidTokenData now d
       = (d, Ok (if valid then stored d else None))
    /\ getValidToken now d
       = (d, Ok (if valid
                 then match stored d with
                      | Some (JObj fields) => or_else (field "access_token" fields) JNull
                      | _ => JNull
                      end
                 else JNull)).
Proof.
  eexists. split; [apply isTokenValid_stored|].
  unfold getValidTokenData, getValidToken, bind.
  rewrite isTokenValid_stored.
  destruct (stored d) as [record|] eqn:E; cbn [negb].
  - destruct (stored_is_object _ _ E) as (fields & -> & _).
    destruct (valid_at now fields); cbn [negb]; [|split; reflexivity].
    rewrite loadToken_stored, E. split; reflexivity.
  - split; reflexivity.
Qed.

End WithPlatform.

(** *** On the reference platform *)

Import Examples.

(** Five hours to the millisecond after [generated_at] the token is no
    longer valid; one millisecond earlier it still is. *)
Example freshness_boundary :
  let d := disk_with (file_of jane_saved) in
  isTokenValid (H := Reference.platform) (NOW + 5 * 3600000 - 1) d = (d, Ok true)
  /\ isTokenValid (H := Reference.platform) (NOW + 5 * 3600000) d = (d, Ok false).
Proof. vm_compute. split; reflexivity. Qed.

(** An empty file, and a record with an empty required field, load as
    nothing. *)
Example loadToken_degrades :
  loadToken (H := Reference.platform) (disk_with "") = (disk_with "", Ok None)
  /\ loadToken (H := Reference.platform) (disk_with (file_of anonymous))
     = (disk_with (file_of anonymous), Ok None).
Proof. vm_compute. split; reflexivity. Qed.

Lemma loadToken_total_witness :
  loadToken (H := Reference.platform) (disk_with (file_of jane_saved))
  = (disk_with (file_of jane_saved), Ok (Some (JObj jane_saved))).
Proof.
  destruct (loadToken_total (H := Reference.platform)
              (disk_with (file_of jane_saved)))
    as (loaded & Hload & _ & _ & _ & _ & Hobject).
  rewrite Hload. f_equal. f_equal.
  destruct (Hobject (file_of jane_saved) jane_saved) as (_ & Htyped & _);
    try reflexivity.
  apply Htyped.
  - right. right. now exists "tok-123".
  - right. right. now exists "AB1234".
  - right. right. now exists "2026-11-02T10:00:00.000Z".
  - repeat split; eexists; (split; [reflexivity|discriminate]).
Defined.

Lemma jane_round_trips :
  round_trips (H := Reference.platform)
    (completeTokenData (H := Reference.platform) NOW jane).
Proof.
  exists jane_saved. split; [vm_compute; reflexivity|].
  repeat constructor.
Qed.

Lemma save_then_load_witness :
  exists loaded,
    loadToken (H := Reference.platform) (disk_with (file_of jane_saved))
    = (disk_with (file_of jane_saved), Ok (Some (JObj loaded)))
    /\ field "access_token" loaded = JStr "tok-123"
    /\ field "refresh_token" loaded = JStr "ref-456"
    /\ field "user_id" loaded = JStr "AB1234"
    /\ field "user_name" loaded = JStr "Jane"
    /\ field "expires_at" loaded = JUndefined
    /\ field "generated_at" loaded = JStr "2026-11-02T10:00:00.000Z".
Proof.
  destruct (save_then_load (H := Reference.platform) NOW jane empty_disk
              (disk_with (file_of jane_saved)))
    as (loaded & Hload & Ha & Hr & Hu & Hn & He & _ & Hg).
  - exists "tok-123". split; [reflexivity|discriminate].
  - exists "AB1234". split; [reflexivity|discriminate].
  - vm_compute. discriminate.
  - exact jane_round_trips.
  - reflexivity.
  - vm_compute. reflexivity.
  - exists loaded. repeat split; try assumption.
    now rewrite Hg.
Defined.

Lemma clearToken_idempotent_witness :
  clearToken (disk_with (file_of jane_saved)) = (empty_disk, Ok tt)
  /\ clearToken empty_disk = (empty_disk, Ok tt)
  /\ loadToken (H := Reference.platform) empty_disk = (empty_disk, Ok None).
Proof.
  destruct (clearToken_idempotent (H := Reference.platform)
              (disk_with (file_of jane_saved)))
    as (_ & Hremove & Hgone & Htwice).
  assert (Hfirst : clearToken (disk_with (file_of jane_saved)) = (empty_disk, Ok tt)).
  { apply Hremove; [discriminate|reflexivity]. }
  split; [exact Hfirst|]. split.
  - exact (Htwice _ _ Hfirst).
  - exact (proj2 (Hgone _ Hfirst)).
Defined.

(** C9, as stated, fails: a stored record whose [generated_at] is no
    timestamp is valid all the same when its [expires_at] lies ahead. *)
Lemma unparsable_generated_at_still_valid :
  let d := disk_with (file_of odd_record) in
  loadToken (H := Reference.platform) d = (d, Ok (Some (JObj odd_record)))
  /\ Date_new (Platform := Reference.platform)
       (field "generated_at" odd_record) = None
  /\ isTokenValid (H := Reference.platform) NOW d = (d, Ok true).
Proof. vm_compute. repeat split; reflexivity. Qed.

Lemma isTokenValid_invalid_date_witness :
  let record :=
    [ ("access_token", JStr "tok-123"); ("user_id", JStr "AB1234");
      ("generated_at", JStr "yesterday") ] in
  isTokenValid (H := Reference.platform) NOW (disk_with (file_of record))
  = (disk_with (file_of record), Ok false).
Proof.
  intros record.
  destruct (isTokenValid_invalid_date (H := Reference.platform) NOW
              (disk_with (file_of record)))
    as (valid & Hvalid & Hfalse & _).
  rewrite Hvalid. f_equal. f_equal.
  apply (Hfalse record); vm_compute; reflexivity.
Defined.

End TokenStoreProps.

(* ===================================================================== *)
(** ** The reference platform keeps what the token store needs *)
(* ===================================================================== *)

Module ReferenceProps.
Import JS Fs TokenManager Spec TokenStoreProps Reference.

Lemma append_assoc (a b c : string) : (a ++ b) ++ c = a ++ (b ++ c).
Proof. induction a as [|x a IH]; cbn; [reflexivity|now rewrite IH]. Qed.

Lemma parse_chars_escape_byte (c : ascii) (tail s rest : string) :
  parse_chars tail = Some (s, rest) ->
  parse_chars (escape_byte c ++ tail) = Some (String c s, rest).
Proof.
  intros Htail.
  destruct c as [[] [] [] [] [] [] [] []]; cbn; rewrite Htail; reflexivity.
Qed.

Lemma parse_chars_escape (s rest : string) :
  parse_chars (escape s ++ String QUOTE rest) = Some (s, rest).
Proof.
  induction s as [|c s IH]; [reflexivity|].
  cbn [escape]. rewrite append_assoc. now apply parse_chars_escape_byte.
Qed.

Lemma quote_append (s rest : string) :
  quote s ++ rest = String QUOTE (escape s ++ String QUOTE rest).
Proof. unfold quote. cbn. now rewrite append_assoc. Qed.

Lemma parse_value_string (fuel : nat) (s rest : string) :
  parse_value (S fuel) (quote s ++ rest) = Some (JStr s, rest).
Proof.
  rewrite quote_append. cbn. now rewrite parse_chars_escape.
Qed.

Lemma parse_members_rendered (fuel n : nat) (ms : list (string * string))
  (m : string * string) (acc : object) (rest : string) :
  (length ms < n)%nat ->
  parse_members (parse_value (S fuel)) n acc
    (NEWLINE ++ "  " ++ join SEP (map render (m :: ms)) ++ NEWLINE ++ "}" ++ rest)
  = Some (JObj (fold_left put (m :: ms) acc), rest).
Proof.
  revert n m acc. induction ms as [|m' ms IH]; intros n m acc Hn.
  - destruct n as [|n]; [cbn in Hn; lia|].
    cbn [map join fold_left]. unfold render at 1.
    rewrite !append_assoc, !quote_append.
    cbn. rewrite parse_chars_escape. cbn. rewrite parse_chars_escape. cbn.
    reflexivity.
  - destruct n as [|n]; [cbn in Hn; lia|].
    cbn [map fold_left].
    change (join SEP (render m :: render m' :: map render ms))
      with (render m ++ SEP ++ join SEP (map render (m' :: ms))).
    unfold render at 1.
    rewrite !append_assoc, !quote_append.
    cbn. rewrite parse_chars_escape. cbn. rewrite parse_chars_escape. cbn.
    specialize (IH n m' (put acc m)).
    cbn in IH. rewrite <- IH by (cbn in Hn; lia).
    reflexivity.
Qed.

Lemma length_append (a b : string) :
  String.length (a ++ b) = (String.length a + String.length b)%nat.
Proof. induction a as [|x a IH]; cbn; [reflexivity|now rewrite IH]. Qed.

Lemma length_join_rendered (ms : list (string * string)) :
  (List.length ms <= String.length (join SEP (map render ms)))%nat.
Proof.
  induction ms as [|m ms IH]; [cbn; lia|].
  destruct ms as [|m' ms].
  - cbn [map join]. unfold render. rewrite quote_append. cbn. lia.
  - change (join SEP (map render (m :: m' :: ms)))
      with (render m ++ SEP ++ join SEP (map render (m' :: ms))).
    remember (join SEP (map render (m' :: ms))) as j.
    rewrite !length_append. change (String.length SEP) with 4%nat.
    cbn [List.length] in *. lia.
Qed.

Lemma members_of_typed (record : object) :
  typed record ->
  members_of (stringify "  ") record = map render (strings_of record).
Proof.
  induction 1 as [|[k v] rest Hv _ IH]; [reflexivity|].
  cbn in Hv. destruct Hv as [->|[s ->]]; cbn [members_of strings_of map].
  - exact IH.
  - now rewrite IH.
Qed.

Lemma stringify_typed (record : object) :
  typed record ->
  stringify "" (JObj record)
  = match strings_of record with
    | [] => "{}"
    | ms => "{" ++ NEWLINE ++ "  " ++ join SEP (map render ms) ++ NEWLINE ++ "}"
    end.
Proof.
  intros Htyped. cbn [stringify append]. rewrite (members_of_typed _ Htyped).
  now destruct (strings_of record).
Qed.

Lemma join_rendered_head (m : string * string) (ms : list (string * string)) :
  exists t, join SEP (map render (m :: ms)) = String QUOTE t.
Proof.
  destruct ms as [|m' ms].
  - cbn [map join]. unfold render. rewrite quote_append. eauto.
  - change (join SEP (map render (m :: m' :: ms)))
      with (render m ++ SEP ++ join SEP (map render (m' :: ms))).
    unfold render at 1. rewrite !append_assoc, quote_append. eauto.
Qed.

Lemma parse_stringify_typed (record : object) :
  typed record ->
  parse (stringify "" (JObj record))
  = Some (JObj (fold_left put (strings_of record) [])).
Proof.
  intros Htyped. rewrite (stringify_typed _ Htyped).
  destruct (strings_of record) as [|m ms]; [reflexivity|].
  unfold parse.
  remember (String.length
              ("{" ++ NEWLINE ++ "  " ++ join SEP (map render (m :: ms))
                   ++ NEWLINE ++ "}")) as n eqn:Hn.
  assert (Hlen : (S (S (List.length ms)) < n)%nat).
  { subst n. pose proof (length_join_rendered (m :: ms)) as Hj.
    rewrite !length_append. cbn [List.length String.length NEWLINE] in *. lia. }
  destruct n as [|[|fuel]]; try lia.
  pose proof (parse_members_rendered (S fuel) (S (S fuel)) ms m [] "") as Hm.
  destruct (join_rendered_head m ms) as [t Ht].
  rewrite Ht in Hm |- *. cbn in Hm |- *.
  rewrite Hm by lia. reflexivity.
Qed.

Lemma field_put (k : string) (acc : object) (m : string * string) :
  field k (put acc m)
  = if String.eqb (fst m) k then JStr (snd m) else field k acc.
Proof.
  unfold put. destruct (String.eqb_spec (fst m) k) as [<-|Hne].
  - apply field_set_field_same.
  - now apply field_set_field_other.
Qed.

Lemma field_outside (k : string) (record : object) :
  ~ In k (map fst record) -> field k record = JUndefined.
Proof.
  unfold field. induction record as [|[k' v] rest IH]; cbn; [reflexivity|].
  intros Hout. destruct (String.eqb_spec k k') as [->|Hne]; [tauto|].
  apply IH. tauto.
Qed.

Lemma field_inside (k : string) (v : jsval) (record : object) :
  NoDup (map fst record) -> In (k, v) record -> field k record = v.
Proof.
  unfold field. induction record as [|[k' v'] rest IH]; cbn; [tauto|].
  intros Hnd [[= -> ->]|Hin].
  - now rewrite String.eqb_refl.
  - inversion Hnd as [|? ? Hout Hnd']; subst.
    destruct (String.eqb_spec k k') as [->|Hne].
    + destruct Hout. now apply (in_map fst _ (k', v)).
    + now apply IH.
Qed.

Lemma strings_of_in (k s : string) (record : object) :
  In (k, s) (strings_of record) <-> In (k, JStr s) record.
Proof.
  induction record as [|[k' v] rest IH]; cbn; [tauto|].
  destruct v; cbn; rewrite IH; split; intros Hx;
    try (destruct Hx as [Hx|Hx]); try discriminate; auto;
    injection Hx as -> ->; auto.
Qed.

Lemma field_fold_put_outside (k : string) (ms : list (string * string)) (acc : object) :
  ~ In k (map fst ms) -> field k (fold_left put ms acc) = field k acc.
Proof.
  revert acc. induction ms as [|m ms IH]; intros acc Hout; cbn; [reflexivity|].
  cbn in Hout. rewrite IH by tauto. rewrite field_put.
  destruct (String.eqb_spec (fst m) k); [tauto|reflexivity].
Qed.

Lemma field_fold_put_inside (k s : string) (ms : list (string * string)) (acc : object) :
  NoDup (map fst ms) -> In (k, s) ms ->
  field k (fold_left put ms acc) = JStr s.
Proof.
  revert acc. induction ms as [|m ms IH]; intros acc Hnd Hin; [inversion Hin|].
  cbn [fold_left]. inversion Hnd as [|? ? Hout Hnd']; subst.
  destruct Hin as [->|Hin].
  - rewrite field_fold_put_outside by exact Hout.
    rewrite field_put. cbn. now rewrite String.eqb_refl.
  - now apply IH.
Qed.

Lemma strings_of_keys (k : string) (record : object) :
  In k (map fst (strings_of record)) -> In k (map fst record).
Proof.
  induction record as [|[k' v] rest IH]; cbn; [tauto|].
  destruct v; cbn; tauto.
Qed.

Lemma strings_of_NoDup (record : object) :
  NoDup (map fst record) -> NoDup (map fst (strings_of record)).
Proof.
  induction record as [|[k v] rest IH]; cbn; [constructor|].
  intros Hnd. inversion Hnd as [|? ? Hout Hnd']; subst.
  destruct v; cbn; auto.
  constructor; [|auto]. intros Hin. apply Hout. now apply strings_of_keys.
Qed.

Lemma field_parsed (k : string) (record : object) :
  typed record -> NoDup (map fst record) ->
  field k (fold_left put (strings_of record) []) = field k record.
Proof.
  intros Htyped Hnd.
  destruct (in_dec string_dec k (map fst record)) as [Hin|Hout].
  - apply in_map_iff in Hin as ([k' v] & Hk & Hin). cbn in Hk. subst k'.
    rewrite (field_inside k v record Hnd Hin).
    unfold typed in Htyped. rewrite Forall_forall in Htyped.
    destruct (Htyped _ Hin) as [Hv|[s Hv]]; cbn in Hv; subst v.
    + apply field_fold_put_outside with (acc := []). intros Hks.
      apply in_map_iff in Hks as ([k' s] & Hk & Hks). cbn in Hk. subst k'.
      apply strings_of_in in Hks.
      pose proof (field_inside k _ record Hnd Hks) as E1.
      rewrite (field_inside k _ record Hnd Hin) in E1. discriminate.
    + apply field_fold_put_inside; [now apply strings_of_NoDup|].
      now apply strings_of_in.
  - rewrite (field_outside k record Hout).
    apply field_fold_put_outside with (acc := []). intros Hks. apply Hout.
    now apply strings_of_keys.
Qed.

(** On the reference platform every record of strings with distinct keys
    is read back as it was printed. *)
Lemma reference_round_trips (record : object) :
  typed record -> NoDup (map fst record) ->
  round_trips (H := platform) record.
Proof.
  intros Htyped Hnd. exists (fold_left put (strings_of record) []). split.
  - now apply parse_stringify_typed.
  - unfold same_fields. rewrite Forall_forall. intros k _.
    now apply field_parsed.
Qed.

Lemma toISOString_not_empty (t : Z) : toISOString t <> "".
Proof.
  unfold toISOString. destruct (civil_from_days (t / MS_PER_DAY)) as [[y m] d].
  cbn [digits]. intros E.
  apply (f_equal String.length) in E. rewrite !length_append in E.
  cbn in E. lia.
Qed.

Lemma typed_field (k : string) (record : object) :
  typed record ->
  field k record = JUndefined \/ exists s, field k record = JStr s.
Proof.
  unfold field. induction 1 as [|[k' v] rest Hv _ IH]; cbn; [now left|].
  destruct (String.eqb k k'); [exact Hv|exact IH].
Qed.

Lemma typed_set_field (k : string) (v : jsval) (record : object) :
  typed record -> (v = JUndefined \/ exists s, v = JStr s) ->
  typed (set_field k v record).
Proof.
  intros Htyped Hv. unfold typed in *.
  induction Htyped as [|[k' v'] rest Hv' Hrest IH]; cbn [set_field].
  - constructor; [exact Hv|constructor].
  - destruct (String.eqb k k'); constructor; auto.
Qed.

Lemma keys_set_field (x k : string) (v : jsval) (record : object) :
  In x (map fst (set_field k v record)) -> x = k \/ In x (map fst record).
Proof.
  induction record as [|[k' v'] rest IH]; cbn.
  - intros [<-|[]]. now left.
  - destruct (String.eqb_spec k k') as [->|Hne]; cbn; [tauto|].
    intros [<-|Hin]; [tauto|]. destruct (IH Hin); tauto.
Qed.

Lemma NoDup_set_field (k : string) (v : jsval) (record : object) :
  NoDup (map fst record) -> NoDup (map fst (set_field k v record)).
Proof.
  induction record as [|[k' v'] rest IH]; cbn; intros Hnd.
  - repeat constructor. tauto.
  - inversion Hnd as [|? ? Hout Hnd']; subst.
    destruct (String.eqb_spec k k') as [->|Hne]; cbn.
    + now constructor.
    + constructor; [|auto]. intros Hin.
      destruct (keys_set_field _ _ _ _ Hin); [congruence|tauto].
Qed.

(** On the reference platform a record of strings with distinct keys and
    non-empty required fields, saved and loaded again, comes back with the
    six fields of the completed record: nothing is left to assume of the
    JSON text. *)
Theorem reference_save_then_load (now : Z) (tokenData : object) (d d' : disk) :
  typed tokenData ->
  NoDup (map fst tokenData) ->
  non_empty (field "access_token" tokenData) ->
  non_empty (field "user_id" tokenData) ->
  read_error d = None ->
  saveToken (H := platform) now tokenData d = (d', Ok tt) ->
  exists loaded,
    loadToken (H := platform) d' = (d', Ok (Some (JObj loaded)))
    /\ same_fields loaded (completeTokenData (H := platform) now tokenData).
Proof.
  intros Htyped Hnd Ha Hu Hread Hsave.
  assert (Hcomplete : typed (completeTokenData (H := platform) now tokenData)).
  { unfold completeTokenData. apply typed_set_field; [exact Htyped|].
    unfold or_else.
    destruct (typed_field "generated_at" tokenData Htyped) as [->|[s ->]];
      cbn; [right; eauto|].
    destruct (negb (String.eqb s "")); right; eauto. }
  destruct (reference_round_trips _ Hcomplete) as (loaded & Hparse & Hsame).
  { unfold completeTokenData. now apply NoDup_set_field. }
  exists loaded. split; [|exact Hsame].
  apply (saved_record_loads (H := platform) now tokenData loaded d d');
    try assumption.
  apply toISOString_not_empty.
Qed.

Lemma reference_save_then_load_witness :
  exists loaded,
    loadToken (H := platform) (Examples.disk_with (Examples.file_of Examples.jane_saved))
    = (Examples.disk_with (Examples.file_of Examples.jane_saved),
       Ok (Some (JObj loaded)))
    /\ same_fields loaded Examples.jane_saved.
Proof.
  apply (reference_save_then_load Examples.NOW Examples.jane Examples.empty_disk
           (Examples.disk_with (Examples.file_of Examples.jane_saved))).
  - repeat (apply Forall_cons; [right; eexists; reflexivity|]). apply Forall_nil.
  - repeat (apply NoDup_cons; [cbn; intuition discriminate|]). apply NoDup_nil.
  - exists "tok-123". split; [reflexivity|discriminate].
  - exists "AB1234". split; [reflexivity|discriminate].
  - reflexivity.
  - vm_compute. reflexivity.
Defined.

End ReferenceProps.

(* ===================================================================== *)
(** ** Properties of the handshake *)
(* ===================================================================== *)

Module HandshakeProps.
Import JS Fs TokenManager OAuthServer Spec TokenStoreProps.

Section WithPlatform.
Context `{Platform}.

(** *** The promise settles once *)

Lemma evolves_refl (st : state) : evolves st st.
Proof. now left. Qed.

Lemma evolves_trans (st1 st2 st3 : state) :
  evolves st1 st2 -> evolves st2 st3 -> evolves st1 st3.
Proof.
  unfold evolves. intros [E12|[P1 S2]] [E23|[P2 S3]].
  - left. congruence.
  - rewrite E12 in P2. now right.
  - right. split; [exact P1|]. now rewrite E23.
  - rewrite P2 in S2. destruct S2.
Qed.

Lemma evolves_same (st st' : state) : promise st' = promise st -> evolves st st'.
Proof. now left. Qed.

Lemma settle_evolves (outcome : settlement) (st : state) :
  settled_by_flow outcome -> evolves st (settle outcome st).
Proof.
  intros Hok. unfold evolves, settle.
  destruct (promise st) eqn:E.
  - right. split; [reflexivity|]. exact Hok.
  - left. exact E.
  - left. exact E.
Qed.

Lemma cleanup_promise (st : state) : promise (cleanup st) = promise st.
Proof. unfold cleanup. now destruct (timeoutId st). Qed.

Lemma stop_promise (st : state) : promise (stop st) = promise st.
Proof. unfold stop. now destruct (server st). Qed.

Lemma cleanupAndReject_evolves (reason : thrown) (st : state) :
  evolves st (cleanupAndReject reason st).
Proof.
  unfold cleanupAndReject, reject.
  apply evolves_trans with (cleanup st).
  - apply evolves_same, cleanup_promise.
  - now apply settle_evolves.
Qed.

Lemma cleanupAndResolve_evolves (tokenData : object) (st : state) :
  settled_by_flow (Resolved tokenData) ->
  evolves st (cleanupAndResolve tokenData st).
Proof.
  intros Hok. unfold cleanupAndResolve, resolve.
  apply evolves_trans with (cleanup st).
  - apply evolves_same, cleanup_promise.
  - now apply settle_evolves.
Qed.

Lemma fire_evolves (a : timer_action) (st : state) : evolves st (fire a st).
Proof.
  destruct a; cbn [fire].
  - apply evolves_trans with (stop st).
    + apply evolves_same, stop_promise.
    + apply cleanupAndReject_evolves.
  - apply evolves_same, stop_promise.
Qed.

Lemma fire_each_evolves (due_now : list timer) (st : state) :
  evolves st (fire_each due_now st).
Proof.
  revert st. induction due_now as [|t rest IH]; intros st; cbn [fire_each].
  - apply evolves_refl.
  - eapply evolves_trans; [|apply IH].
    destruct (is_armed (timer_id t) st); [|apply evolves_refl].
    eapply evolves_trans; [|apply fire_evolves].
    now apply evolves_same.
Qed.

Lemma advance_evolves (t : Z) (st : state) : evolves st (advance t st).
Proof.
  unfold advance.
  eapply evolves_trans; [|apply fire_each_evolves]. now apply evolves_same.
Qed.

Lemma fetch_catch_evolves (error : thrown) (st : state) :
  evolves st (fst (fetch_catch error st)).
Proof.
  unfold fetch_catch. cbn [fst].
  eapply evolves_trans; [apply (cleanupAndReject_evolves error)|].
  now apply evolves_same.
Qed.

Lemma fetch_then_evolves (tokenData : object) (st : state) :
  settled_by_flow (Resolved tokenData) ->
  evolves st (fst (fetch_then tokenData st)).
Proof.
  intros Hok. unfold fetch_then. cbn [fst].
  eapply evolves_trans; [apply (cleanupAndResolve_evolves tokenData), Hok|].
  now apply evolves_same.
Qed.

(** What [handleOAuthCallback] returns after its [await]. *)
Lemma handleOAuthCallback_resume_cases (now : Z) (session : result jsval) (d : disk) :
  let wrap (e : thrown) :=
    ErrorObj ("Session generation failed: " ++ message_of e) in
  handleOAuthCallback_resume now session d
  = match session with
    | Throw e => (d, Throw (wrap e))
    | Ok (JObj response) =>
        let tokenData : object :=
          [ ("access_token", field "access_token" response);
            ("refresh_token", field "refresh_token" response);
            ("user_id", field "user_id" response);
            ("user_name", field "user_name" response);
            ("generated_at", JStr (Date_toISOString now)) ] in
        match saveToken now tokenData d with
        | (d', Ok _) => (d', Ok tokenData)
        | (d', Throw e) => (d', Throw (wrap e))
        end
    | Ok (JUndefined as v) | Ok (JNull as v) =>
        (d, Throw (wrap (ErrorObj (TypeError_message v "access_token"))))
    | Ok _ =>
        let tokenData : object :=
          [ ("access_token", JUndefined);
            ("refresh_token", JUndefined);
            ("user_id", JUndefined);
            ("user_name", JUndefined);
            ("generated_at", JStr (Date_toISOString now)) ] in
        match saveToken now tokenData d with
        | (d', Ok _) => (d', Ok tokenData)
        | (d', Throw e) => (d', Throw (wrap e))
        end
    end.
Proof.
  unfold handleOAuthCallback_resume, Fs.try_catch, Fs.bind, lift, ret, throw.
  destruct session as [[| |b|f|s|items|response]|e]; cbn; try reflexivity;
    match goal with
    | |- context [saveToken ?n ?td ?d] => destruct (saveToken n td d) as [d' [[]|e]]
    end; reflexivity.
Qed.

Lemma handleOAuthCallback_resume_produced
  (now : Z) (session : result jsval) (d d' : disk) (tokenData : object) :
  handleOAuthCallback_resume now session d = (d', Ok tokenData) ->
  settled_by_flow (Resolved tokenData).
Proof.
  rewrite handleOAuthCallback_resume_cases. cbv zeta.
  destruct session as [[| |b|f|s|items|response]|e]; try discriminate;
    match goal with
    | |- context [saveToken ?n ?td ?d] => destruct (saveToken n td d) as [d1 [[]|e]]
    end; try discriminate; intros [= <- <-]; cbn; eauto 10.
Qed.

Lemma fetch_resume_evolves (session : result jsval) (st : state) :
  evolves st (fst (fetch_resume session st)).
Proof.
  unfold fetch_resume.
  destruct (handleOAuthCallback_resume (clock st) session (store st))
    as [d [tokenData|error]] eqn:E.
  - eapply evolves_trans; [|apply fetch_then_evolves].
    + now apply evolves_same.
    + eapply handleOAuthCallback_resume_produced, E.
  - eapply evolves_trans; [|apply fetch_catch_evolves]. now apply evolves_same.
Qed.

Lemma step_evolves (i : input) (st : state) : evolves st (fst (step i st)).
Proof.
  destruct i as [t|url|call session|]; cbn [step fst].
  - apply advance_evolves.
  - destruct (server st); [|apply evolves_refl].
    unfold fetch. destruct (String.eqb (pathname url) CALLBACK_PATH);
      [|apply evolves_refl].
    destruct (handleOAuthCallback_check url) as [error|requestToken].
    + pose proof (fetch_catch_evolves error st) as He.
      destruct (fetch_catch error st). exact He.
    + now apply evolves_same.
  - destruct (find_call call (calls st)); [|apply evolves_refl].
    match goal with
    | |- context [fetch_resume session ?s] =>
        pose proof (fetch_resume_evolves session s) as He;
        destruct (fetch_resume session s)
    end.
    eapply evolves_trans; [|exact He]. now apply evolves_same.
  - apply evolves_same, stop_promise.
Qed.

Lemma run_evolves (inputs : list input) (st : state) : evolves st (run inputs st).
Proof.
  revert st. induction inputs as [|i rest IH]; intros st; cbn [run].
  - apply evolves_refl.
  - eapply evolves_trans; [apply step_evolves|apply IH].
Qed.

Lemma settled_stays (st st' : state) :
  evolves st st' -> promise st <> Pending -> promise st' = promise st.
Proof. intros [E|[P _]] Hs; [exact E|contradiction]. Qed.

Lemma run_app (xs ys : list input) (st : state) :
  run (xs ++ ys) st = run ys (run xs st).
Proof.
  revert st. induction xs as [|i rest IH]; intros st; cbn; [reflexivity|apply IH].
Qed.

(** *** The flow that no callback reaches *)

Lemma startAuthFlow_quiet (cfg : Config) (t0 : Z) (d : disk) :
  quiet t0 (startAuthFlow cfg t0 d).
Proof.
  unfold quiet, startAuthFlow, AUTH_TIMEOUT_MS. cbn.
  repeat split. left. repeat split. lia.
Qed.

Lemma quiet_advance (t0 t : Z) (st : state) :
  quiet t0 st -> quiet t0 (advance t st).
Proof.
  destruct st as [cfg clk prom tid srv tms nt cs nc sto lg].
  unfold quiet, advance. cbn [calls timeoutId promise timers clock server set_clock].
  intros (-> & -> & [(-> & -> & Hc)|(-> & -> & -> & Hc)]).
  - cbn [filter due].
    destruct (Z.leb_spec (t0 + AUTH_TIMEOUT_MS) (Z.max clk t)) as [Hle|Hlt].
    + destruct srv; cbn; (repeat split; right; repeat split; assumption).
    + cbn. repeat split. left. now repeat split.
  - cbn. repeat split. right. repeat split. unfold AUTH_TIMEOUT_MS in *. lia.
Qed.

Lemma quiet_step (t0 : Z) (i : input) (st : state) :
  no_callback i -> quiet t0 st -> quiet t0 (fst (step i st)).
Proof.
  intros Hi Hq. destruct i as [t|url|call session|]; cbn [step fst].
  - now apply quiet_advance.
  - cbn in Hi. apply String.eqb_neq in Hi.
    unfold fetch. rewrite Hi. now destruct (server st).
  - destruct Hq as (Hcalls & Hrest). rewrite Hcalls. cbn. now split.
  - destruct st as [cfg clk prom tid srv tms nt cs nc sto lg].
    unfold quiet, stop in *. cbn in Hq.
    destruct Hq as (-> & -> & [(-> & -> & Hc)|(-> & -> & -> & Hc)]).
    + destruct srv; cbn; repeat split; left; now repeat split.
    + cbn. repeat split. right. now repeat split.
Qed.

Lemma quiet_run (t0 : Z) (inputs : list input) (st : state) :
  Forall no_callback inputs -> quiet t0 st -> quiet t0 (run inputs st).
Proof.
  intros Hall. revert st.
  induction Hall as [|i rest Hi _ IH]; intros st Hq; cbn [run]; [exact Hq|].
  apply IH. now apply quiet_step.
Qed.

Lemma quiet_timed_out (t0 : Z) (st : state) :
  quiet t0 st -> t0 + AUTH_TIMEOUT_MS <= clock st ->
  promise st = Rejected TIMEOUT_ERROR /\ server st = false /\ timers st = [].
Proof.
  intros (_ & _ & [(_ & _ & Hc)|(Hp & Ht & Hs & _)]) Hlate; [lia|auto].
Qed.

Lemma advance_clock (t : Z) (st : state) : t <= clock (advance t st).
Proof.
  unfold advance.
  assert (Hfire : forall ts s, clock (fire_each ts s) = clock s).
  { induction ts as [|x rest IH]; intros s; cbn [fire_each]; [reflexivity|].
    rewrite IH. destruct (is_armed (timer_id x) s); [|reflexivity].
    destruct (action x); cbn [fire];
      unfold cleanupAndReject, reject, settle, cleanup, clearTimeout, stop; cbn;
      repeat match goal with
             | |- context [match ?x with _ => _ end] => destruct x; cbn
             | |- context [if ?x then _ else _] => destruct x; cbn
             end; reflexivity. }
  rewrite Hfire. cbn. lia.
Qed.

(** *** The timeout timer *)

Lemma Forall_filter_keeps {A : Type} (P : A -> Prop) (f : A -> bool) (l : list A) :
  Forall P l -> Forall P (filter f l).
Proof.
  rewrite !Forall_forall. intros Hall x Hx.
  apply filter_In in Hx. now apply Hall.
Qed.

Lemma filter_keep_other (id : nat) (l : list timer) :
  Forall (fun t => timer_id t <> id) (filter (keep_other id) l).
Proof.
  rewrite Forall_forall. intros x Hx. apply filter_In in Hx as [_ Hk].
  unfold keep_other in Hk. now rewrite negb_true_iff, Nat.eqb_neq in Hk.
Qed.

Lemma discipline_start (cfg : Config) (t0 : Z) (d : disk) :
  timer_discipline (startAuthFlow cfg t0 d).
Proof.
  unfold timer_discipline, startAuthFlow. cbn.
  split; [reflexivity|]. split; [lia|]. split.
  - constructor; [now left|constructor].
  - intros Hp. now destruct Hp.
Qed.

Lemma discipline_stop (st : state) :
  timer_discipline st -> timer_discipline (stop st).
Proof.
  destruct st as [cfg clk prom tid srv tms nt cs nc sto lg].
  unfold timer_discipline, stop. now destruct srv.
Qed.

Lemma discipline_remove (f : timer -> bool) (st : state) :
  timer_discipline st ->
  timer_discipline (set_timers (filter f (timers st)) (next_timer st) st).
Proof.
  destruct st as [cfg clk prom tid srv tms nt cs nc sto lg].
  unfold timer_discipline. cbn.
  intros (Hid & Hnt & Hall & Hset). repeat split; auto using Forall_filter_keeps.
Qed.

Lemma discipline_settle (outcome : settlement) (st : state) :
  timer_discipline st -> timer_discipline (settle outcome (cleanup st)).
Proof.
  destruct st as [cfg clk prom tid srv tms nt cs nc sto lg].
  unfold timer_discipline, settle, cleanup, clearTimeout. cbn.
  intros (-> & Hnt & Hall & Hset). cbn.
  destruct prom; cbn; repeat split;
    auto using Forall_filter_keeps, filter_keep_other.
Qed.

Lemma discipline_shutdown_timer (st : state) :
  timer_discipline st ->
  timer_discipline (snd (setTimeout Shutdown GRACE_MS st)).
Proof.
  destruct st as [cfg clk prom tid srv tms nt cs nc sto lg].
  unfold timer_discipline, setTimeout. cbn.
  intros (Hid & Hnt & Hall & Hset). repeat split; auto.
  - apply Forall_app. split; [exact Hall|]. constructor; auto.
  - intros Hp. apply Forall_app. split; [auto|].
    constructor; [cbn; lia|constructor].
Qed.

Lemma discipline_frame (st st' : state) :
  timeoutId st' = timeoutId st -> next_timer st' = next_timer st ->
  timers st' = timers st -> promise st' = promise st ->
  timer_discipline st -> timer_discipline st'.
Proof. unfold timer_discipline. now intros -> -> -> ->. Qed.

Lemma discipline_fire (a : timer_action) (st : state) :
  timer_discipline st -> timer_discipline (fire a st).
Proof.
  intros Hd. destruct a; cbn [fire].
  - apply discipline_settle. now apply discipline_stop.
  - now apply discipline_stop.
Qed.

Lemma discipline_fire_each (due_now : list timer) (st : state) :
  timer_discipline st -> timer_discipline (fire_each due_now st).
Proof.
  revert st. induction due_now as [|t rest IH]; intros st Hd; cbn [fire_each];
    [exact Hd|].
  apply IH. destruct (is_armed (timer_id t) st); [|exact Hd].
  apply discipline_fire. now apply discipline_remove.
Qed.

Lemma discipline_fetch_catch (error : thrown) (st : state) :
  timer_discipline st -> timer_discipline (fst (fetch_catch error st)).
Proof.
  intros Hd. unfold fetch_catch. cbn [fst].
  apply discipline_shutdown_timer. now apply discipline_settle.
Qed.

Lemma discipline_fetch_then (tokenData : object) (st : state) :
  timer_discipline st -> timer_discipline (fst (fetch_then tokenData st)).
Proof.
  intros Hd. unfold fetch_then. cbn [fst].
  apply discipline_shutdown_timer. now apply discipline_settle.
Qed.

Lemma discipline_step (i : input) (st : state) :
  timer_discipline st -> timer_discipline (fst (step i st)).
Proof.
  intros Hd. destruct i as [t|url|call session|]; cbn [step fst].
  - unfold advance. apply discipline_fire_each.
    now apply (discipline_frame st).
  - destruct (server st); [|exact Hd]. unfold fetch.
    destruct (String.eqb (pathname url) CALLBACK_PATH); [|exact Hd].
    destruct (handleOAuthCallback_check url) as [error|requestToken].
    + pose proof (discipline_fetch_catch error st Hd) as Hd'.
      now destruct (fetch_catch error st).
    + now apply (discipline_frame st).
  - destruct (find_call call (calls st)); [|exact Hd].
    unfold fetch_resume. cbn [clock store set_calls].
    destruct (handleOAuthCallback_resume (clock st) session (store st))
      as [d [tokenData|error]].
    + match goal with
      | |- context [fetch_then tokenData ?s] =>
          pose proof (discipline_fetch_then tokenData s) as Hd';
          destruct (fetch_then tokenData s)
      end.
      apply Hd'. now apply (discipline_frame st).
    + match goal with
      | |- context [fetch_catch error ?s] =>
          pose proof (discipline_fetch_catch error s) as Hd';
          destruct (fetch_catch error s)
      end.
      apply Hd'. now apply (discipline_frame st).
  - now apply discipline_stop.
Qed.

Lemma discipline_run (inputs : list input) (st : state) :
  timer_discipline st -> timer_discipline (run inputs st).
Proof.
  revert st. induction inputs as [|i rest IH]; intros st Hd; cbn [run];
    [exact Hd|].
  apply IH. now apply discipline_step.
Qed.

Lemma discipline_disarmed (st : state) :
  timer_discipline st -> promise st <> Pending -> timeout_disarmed st.
Proof.
  intros (_ & _ & Hall & Hset) Hp. specialize (Hset Hp).
  unfold timeout_disarmed. rewrite Forall_forall in *.
  intros t Ht. destruct (Hall t Ht) as [H0|Hs]; [|exact Hs].
  now destruct (Hset t Ht).
Qed.

(** C3. When no request on the callback path reaches the listener before
    the clock has run 5 minutes past [startAuthFlow], the promise is
    rejected with the fixed timeout reason and the listener is down, with
    no timer left to wait for; whatever arrives afterwards, callbacks
    included, the outcome stays.  In every state a flow can reach, a
    settled promise is never settled again by a further input, and the
    timeout callback is no longer armed. *)
Theorem timeout_settles_once
  (cfg : Config) (t0 : Z) (d : disk) (before after : list input) (T : Z) :
  Forall no_callback before ->
  t0 + AUTH_TIMEOUT_MS <= T ->
  let st := run (before ++ [Advance T]) (startAuthFlow cfg t0 d) in
  promise st = Rejected TIMEOUT_ERROR
  /\ server st = false
  /\ timers st = []
  /\ promise (run after st) = Rejected TIMEOUT_ERROR
  /\ (forall inputs,
        let st' := run inputs (startAuthFlow cfg t0 d) in
        promise st' <> Pending ->
        timeout_disarmed st'
        /\ forall i, promise (fst (step i st')) = promise st').
Proof.
  intros Hquiet Hlate st.
  assert (Hq : quiet t0 st).
  { apply quiet_run; [|apply startAuthFlow_quiet].
    apply Forall_app. split; [exact Hquiet|]. now repeat constructor. }
  assert (Hclock : t0 + AUTH_TIMEOUT_MS <= clock st).
  { unfold st. rewrite run_app. cbn [run step fst].
    etransitivity; [exact Hlate|apply advance_clock]. }
  destruct (quiet_timed_out _ _ Hq Hclock) as (Hp & Hs & Ht).
  split; [exact Hp|]. split; [exact Hs|]. split; [exact Ht|]. split.
  - rewrite <- Hp. apply (settled_stays st); [apply run_evolves|].
    rewrite Hp. discriminate.
  - intros inputs st' Hsettled. split.
    + apply discipline_disarmed; [|assumption].
      apply discipline_run, discipline_start.
    + intros i. apply (settled_stays st'); [apply step_evolves|assumption].
Qed.

(** *** Requests *)

(** C8. A request on any path but the callback path is answered with the
    static waiting text, and the flow is exactly as it was: promise,
    token store, timers and listener. *)
Theorem other_path_waits (st : state) (url : URL) :
  server st = true ->
  pathname url <> CALLBACK_PATH ->
  step (Request url) st = (st, Some WAITING).
Proof.
  intros Hs Hpath. cbn [step]. rewrite Hs. unfold fetch.
  apply String.eqb_neq in Hpath. now rewrite Hpath.
Qed.

Lemma handleOAuthCallback_check_fails (url : URL) :
  searchParams_get "status" (searchParams url) <> Some "success"
  \/ searchParams_get "request_token" (searchParams url) = None
  \/ searchParams_get "request_token" (searchParams url) = Some "" ->
  handleOAuthCallback_check url
  = inl (ErrorObj (or_default (searchParams_get "error_type" (searchParams url))
                              "OAuth callback failed")).
Proof.
  unfold handleOAuthCallback_check. intros Hbad.
  destruct (searchParams_get "status" (searchParams url)) as [v|] eqn:Es;
    cbn [not_success]; [|reflexivity].
  destruct (String.eqb v "success") eqn:Ev; cbn [negb orb]; [|reflexivity].
  apply String.eqb_eq in Ev. subst v.
  destruct Hbad as [Hbad|[-> | ->]]; [congruence|reflexivity|reflexivity].
Qed.

Lemma handleOAuthCallback_check_passes (url : URL) (tok : string) :
  searchParams_get "status" (searchParams url) = Some "success" ->
  searchParams_get "request_token" (searchParams url) = Some tok ->
  tok <> "" ->
  handleOAuthCallback_check url = inr tok.
Proof.
  unfold handleOAuthCallback_check. intros -> -> Htok.
  apply String.eqb_neq in Htok. cbn. now rewrite Htok.
Qed.

(** C4. A request on the callback path whose status is not success, or
    whose request token is absent or empty, rejects the pending promise
    with the reason of [error_type] (the generic reason when that is absent
    or empty), is answered with the 500 failure page, and neither touches
    the token store nor starts a session exchange. *)
Theorem failed_callback_rejects (st : state) (url : URL) :
  server st = true ->
  promise st = Pending ->
  pathname url = CALLBACK_PATH ->
  searchParams_get "status" (searchParams url) <> Some "success"
  \/ searchParams_get "request_token" (searchParams url) = None
  \/ searchParams_get "request_token" (searchParams url) = Some "" ->
  let reason :=
    ErrorObj (or_default (searchParams_get "error_type" (searchParams url))
                         "OAuth callback failed") in
  exists st',
    step (Request url) st = (st', Some (failure_page reason))
    /\ status (failure_page reason) = 500
    /\ promise st' = Rejected reason
    /\ store st' = store st
    /\ calls st' = calls st
    /\ next_call st' = next_call st
    /\ (forall e, searchParams_get "error_type" (searchParams url) = Some e ->
                  e <> "" -> reason = ErrorObj e)
    /\ (searchParams_get "error_type" (searchParams url) = None ->
        reason = ErrorObj "OAuth callback failed").
Proof.
  intros Hs Hp Hpath Hbad reason.
  cbn [step]. rewrite Hs. unfold fetch. rewrite Hpath, String.eqb_refl.
  rewrite (handleOAuthCallback_check_fails url Hbad). fold reason.
  destruct st as [cfg clk prom tid srv tms nt cs nc sto lg].
  cbn in Hp. subst prom.
  unfold fetch_catch, cleanupAndReject, reject, settle, cleanup, clearTimeout,
    setTimeout.
  eexists. split; [reflexivity|].
  split; [reflexivity|].
  destruct tid; cbn; (repeat split).
  all: try (intros e He Hne; unfold reason; rewrite He; cbn;
            apply String.eqb_neq in Hne; now rewrite Hne).
  all: intros He; unfold reason; now rewrite He.
Qed.

(** *** Pending session exchanges *)

Ltac open_state st :=
  destruct st as [cfg clk prom tid srv tms nt cs nc sto lg];
  unfold fetch_then, fetch_catch, cleanupAndResolve, cleanupAndReject, resolve,
    reject, settle, cleanup, clearTimeout, setTimeout, stop, generateSession;
  cbn.

Lemma fire_calls (a : timer_action) (st : state) :
  calls (fire a st) = calls st /\ next_call (fire a st) = next_call st.
Proof.
  destruct a; cbn [fire]; open_state st;
    destruct srv; cbn; destruct tid; cbn; destruct prom; cbn; auto.
Qed.

Lemma fire_each_calls (due_now : list timer) (st : state) :
  calls (fire_each due_now st) = calls st
  /\ next_call (fire_each due_now st) = next_call st.
Proof.
  revert st. induction due_now as [|t rest IH]; intros st; cbn [fire_each];
    [auto|].
  destruct (IH (if is_armed (timer_id t) st
                then fire (action t)
                       (set_timers (filter (keep_other (timer_id t)) (timers st))
                                   (next_timer st) st)
                else st)) as [-> ->].
  destruct (is_armed (timer_id t) st); [|auto].
  destruct (fire_calls (action t)
              (set_timers (filter (keep_other (timer_id t)) (timers st))
                          (next_timer st) st)) as [-> ->].
  auto.
Qed.

Lemma fetch_catch_calls (error : thrown) (st : state) :
  calls (fst (fetch_catch error st)) = calls st
  /\ next_call (fst (fetch_catch error st)) = next_call st.
Proof. open_state st. destruct tid; cbn; destruct prom; cbn; auto. Qed.

Lemma fetch_then_calls (tokenData : object) (st : state) :
  calls (fst (fetch_then tokenData st)) = calls st
  /\ next_call (fst (fetch_then tokenData st)) = next_call st.
Proof. open_state st. destruct tid; cbn; destruct prom; cbn; auto. Qed.

Lemma fetch_resume_calls (session : result jsval) (st : state) :
  calls (fst (fetch_resume session st)) = calls st
  /\ next_call (fst (fetch_resume session st)) = next_call st.
Proof.
  unfold fetch_resume.
  destruct (handleOAuthCallback_resume (clock st) session (store st))
    as [d [tokenData|error]].
  - destruct (fetch_then_calls tokenData
                (say (SaveToken tokenData) (set_store d st))) as [-> ->]. auto.
  - destruct (fetch_catch_calls error (set_store d st)) as [-> ->]. auto.
Qed.

Lemma find_call_app (call : nat) (tok : string) (l l' : list (nat * string)) :
  find_call call l = Some tok -> find_call call (l ++ l') = Some tok.
Proof.
  induction l as [|[c t] rest IH]; cbn; [discriminate|].
  destruct (Nat.eqb c call); auto.
Qed.

Lemma find_call_new (call : nat) (tok : string) (l : list (nat * string)) :
  Forall (fun c => (fst c < call)%nat) l ->
  find_call call (l ++ [(call, tok)]) = Some tok.
Proof.
  induction 1 as [|[c t] rest Hc _ IH]; cbn.
  - now rewrite Nat.eqb_refl.
  - cbn in Hc. destruct (Nat.eqb_spec c call); [lia|exact IH].
Qed.

Lemma find_call_filter (call other : nat) (l : list (nat * string)) :
  other <> call ->
  find_call call (filter (fun c => negb (Nat.eqb (fst c) other)) l)
  = find_call call l.
Proof.
  intros Hne. induction l as [|[c t] rest IH]; cbn; [reflexivity|].
  destruct (Nat.eqb_spec c other) as [->|Hc]; cbn.
  - destruct (Nat.eqb_spec other call); [contradiction|exact IH].
  - destruct (Nat.eqb c call); [reflexivity|exact IH].
Qed.

Lemma awaiting_step (call : nat) (tok : string) (i : input) (st : state) :
  not_result_of call i -> awaiting call tok st ->
  awaiting call tok (fst (step i st)).
Proof.
  unfold awaiting. intros Hi Hw.
  destruct i as [t|url|c session|]; cbn [step fst].
  - unfold advance.
    destruct (fire_each_calls
                (sort_by_due
                   (filter (fun x => due x <=? clock (set_clock (Z.max (clock st) t) st))
                           (timers (set_clock (Z.max (clock st) t) st))))
                (set_clock (Z.max (clock st) t) st)) as [-> _].
    exact Hw.
  - destruct (server st); [|exact Hw]. unfold fetch.
    destruct (String.eqb (pathname url) CALLBACK_PATH); [|exact Hw].
    destruct (handleOAuthCallback_check url) as [error|requestToken].
    + pose proof (fetch_catch_calls error st) as [Hc _].
      destruct (fetch_catch error st). cbn [fst] in *. now rewrite Hc.
    + cbn. now apply find_call_app.
  - cbn in Hi. destruct (find_call c (calls st)); [|exact Hw].
    match goal with
    | |- context [fetch_resume session ?s] =>
        pose proof (fetch_resume_calls session s) as [Hc _];
        destruct (fetch_resume session s)
    end.
    cbn [fst] in *. rewrite Hc. cbn. now rewrite find_call_filter.
  - unfold stop. now destruct (server st).
Qed.

Lemma awaiting_run (call : nat) (tok : string) (inputs : list input) (st : state) :
  Forall (not_result_of call) inputs -> awaiting call tok st ->
  awaiting call tok (run inputs st).
Proof.
  intros Hall. revert st.
  induction Hall as [|i rest Hi _ IH]; intros st Hw; cbn [run]; [exact Hw|].
  apply IH. now apply awaiting_step.
Qed.

Lemma completeTokenData_fixed (now : Z) (a r u n : jsval) :
  let tokenData : object :=
    [ ("access_token", a); ("refresh_token", r); ("user_id", u);
      ("user_name", n); ("generated_at", JStr (Date_toISOString now)) ] in
  completeTokenData now tokenData = tokenData.
Proof.
  cbv zeta. unfold completeTokenData, or_else. cbn.
  now destruct (negb (String.eqb (Date_toISOString now) "")).
Qed.

Lemma fire_each_config (due_now : list timer) (st : state) :
  config (fire_each due_now st) = config st.
Proof.
  revert st. induction due_now as [|t rest IH]; intros st; cbn [fire_each];
    [reflexivity|].
  rewrite IH. destruct (is_armed (timer_id t) st); [|reflexivity].
  destruct (action t); cbn [fire]; open_state st;
    destruct srv; cbn; destruct tid; cbn; destruct prom; reflexivity.
Qed.

Lemma step_config (i : input) (st : state) : config (fst (step i st)) = config st.
Proof.
  destruct i as [t|url|c session|]; cbn [step fst].
  - unfold advance. now rewrite fire_each_config.
  - destruct (server st); [|reflexivity]. unfold fetch.
    destruct (String.eqb (pathname url) CALLBACK_PATH); [|reflexivity].
    destruct (handleOAuthCallback_check url); [|reflexivity].
    open_state st. destruct tid; cbn; destruct prom; reflexivity.
  - destruct (find_call c (calls st)); [|reflexivity].
    unfold fetch_resume. cbn [clock store set_calls].
    destruct (handleOAuthCallback_resume (clock st) session (store st))
      as [d' [td|e]]; open_state st; destruct tid; cbn; destruct prom;
      reflexivity.
  - unfold stop. now destruct (server st).
Qed.

Lemma run_config (cfg : Config) (t0 : Z) (d : disk) (inputs : list input) :
  config (run inputs (startAuthFlow cfg t0 d)) = cfg.
Proof.
  change cfg with (config (startAuthFlow cfg t0 d)) at 2.
  generalize (startAuthFlow cfg t0 d) as st.
  induction inputs as [|i rest IH]; intros st; cbn [run]; [reflexivity|].
  now rewrite IH, step_config.
Qed.

Lemma calls_fresh_step (i : input) (st : state) :
  calls_fresh st -> calls_fresh (fst (step i st)).
Proof.
  unfold calls_fresh. intros Hf.
  destruct i as [t|url|c session|]; cbn [step fst].
  - unfold advance.
    destruct (fire_each_calls
                (sort_by_due
                   (filter (fun x => due x <=? clock (set_clock (Z.max (clock st) t) st))
                           (timers (set_clock (Z.max (clock st) t) st))))
                (set_clock (Z.max (clock st) t) st)) as [-> ->].
    exact Hf.
  - destruct (server st); [|exact Hf]. unfold fetch.
    destruct (String.eqb (pathname url) CALLBACK_PATH); [|exact Hf].
    destruct (handleOAuthCallback_check url) as [error|requestToken].
    + pose proof (fetch_catch_calls error st) as [Hc Hn].
      destruct (fetch_catch error st). cbn [fst] in *. now rewrite Hc, Hn.
    + cbn. apply Forall_app. split.
      * eapply Forall_impl; [|exact Hf]. cbn. intros c Hc. lia.
      * constructor; [cbn; lia|constructor].
  - destruct (find_call c (calls st)); [|exact Hf].
    match goal with
    | |- context [fetch_resume session ?s] =>
        pose proof (fetch_resume_calls session s) as [Hc Hn];
        destruct (fetch_resume session s)
    end.
    cbn [fst] in *. rewrite Hc, Hn. cbn. now apply Forall_filter_keeps.
  - unfold stop. now destruct (server st).
Qed.

Lemma calls_fresh_run (inputs : list input) (st : state) :
  calls_fresh st -> calls_fresh (run inputs st).
Proof.
  revert st. induction inputs as [|i rest IH]; intros st Hf; cbn [run];
    [exact Hf|].
  apply IH. now apply calls_fresh_step.
Qed.

Lemma calls_fresh_start (cfg : Config) (t0 : Z) (d : disk) :
  calls_fresh (startAuthFlow cfg t0 d).
Proof. constructor. Qed.

(** The step that answers a pending exchange with a session object, on a
    disk that takes the write, while the promise is pending. *)
Lemma session_result_resolves
  (st : state) (call : nat) (tok : string) (response : object) :
  awaiting call tok st ->
  promise st = Pending ->
  write_error (store st) = None ->
  mkdir_error (store st) = None ->
  let tokenData : object :=
    [ ("access_token", field "access_token" response);
      ("refresh_token", field "refresh_token" response);
      ("user_id", field "user_id" response);
      ("user_name", field "user_name" response);
      ("generated_at", JStr (Date_toISOString (clock st))) ] in
  exists st',
    step (SessionResult call (Ok (JObj response))) st = (st', Some SUCCESS_PAGE)
    /\ promise st' = Resolved tokenData
    /\ token_file (store st') = Some (JSON_stringify (JObj tokenData))
    /\ read_error (store st') = read_error (store st)
    /\ precedes (SaveToken tokenData) (Settle (Resolved tokenData)) (log st').
Proof.
  intros Hw Hp Hwrite Hmkdir tokenData.
  cbn [step]. unfold awaiting in Hw. rewrite Hw.
  unfold fetch_resume. cbn [clock store set_calls].
  rewrite handleOAuthCallback_resume_cases. cbv zeta. fold tokenData.
  destruct (saveToken_writable (clock st) tokenData (store st) Hwrite Hmkdir)
    as [d' Hsave].
  rewrite Hsave.
  destruct (saveToken_returns _ _ _ _ Hsave) as (Hfile & Hread & _).
  unfold tokenData in Hfile. rewrite completeTokenData_fixed in Hfile.
  fold tokenData in Hfile.
  destruct st as [cfg clk prom tid srv tms nt cs nc sto lg].
  cbn in Hp. subst prom.
  unfold fetch_then, cleanupAndResolve, resolve, settle, cleanup, clearTimeout,
    setTimeout.
  eexists. split; [reflexivity|].
  destruct tid as [id|]; cbn.
  - repeat split; try assumption.
    exists lg, [ClearTimeout id],
      [SetTimeout nt (clk + GRACE_MS) Shutdown].
    now rewrite <- !app_assoc.
  - repeat split; try assumption.
    exists lg, [], [SetTimeout nt (clk + GRACE_MS) Shutdown].
    now rewrite <- !app_assoc.
Qed.

(** C2, as the code has it.  In a flow that listens, a request on the
    callback path with status success and a non-empty request token starts
    the session exchange; when the exchange answers with a session object
    while the promise is still pending, and the disk takes the write, the
    promise resolves with the record built from the answer and the clock,
    the record is in the token file, it was saved before the promise
    resolved, and the caller gets the 200 success page.  [earlier] is what
    reached the flow before the request, [between] what reached it between
    the request and the answer. *)
Theorem exchanged_token_resolves
  (cfg : Config) (t0 : Z) (d : disk) (earlier between : list input)
  (url : URL) (tok : string) (response : object) :
  let st := run earlier (startAuthFlow cfg t0 d) in
  let call := next_call st in
  let st1 := fst (step (Request url) st) in
  let st2 := run between st1 in
  let tokenData : object :=
    [ ("access_token", field "access_token" response);
      ("refresh_token", field "refresh_token" response);
      ("user_id", field "user_id" response);
      ("user_name", field "user_name" response);
      ("generated_at", JStr (Date_toISOString (clock st2))) ] in
  server st = true ->
  pathname url = CALLBACK_PATH ->
  searchParams_get "status" (searchParams url) = Some "success" ->
  searchParams_get "request_token" (searchParams url) = Some tok ->
  tok <> "" ->
  Forall (not_result_of call) between ->
  promise st2 = Pending ->
  write_error (store st2) = None ->
  mkdir_error (store st2) = None ->
  exists st3,
    step (SessionResult call (Ok (JObj response))) st2 = (st3, Some SUCCESS_PAGE)
    /\ status SUCCESS_PAGE = 200
    /\ promise st3 = Resolved tokenData
    /\ token_file (store st3) = Some (JSON_stringify (JObj tokenData))
    /\ precedes (SaveToken tokenData) (Settle (Resolved tokenData)) (log st3)
    /\ In (GenerateSession call tok (apiSecret cfg)) (log st1).
Proof.
  intros st call st1 st2 tokenData Hs Hpath Hstatus Htok Hne Hbetween Hp Hw Hm.
  assert (Hfresh : calls_fresh st) by apply calls_fresh_run, calls_fresh_start.
  assert (Hcfg : config st = cfg) by apply run_config.
  assert (Hst1 : st1 = generateSession tok st).
  { unfold st1. cbn [step]. rewrite Hs. unfold fetch.
    rewrite Hpath, String.eqb_refl.
    now rewrite (handleOAuthCallback_check_passes url tok). }
  assert (Hw1 : awaiting call tok st1).
  { rewrite Hst1. unfold awaiting, generateSession. cbn.
    now apply find_call_new. }
  assert (Hw2 : awaiting call tok st2) by now apply awaiting_run.
  destruct (session_result_resolves st2 call tok response Hw2 Hp Hw Hm)
    as (st3 & Hstep & Hres & Hfile & _ & Hlog).
  exists st3. repeat split; try assumption.
  rewrite Hst1, <- Hcfg. unfold generateSession. cbn.
  apply in_or_app. right. now left.
Qed.

(** *** Records of the success path *)

(** The record a resolved flow hands out has no [expires_at]. *)
Lemma settled_by_flow_no_expiry (tokenData : object) :
  settled_by_flow (Resolved tokenData) -> lookup "expires_at" tokenData = None.
Proof. intros (a & r & u & n & g & ->). reflexivity. Qed.

Lemma reachable_settled_by_flow (cfg : Config) (t0 : Z) (d : disk)
  (inputs : list input) :
  let st := run inputs (startAuthFlow cfg t0 d) in
  promise st = Pending \/ settled_by_flow (promise st).
Proof.
  intros st. destruct (run_evolves inputs (startAuthFlow cfg t0 d)) as [E|[_ E]].
  - left. exact E.
  - right. exact E.
Qed.

(** C10. The record a flow resolves with has no [expires_at]; its
    validity, and that of any record with the same six fields (the one read
    back from the token file), is the freshness of its [generated_at], the
    branch of the explicit expiry never being taken. *)
Theorem flow_token_decided_by_freshness
  (cfg : Config) (t0 : Z) (d : disk) (inputs : list input) (tokenData : object) :
  promise (run inputs (startAuthFlow cfg t0 d)) = Resolved tokenData ->
  lookup "expires_at" tokenData = None
  /\ field "expires_at" tokenData = JUndefined
  /\ forall now loaded,
       same_fields loaded tokenData ->
       validateTokenExpiry now (JObj loaded)
       = Ok (fresh (Date_new (field "generated_at" tokenData)) now).
Proof.
  intros Hres.
  assert (Hno : lookup "expires_at" tokenData = None).
  { apply settled_by_flow_no_expiry.
    destruct (reachable_settled_by_flow cfg t0 d inputs) as [Hp|Hok];
      rewrite Hres in *; [discriminate|exact Hok]. }
  assert (Hund : field "expires_at" tokenData = JUndefined).
  { unfold field. now rewrite Hno. }
  repeat split; try assumption.
  intros now loaded Hsame.
  rewrite validateTokenExpiry_object. unfold valid_at.
  rewrite (same_fields_at "expires_at" _ _ Hsame) by (cbn; tauto).
  rewrite (same_fields_at "generated_at" _ _ Hsame) by (cbn; tauto).
  now rewrite Hund.
Qed.

(** *** Failure of the exchange, and [stop()] *)

(** X14. When the session exchange fails while the promise is pending, the
    promise is rejected with the wrapped reason, the caller gets the 500
    page, and the token store is left alone. *)
Theorem failed_exchange_rejects
  (st : state) (call : nat) (tok : string) (error : thrown) :
  awaiting call tok st ->
  promise st = Pending ->
  let reason := ErrorObj ("Session generation failed: " ++ message_of error) in
  exists st',
    step (SessionResult call (Throw error)) st = (st', Some (failure_page reason))
    /\ promise st' = Rejected reason
    /\ store st' = store st.
Proof.
  intros Hw Hp reason. cbn [step]. unfold awaiting in Hw. rewrite Hw.
  unfold fetch_resume. cbn [clock store set_calls].
  rewrite handleOAuthCallback_resume_cases. cbv zeta. fold reason.
  destruct st as [cfg clk prom tid srv tms nt cs nc sto lg].
  cbn in Hp. subst prom.
  unfold fetch_catch, cleanupAndReject, reject, settle, cleanup, clearTimeout,
    setTimeout.
  eexists. split; [reflexivity|]. destruct tid; cbn; auto.
Qed.

(** [stop()] shuts the listener down, and a second call changes nothing. *)
Theorem stop_idempotent (st : state) :
  server (stop st) = false /\ stop (stop st) = stop st.
Proof.
  destruct st as [cfg clk prom tid srv tms nt cs nc sto lg].
  unfold stop. destruct srv; cbn; auto.
Qed.

End WithPlatform.

(** *** On the reference platform *)

Import Examples.

(** C2, as stated, fails: the exchange succeeds, the token file cannot be
    written, and the promise is rejected; the caller gets the 500 page. *)
Lemma unwritable_store_rejects :
  let st1 := go [Request success_url] (flow read_only_disk) in
  step (H := Reference.platform) (SessionResult 0 (Ok session)) st1
  = (go [SessionResult 0 (Ok session)] st1,
     Some (mkResponse 500 "text/plain"
             "❌ Authentication failed: Error: Session generation failed: Failed to save token: EACCES: permission denied"))
  /\ promise (go [SessionResult 0 (Ok session)] st1)
     = Rejected (ErrorObj "Session generation failed: Failed to save token: EACCES: permission denied")
  /\ token_file (store (go [SessionResult 0 (Ok session)] st1)) = None.
Proof. vm_compute. repeat split; reflexivity. Qed.

Lemma exchanged_token_resolves_witness :
  let st2 := go [Request other_url; Request success_url; Request other_url;
                 Advance (NOW + 2000)]
                (flow empty_disk) in
  exists st3,
    step (H := Reference.platform) (SessionResult 0 (Ok session)) st2
    = (st3, Some SUCCESS_PAGE)
    /\ promise st3 = Resolved jane_exchanged
    /\ token_file (store st3) = Some (file_of jane_exchanged).
Proof.
  destruct (exchanged_token_resolves (H := Reference.platform)
              cfg NOW empty_disk [Request other_url]
              [Request other_url; Advance (NOW + 2000)]
              success_url "abc" session_fields)
    as (st3 & Hstep & _ & Hres & Hfile & _).
  - reflexivity.
  - reflexivity.
  - reflexivity.
  - reflexivity.
  - discriminate.
  - repeat constructor.
  - vm_compute. reflexivity.
  - vm_compute. reflexivity.
  - vm_compute. reflexivity.
  - exists st3. split; [|split].
    + vm_compute in Hstep |- *. exact Hstep.
    + vm_compute in Hres |- *. exact Hres.
    + vm_compute in Hfile |- *. exact Hfile.
Defined.

Lemma timeout_settles_once_witness :
  let st := go [Request other_url; Advance (NOW + 299999); Request other_url;
                Advance (NOW + 300000)]
               (flow empty_disk) in
  promise st = Rejected TIMEOUT_ERROR
  /\ server st = false
  /\ promise (go [Request success_url; SessionResult 0 (Ok session)] st)
     = Rejected TIMEOUT_ERROR.
Proof.
  destruct (timeout_settles_once (H := Reference.platform) cfg NOW empty_disk
              [Request other_url; Advance (NOW + 299999); Request other_url]
              [Request success_url; SessionResult 0 (Ok session)]
              (NOW + 300000))
    as (Hp & Hs & _ & Hafter & _).
  - repeat constructor; discriminate.
  - vm_compute. discriminate.
  - repeat split; assumption.
Defined.

Lemma failed_callback_rejects_witness :
  exists st',
    step (H := Reference.platform) (Request denied_url) (flow empty_disk)
    = (st', Some (mkResponse 500 "text/plain"
                    "❌ Authentication failed: Error: access_denied"))
    /\ promise st' = Rejected (ErrorObj "access_denied")
    /\ store st' = empty_disk.
Proof.
  destruct (failed_callback_rejects (H := Reference.platform)
              (flow empty_disk) denied_url)
    as (st' & Hstep & _ & Hp & Hstore & _).
  - reflexivity.
  - reflexivity.
  - reflexivity.
  - left. discriminate.
  - exists st'. repeat split; assumption.
Defined.

Lemma other_path_waits_witness :
  step (H := Reference.platform) (Request other_url) (flow empty_disk)
  = (flow empty_disk, Some WAITING).
Proof.
  apply (other_path_waits (H := Reference.platform)).
  - reflexivity.
  - discriminate.
Defined.

Lemma flow_token_decided_by_freshness_witness :
  validateTokenExpiry (H := Reference.platform) (NOW + 2000 + 5 * 3600000 - 1)
    (JObj jane_exchanged) = Ok true
  /\ validateTokenExpiry (H := Reference.platform) (NOW + 2000 + 5 * 3600000)
       (JObj jane_exchanged) = Ok false.
Proof.
  destruct (flow_token_decided_by_freshness (H := Reference.platform)
              cfg NOW empty_disk
              [Request success_url; Advance (NOW + 2000);
               SessionResult 0 (Ok session)]
              jane_exchanged)
    as (_ & _ & Hvalid).
  - vm_compute. reflexivity.
  - split; rewrite Hvalid by (repeat constructor); vm_compute; reflexivity.
Defined.

(** After the whole flow, the token file decides validity by the
    freshness of the record it holds. *)
Example flow_then_isTokenValid :
  let st := go [Request success_url; Advance (NOW + 2000);
                SessionResult 0 (Ok session)]
               (flow empty_disk) in
  isTokenValid (H := Reference.platform) (NOW + 2000 + 5 * 3600000 - 1) (store st)
  = (store st, Ok true)
  /\ isTokenValid (H := Reference.platform) (NOW + 2000 + 5 * 3600000) (store st)
     = (store st, Ok false).
Proof. vm_compute. split; reflexivity. Qed.

(** A callback that reaches the listener while an earlier exchange is
    still out, after the timeout has fired, saves its token and leaves the
    promise rejected. *)
Example late_exchange_keeps_timeout :
  let st := go [Request success_url; Advance (NOW + 300000);
                SessionResult 0 (Ok session)]
               (flow empty_disk) in
  promise st = Rejected TIMEOUT_ERROR
  /\ has_file (store st) = true.
Proof. vm_compute. split; reflexivity. Qed.

(** After a callback settled the flow the listener stays up for the grace
    delay, so that the response gets out, and is down once the delay has
    passed. *)
Example listener_closes_after_grace :
  let st := go [Advance (NOW + 5000); Request denied_url] (flow empty_disk) in
  server st = true
  /\ server (go [Advance (NOW + 5999)] st) = true
  /\ server (go [Advance (NOW + 6000)] st) = false
  /\ promise (go [Advance (NOW + 400000)] st) = Rejected (ErrorObj "access_denied").
Proof. vm_compute. repeat split; reflexivity. Qed.

End HandshakeProps.

(* ===================================================================== *)
(** ** More of the token store *)
(* ===================================================================== *)

Module TokenStoreExtras.
Import JS Fs TokenManager Spec TokenStoreProps.

Section WithPlatform.
Context `{Platform}.

Lemma getValidToken_stored (now : Z) (d : disk) :
  getValidToken now d
  = (d, Ok match stored d with
           | Some (JObj fields) =>
               if valid_at now fields then field "access_token" fields else JNull
           | _ => JNull
           end).
Proof.
  unfold getValidToken, bind. rewrite isTokenValid_stored.
  destruct (stored d) as [record|] eqn:E; [|reflexivity].
  destruct (stored_is_object _ _ E) as (fields & -> & Ha & _).
  destruct (valid_at now fields); cbn [negb]; [|reflexivity].
  rewrite loadToken_stored, E. cbn. unfold or_else. now rewrite Ha.
Qed.

Lemma getValidTokenData_stored (now : Z) (d : disk) :
  getValidTokenData now d
  = (d, Ok match stored d with
           | Some (JObj fields) =>
               if valid_at now fields then Some (JObj fields) else None
           | _ => None
           end).
Proof.
  unfold getValidTokenData, bind. rewrite isTokenValid_stored.
  destruct (stored d) as [record|] eqn:E; [|reflexivity].
  destruct (stored_is_object _ _ E) as (fields & -> & _).
  destruct (valid_at now fields); cbn [negb]; [|reflexivity].
  now rewrite loadToken_stored, E.
Qed.

(** X1. [getValidToken] and [getValidTokenData] read the disk without changing
    it and never throw.  [getValidToken] returns a truthy value exactly
    when [isTokenValid] answers true, the access token of the record
    [loadToken] finds, and [null] otherwise; [getValidTokenData] returns
    that record exactly when [isTokenValid] answers true, and [null]
    otherwise. *)
Theorem valid_token_handed_out_iff_valid (now : Z) (d : disk) :
  exists token data,
    getValidToken now d = (d, Ok token)
    /\ getValidTokenData now d = (d, Ok data)
    /\ (truthy token = true <-> isTokenValid now d = (d, Ok true))
    /\ (data <> None <-> isTokenValid now d = (d, Ok true))
    /\ (truthy token = false -> token = JNull)
    /\ (forall record, data = Some record ->
          loadToken d = (d, Ok (Some record))
          /\ get_prop record "access_token" = Ok token).
Proof.
  rewrite getValidToken_stored, getValidTokenData_stored, isTokenValid_stored,
    loadToken_stored.
  assert (Hno : forall (b : bool) (v : option jsval),
            b = false ->
            (truthy JNull = true <-> (d, @Ok bool b) = (d, Ok true))
            /\ (@None jsval <> None <-> (d, @Ok bool b) = (d, Ok true))
            /\ (truthy JNull = false -> JNull = JNull)
            /\ (forall record, None = Some record ->
                  (d, @Ok (option jsval) v) = (d, Ok (Some record))
                  /\ get_prop record "access_token" = Ok JNull)).
  { intros b v ->. split; [split; discriminate|].
    split; [split; [now intros Hd|discriminate]|].
    split; [reflexivity|discriminate]. }
  destruct (stored d) as [record|] eqn:E.
  - destruct (stored_is_object _ _ E) as (fields & -> & Ha & _).
    destruct (valid_at now fields) eqn:Ev; do 2 eexists;
      (split; [reflexivity|]); (split; [reflexivity|]); [|now apply Hno].
    rewrite Ha. split; [tauto|]. split; [split; [reflexivity|discriminate]|].
    split; [discriminate|]. intros record [= <-]. now split.
  - do 2 eexists; (split; [reflexivity|]); (split; [reflexivity|]).
    now apply Hno.
Qed.

Lemma valid_at_earlier (now later : Z) (fields : object) :
  now <= later -> valid_at later fields = true -> valid_at now fields = true.
Proof.
  unfold valid_at, before, fresh. intros Hle.
  destruct (truthy (field "expires_at" fields)).
  - destruct (Date_new (field "expires_at" fields)); [|discriminate].
    rewrite !Z.ltb_lt. lia.
  - destruct (Date_new (field "generated_at" fields)); [|discriminate].
    rewrite !Z.ltb_lt. lia.
Qed.

(** X2. A token file that is not valid now is not valid at any later time
    either, as long as the file stays as it is: validity is lost once and
    for all, by expiry or by a record that cannot be used. *)
Theorem expired_stays_expired (now later : Z) (d : disk) :
  now <= later ->
  isTokenValid now d = (d, Ok false) ->
  isTokenValid later d = (d, Ok false).
Proof.
  intros Hle. rewrite !isTokenValid_stored.
  destruct (stored d) as [[| |b|f|s|items|fields]|]; auto.
  destruct (valid_at later fields) eqn:E; [|reflexivity].
  now rewrite (valid_at_earlier now later fields Hle E).
Qed.

(** X3. A record with no timestamps of its own, saved at [now], is valid from
    then on for exactly five hours: [isTokenValid] answers true at every
    time less than five hours after [now], and false from five hours on.
    The platform is taken to read back the timestamp and the JSON text it
    printed, and the file to be readable. *)
Theorem saved_token_valid_for_five_hours
  (now t : Z) (tokenData : object) (d d' : disk) :
  non_empty (field "access_token" tokenData) ->
  non_empty (field "user_id" tokenData) ->
  truthy (field "generated_at" tokenData) = false ->
  truthy (field "expires_at" tokenData) = false ->
  Date_toISOString now <> "" ->
  Date_new (JStr (Date_toISOString now)) = Some now ->
  round_trips (completeTokenData now tokenData) ->
  read_error d = None ->
  saveToken now tokenData d = (d', Ok tt) ->
  isTokenValid t d' = (d', Ok (t - now <? 5 * 3600000)).
Proof.
  intros Ha Hu Hg He Hiso Hdate (loaded & Hparse & Hsame) Hread Hsave.
  rewrite isTokenValid_stored.
  pose proof (saved_record_loads now tokenData loaded d d'
                Ha Hu Hiso Hparse Hsame Hread Hsave) as Hload.
  rewrite loadToken_stored in Hload. injection Hload as ->.
  unfold valid_at.
  rewrite (same_fields_at "expires_at" _ _ Hsame) by (cbn; tauto).
  rewrite (same_fields_at "generated_at" _ _ Hsame) by (cbn; tauto).
  rewrite completeTokenData_other by discriminate.
  rewrite completeTokenData_generated_at. unfold or_else.
  now rewrite He, Hg, Hdate.
Qed.

(** X4. Once [clearToken] has returned nothing is handed out: the validity
    check answers false, and [getValidToken] and [getValidTokenData]
    return [null], at every time. *)
Theorem cleared_token_is_not_handed_out (now : Z) (d d' : disk) :
  clearToken d = (d', Ok tt) ->
  isTokenValid now d' = (d', Ok false)
  /\ getValidToken now d' = (d', Ok JNull)
  /\ getValidTokenData now d' = (d', Ok None).
Proof.
  rewrite clearToken_cases.
  intros Hclear.
  assert (Hnone : stored d' = None).
  { unfold stored. destruct (token_file d) as [text|] eqn:Ef.
    - destruct (unlink_error d); [discriminate|].
      injection Hclear as <-. reflexivity.
    - injection Hclear as <-. now rewrite Ef. }
  rewrite isTokenValid_stored, getValidToken_stored, getValidTokenData_stored.
  now rewrite Hnone.
Qed.


End WithPlatform.

Import Examples.

Lemma expired_stays_expired_witness :
  isTokenValid (H := Reference.platform) (NOW + 6 * 3600000)
    (disk_with (file_of jane_saved))
  = (disk_with (file_of jane_saved), Ok false).
Proof.
  apply (expired_stays_expired (H := Reference.platform)
           (NOW + 5 * 3600000) (NOW + 6 * 3600000)).
  - vm_compute. discriminate.
  - vm_compute. reflexivity.
Defined.

Lemma saved_token_valid_for_five_hours_witness :
  isTokenValid (H := Reference.platform) (NOW + 5 * 3600000 - 1)
    (disk_with (file_of jane_saved))
  = (disk_with (file_of jane_saved), Ok true).
Proof.
  apply (saved_token_valid_for_five_hours (H := Reference.platform)
           NOW (NOW + 5 * 3600000 - 1) jane empty_disk
           (disk_with (file_of jane_saved))).
  - exists "tok-123". split; [reflexivity|discriminate].
  - exists "AB1234". split; [reflexivity|discriminate].
  - reflexivity.
  - reflexivity.
  - vm_compute. discriminate.
  - vm_compute. reflexivity.
  - exact jane_round_trips.
  - reflexivity.
  - vm_compute. reflexivity.
Defined.

Lemma cleared_token_is_not_handed_out_witness :
  getValidToken (H := Reference.platform) NOW empty_disk = (empty_disk, Ok JNull).
Proof.
  apply (cleared_token_is_not_handed_out (H := Reference.platform)
           NOW (disk_with (file_of jane_saved)) empty_disk).
  reflexivity.
Defined.

End TokenStoreExtras.

(* ===================================================================== *)
(** ** Where the token file is *)
(* ===================================================================== *)

Module TokenLocationProps.
Import TokenLocation.

Section WithFileSystem.
Variable join : list string -> string.
Variable existsSync : string -> bool.
Variable dirname_of_url : string -> string.

Lemma first_existing_found (paths : list string) (p : string) :
  first_existing existsSync paths = Some p ->
  exists earlier later,
    paths = (earlier ++ p :: later)%list
    /\ Forall (fun q => existsSync q = false) earlier
    /\ existsSync p = true.
Proof.
  induction paths as [|q rest IH]; cbn; [discriminate|].
  destruct (existsSync q) eqn:E.
  - intros [= <-]. exists [], rest. split; [reflexivity|]. split; [constructor|exact E].
  - intros Hf. destruct (IH Hf) as (earlier & later & -> & Hall & Hp).
    exists (q :: earlier), later. split; [reflexivity|]. split; [|exact Hp].
    now constructor.
Qed.

Lemma first_existing_none (paths : list string) :
  first_existing existsSync paths = None ->
  Forall (fun q => existsSync q = false) paths.
Proof.
  induction paths as [|q rest IH]; cbn; [constructor|].
  destruct (existsSync q) eqn:E; [discriminate|]. intros Hf.
  constructor; [exact E|now apply IH].
Qed.

(** X6. A token manager constructed without a path takes as its token file
    the first of the four candidate locations at which a file exists
    (beside the script, one directory up, the working directory, two
    directories up), and the location beside the script when there is a
    file at none of them; an empty path counts as no path, any other path
    is taken as it is. *)
Theorem findTokenFile_first_existing (rt : runtime) :
  let chosen := findTokenFile join existsSync dirname_of_url rt in
  let candidates := tokenPaths join dirname_of_url rt in
  (exists earlier later,
     candidates = (earlier ++ chosen :: later)%list
     /\ Forall (fun p => existsSync p = false) earlier
     /\ (existsSync chosen = true
         \/ (earlier = [] /\ Forall (fun p => existsSync p = false) later)))
  /\ getTokenFilePath join existsSync dirname_of_url None rt = chosen
  /\ getTokenFilePath join existsSync dirname_of_url (Some "") rt = chosen
  /\ (forall p, p <> "" ->
        getTokenFilePath join existsSync dirname_of_url (Some p) rt = p).
Proof.
  intros chosen candidates. split; [|split; [reflexivity|split; [reflexivity|]]].
  - unfold chosen, findTokenFile. fold candidates.
    destruct (first_existing existsSync candidates) as [p|] eqn:E.
    + destruct (first_existing_found _ _ E) as (earlier & later & Hc & Hall & Hp).
      exists earlier, later. auto.
    + apply first_existing_none in E.
      unfold candidates, tokenPaths in *. cbv zeta in *.
      eexists [], _. split; [reflexivity|]. split; [constructor|].
      right. split; [reflexivity|]. now inversion E.
  - intros p Hp. unfold getTokenFilePath.
    apply String.eqb_neq in Hp. now rewrite Hp.
Qed.

End WithFileSystem.

End TokenLocationProps.

(* ===================================================================== *)
(** ** More of the handshake *)
(* ===================================================================== *)

Module HandshakeExtras.
Import JS Fs TokenManager OAuthServer Spec TokenStoreProps HandshakeProps FlowInvariants.

Section WithPlatform.
Context `{Platform}.

Ltac open_flow st :=
  destruct st as [cfg clk prom tid srv tms nt cs nc sto lg];
  unfold fetch_then, fetch_catch, cleanupAndResolve, cleanupAndReject, resolve,
    reject, settle, cleanup, clearTimeout, setTimeout, stop, generateSession;
  cbn.

Lemma timer_ok_later (t0 b b' : Z) (t : timer) :
  b <= b' -> timer_ok t0 b t -> timer_ok t0 b' t.
Proof.
  intros Hb [E|(Hid & Ha & Hd)]; [now left|right]. repeat split; auto. lia.
Qed.

Lemma server_fire (a : timer_action) (st : state) : server (fire a st) = false.
Proof.
  destruct a; open_flow st; destruct srv, tid, prom; reflexivity.
Qed.

Lemma fire_each_down (due_now : list timer) (st : state) :
  server st = false -> server (fire_each due_now st) = false.
Proof.
  revert st. induction due_now as [|t rest IH]; intros st Hs; cbn [fire_each];
    [exact Hs|].
  apply IH. destruct (is_armed (timer_id t) st); [apply server_fire|exact Hs].
Qed.

(** A turn of the timers leaves the flow as it was, or leaves the listener
    down: both callbacks call [stop()]. *)
Lemma fire_each_same_or_down (due_now : list timer) (st : state) :
  fire_each due_now st = st \/ server (fire_each due_now st) = false.
Proof.
  revert st. induction due_now as [|t rest IH]; intros st; cbn [fire_each];
    [now left|].
  destruct (is_armed (timer_id t) st).
  - right. apply fire_each_down, server_fire.
  - apply IH.
Qed.

Lemma fetch_catch_server (error : thrown) (st : state) :
  server (fst (fetch_catch error st)) = server st.
Proof. open_flow st. destruct tid, prom; reflexivity. Qed.

Lemma fetch_then_server (tokenData : object) (st : state) :
  server (fst (fetch_then tokenData st)) = server st.
Proof. open_flow st. destruct tid, prom; reflexivity. Qed.

Lemma fetch_resume_server (session : result jsval) (st : state) :
  server (fst (fetch_resume session st)) = server st.
Proof.
  unfold fetch_resume.
  destruct (handleOAuthCallback_resume (clock st) session (store st))
    as [d' [tokenData|error]].
  - now rewrite fetch_then_server.
  - now rewrite fetch_catch_server.
Qed.

(** Nothing opens the listener again. *)
Lemma step_down (i : input) (st : state) :
  server st = false -> server (fst (step i st)) = false.
Proof.
  intros Hs. destruct i as [t|url|call session|]; cbn [step fst].
  - unfold advance. now apply fire_each_down.
  - now rewrite Hs.
  - destruct (find_call call (calls st)); [|exact Hs].
    match goal with
    | |- context [fetch_resume session ?s] =>
        pose proof (fetch_resume_server session s) as He;
        destruct (fetch_resume session s)
    end.
    cbn [fst] in *. now rewrite He.
  - unfold stop. now rewrite Hs.
Qed.

Lemma run_down (inputs : list input) (st : state) :
  server st = false -> server (run inputs st) = false.
Proof.
  revert st. induction inputs as [|i rest IH]; intros st Hs; cbn [run];
    [exact Hs|].
  apply IH. now apply step_down.
Qed.

(** *** The timers of a flow *)

Lemma fire_timers (a : timer_action) (st : state) (t : timer) :
  In t (timers (fire a st)) -> In t (timers st).
Proof.
  destruct a; open_flow st; destruct srv, tid, prom; cbn; auto;
    intros Hin; apply filter_In in Hin; tauto.
Qed.

Lemma fire_each_timers (due_now : list timer) (st : state) (t : timer) :
  In t (timers (fire_each due_now st)) -> In t (timers st).
Proof.
  revert st. induction due_now as [|u rest IH]; intros st Hin; cbn [fire_each] in Hin;
    [exact Hin|].
  apply IH in Hin. destruct (is_armed (timer_id u) st); [|exact Hin].
  apply fire_timers in Hin. cbn in Hin. apply filter_In in Hin. tauto.
Qed.

(** A timer that had its turn is not armed afterwards. *)
Lemma fire_each_disarms (due_now : list timer) (st : state) (u t : timer) :
  In u due_now -> In t (timers (fire_each due_now st)) ->
  timer_id t <> timer_id u.
Proof.
  revert st. induction due_now as [|v rest IH]; intros st Hu Hin; [destruct Hu|].
  cbn [fire_each] in Hin. destruct Hu as [->|Hu]; [|now apply (IH _ Hu Hin)].
  apply fire_each_timers in Hin.
  destruct (is_armed (timer_id u) st) eqn:Ea.
  - apply fire_timers in Hin. cbn in Hin. apply filter_In in Hin as [_ Hk].
    unfold keep_other in Hk. now rewrite negb_true_iff, Nat.eqb_neq in Hk.
  - intros Heq. unfold is_armed in Ea.
    assert (Hex : existsb (fun x => Nat.eqb (timer_id x) (timer_id u)) (timers st) = true).
    { apply existsb_exists. exists t. split; [exact Hin|]. now apply Nat.eqb_eq. }
    congruence.
Qed.

Lemma In_insert_by_due (t u : timer) (sorted : list timer) :
  In t (insert_by_due u sorted) <-> t = u \/ In t sorted.
Proof.
  induction sorted as [|v rest IH]; cbn.
  - intuition congruence.
  - destruct (due u <=? due v); cbn; rewrite ?IH; intuition congruence.
Qed.

Lemma In_sort_by_due (t : timer) (ts : list timer) :
  In t (sort_by_due ts) <-> In t ts.
Proof.
  induction ts as [|u rest IH]; cbn; [tauto|].
  rewrite In_insert_by_due, IH. intuition congruence.
Qed.

Lemma fire_each_clock (due_now : list timer) (st : state) :
  clock (fire_each due_now st) = clock st.
Proof.
  revert st. induction due_now as [|u rest IH]; intros s; cbn [fire_each];
    [reflexivity|].
  rewrite IH. destruct (is_armed (timer_id u) s); [|reflexivity].
  destruct (action u); open_flow s; destruct srv, tid, prom; reflexivity.
Qed.

(** After the clock has moved no armed timer is overdue. *)
Lemma advance_none_overdue (t : Z) (st : state) :
  Forall (fun x => clock (advance t st) < due x) (timers (advance t st)).
Proof.
  apply Forall_forall. intros x Hx.
  destruct (Z.ltb_spec (clock (advance t st)) (due x)) as [Hlt|Hle]; [exact Hlt|].
  exfalso. unfold advance in *.
  set (st1 := set_clock (Z.max (clock st) t) st) in *.
  set (due_now := sort_by_due (filter (fun x => due x <=? clock st1) (timers st1))) in *.
  rewrite fire_each_clock in Hle.
  assert (Hin : In x due_now).
  { apply In_sort_by_due, filter_In. split.
    - now apply fire_each_timers in Hx.
    - now apply Z.leb_le. }
  now apply (fire_each_disarms _ _ _ _ Hin Hx).
Qed.

(** *** The invariant *)

Lemma sound_firing_later (t0 b b' : Z) (st : state) :
  b <= b' -> sound_firing t0 b st -> sound_firing t0 b' st.
Proof.
  intros Hb (Hid & Hnt & Hall & Hp & Hs). repeat split; auto.
  eapply Forall_impl; [|exact Hall]. intros t. now apply timer_ok_later.
Qed.

Lemma sound_firing_turn (t0 b : Z) (u : timer) (st : state) :
  timer_ok t0 b u -> sound_firing t0 b st ->
  sound_firing t0 b
    (fire (action u)
       (set_timers (filter (keep_other (timer_id u)) (timers st)) (next_timer st) st)).
Proof.
  intros Hu (Hid & Hnt & Hall & Hp & Hs).
  destruct st as [cfg clk prom tid srv tms nt cs nc sto lg]. cbn in *. subst tid.
  assert (Hkeep : forall f, Forall (timer_ok t0 b) (filter f tms)).
  { intros f. now apply Forall_filter_keeps. }
  destruct Hu as [->|(Hu1 & Hu2 & _)].
  - (* the timeout timer *)
    unfold sound_firing, timeout_timer. cbn.
    unfold cleanupAndReject, reject, settle, cleanup, clearTimeout, stop. cbn.
    destruct srv, prom; cbn; repeat split; auto using Forall_filter_keeps;
      try discriminate.
  - rewrite Hu2. unfold sound_firing. cbn. unfold stop. cbn.
    assert (Hin : prom = Pending ->
                  In (timeout_timer t0) (filter (keep_other (timer_id u)) tms)).
    { intros E. apply filter_In. split; [auto|].
      unfold keep_other, timeout_timer. cbn [timer_id].
      apply negb_true_iff, Nat.eqb_neq. congruence. }
    destruct srv; cbn; repeat split; auto.
Qed.

Lemma sound_firing_each (t0 b : Z) (due_now : list timer) (st : state) :
  Forall (timer_ok t0 b) due_now -> sound_firing t0 b st ->
  sound_firing t0 b (fire_each due_now st).
Proof.
  intros Hall. revert st.
  induction Hall as [|u rest Hu _ IH]; intros st Hs; cbn [fire_each]; [exact Hs|].
  apply IH. destruct (is_armed (timer_id u) st); [|exact Hs].
  now apply sound_firing_turn.
Qed.

Lemma sound_split (t0 : Z) (st : state) :
  sound t0 st
  <-> sound_firing t0 (clock st) st
      /\ Forall (fun t => clock st < due t) (timers st).
Proof. unfold sound, sound_firing. tauto. Qed.

Lemma sound_advance (t0 t : Z) (st : state) :
  sound t0 st -> sound t0 (advance t st).
Proof.
  intros Hs. apply sound_split. split; [|apply advance_none_overdue].
  apply sound_split in Hs as [Hf _].
  unfold advance. rewrite fire_each_clock.
  set (st1 := set_clock (Z.max (clock st) t) st).
  assert (Hf1 : sound_firing t0 (clock st1) st1).
  { apply (sound_firing_later t0 (clock st)); [cbn; lia|].
    destruct st; exact Hf. }
  apply sound_firing_each; [|exact Hf1].
  apply Forall_forall. intros x Hx.
  apply In_sort_by_due, filter_In in Hx as [Hx _].
  destruct Hf1 as (_ & _ & Hall & _).
  rewrite Forall_forall in Hall. now apply Hall.
Qed.

Lemma sound_stop (t0 : Z) (st : state) : sound t0 st -> sound t0 (stop st).
Proof.
  destruct st as [cfg clk prom tid srv tms nt cs nc sto lg].
  unfold sound, stop. destruct srv; cbn; [|tauto].
  intros (Hid & Hnt & Hall & Hdue & Hp & Hs). repeat split; auto.
Qed.

(** A callback settles the promise and arms the shutdown timer. *)
Lemma sound_settled (t0 : Z) (outcome : settlement) (st : state) :
  outcome <> Pending -> sound t0 st ->
  sound t0 (snd (setTimeout Shutdown GRACE_MS (settle outcome (cleanup st)))).
Proof.
  intros Ho (Hid & Hnt & Hall & Hdue & Hp & Hs).
  destruct st as [cfg clk prom tid srv tms nt cs nc sto lg]. cbn in *. subst tid.
  assert (Hnew : timer_ok t0 clk (mkTimer nt (clk + GRACE_MS) Shutdown)).
  { right. cbn. repeat split; [lia|lia]. }
  assert (Hlast : exists t,
             In t (filter (keep_other 1) tms ++ [mkTimer nt (clk + GRACE_MS) Shutdown])
             /\ timer_id t <> 1%nat).
  { eexists. split; [apply in_or_app; right; now left|cbn; lia]. }
  unfold sound, setTimeout, settle, cleanup, clearTimeout. cbn.
  destruct prom; cbn; (split; [reflexivity|]); (split; [lia|]);
    (split; [apply Forall_app; split;
               [now apply Forall_filter_keeps|now constructor]|]);
    (split; [apply Forall_app; split;
               [now apply Forall_filter_keeps
               |constructor; [unfold GRACE_MS; cbn; lia|constructor]]|]);
    split; auto; try discriminate; try contradiction.
Qed.

Lemma sound_frame (t0 : Z) (st st' : state) :
  clock st' = clock st -> promise st' = promise st ->
  timeoutId st' = timeoutId st -> server st' = server st ->
  timers st' = timers st -> next_timer st' = next_timer st ->
  sound t0 st -> sound t0 st'.
Proof. unfold sound. now intros -> -> -> -> -> ->. Qed.

Lemma sound_start (cfg : Config) (t0 : Z) (d : disk) :
  sound t0 (startAuthFlow cfg t0 d).
Proof.
  unfold sound, startAuthFlow, AUTH_TIMEOUT_MS. cbn.
  split; [reflexivity|]. split; [lia|]. split.
  { constructor; [now left|constructor]. }
  split.
  { constructor; [cbn; lia|constructor]. }
  split; [intros _; now left|]. intros Hp. now destruct Hp.
Qed.

Lemma sound_step (t0 : Z) (i : input) (st : state) :
  sound t0 st -> sound t0 (fst (step i st)).
Proof.
  intros Hs. destruct i as [t|url|call session|]; cbn [step fst].
  - now apply sound_advance.
  - destruct (server st); [|exact Hs]. unfold fetch.
    destruct (String.eqb (pathname url) CALLBACK_PATH); [|exact Hs].
    destruct (handleOAuthCallback_check url) as [error|requestToken].
    + unfold fetch_catch, cleanupAndReject, reject. cbn [fst].
      now apply sound_settled.
    + now apply (sound_frame t0 st).
  - destruct (find_call call (calls st)); [|exact Hs].
    unfold fetch_resume. cbn [clock store set_calls].
    destruct (handleOAuthCallback_resume (clock st) session (store st))
      as [d' [tokenData|error]].
    + unfold fetch_then, cleanupAndResolve, resolve. cbn [fst].
      apply sound_settled; [discriminate|]. now apply (sound_frame t0 st).
    + unfold fetch_catch, cleanupAndReject, reject. cbn [fst].
      apply sound_settled; [discriminate|]. now apply (sound_frame t0 st).
  - now apply sound_stop.
Qed.

Lemma sound_run (t0 : Z) (inputs : list input) (st : state) :
  sound t0 st -> sound t0 (run inputs st).
Proof.
  revert st. induction inputs as [|i rest IH]; intros st Hs; cbn [run];
    [exact Hs|].
  apply IH. now apply sound_step.
Qed.

(** *** The deadline *)

(** X7. In every run of a flow started at [t0] the promise has settled once
    the clock reads [t0] plus five minutes: a pending promise has its
    timeout timer armed, and no armed timer is overdue. *)
Theorem settled_by_deadline
  (cfg : Config) (t0 : Z) (d : disk) (inputs : list input) :
  let st := run inputs (startAuthFlow cfg t0 d) in
  t0 + AUTH_TIMEOUT_MS <= clock st -> promise st <> Pending.
Proof.
  intros st Hlate Hp.
  destruct (sound_run t0 inputs _ (sound_start cfg t0 d))
    as (_ & _ & _ & Hdue & Hin & _).
  fold st in Hdue, Hin. specialize (Hin Hp).
  rewrite Forall_forall in Hdue. specialize (Hdue _ Hin).
  unfold timeout_timer in Hdue. cbn [due] in Hdue. lia.
Qed.

(** *** The listener after the promise has settled *)

(** X8. In every run of a flow, once the promise has settled the listener is
    down as soon as the clock has moved on by the grace delay of one
    second, and whatever happens then it stays down. *)
Theorem listener_down_after_grace
  (cfg : Config) (t0 : Z) (d : disk) (inputs more : list input) (t : Z) :
  let st := run inputs (startAuthFlow cfg t0 d) in
  promise st <> Pending ->
  clock st + GRACE_MS <= t ->
  server (run (Advance t :: more) st) = false.
Proof.
  intros st Hp Ht. cbn [run step fst]. apply run_down.
  pose proof (sound_run t0 inputs _ (sound_start cfg t0 d)) as Hs.
  fold st in Hs.
  destruct Hs as (_ & _ & Hall & _ & _ & Hdown).
  destruct (Hdown Hp) as [Hoff|(u & Hu & Hid)].
  - unfold advance. now apply fire_each_down.
  - rewrite Forall_forall in Hall.
    destruct (Hall _ Hu) as [->|(_ & _ & Hgrace)]; [now destruct Hid|].
    pose proof (advance_none_overdue t st) as Hnone.
    pose proof (advance_clock t st) as Hclock.
    unfold advance in *.
    set (st1 := set_clock (Z.max (clock st) t) st) in *.
    destruct (fire_each_same_or_down
                (sort_by_due (filter (fun x => due x <=? clock st1) (timers st1)))
                st1) as [Hsame|Hoff]; [|exact Hoff].
    rewrite Hsame in Hnone, Hclock.
    rewrite Forall_forall in Hnone.
    assert (Hu1 : In u (timers st1)) by (destruct st; exact Hu).
    specialize (Hnone _ Hu1). lia.
Qed.

(** *** [stop()] *)

(** X9. After [stop()] the flow serves no request, whatever happened in
    between: nothing opens the listener again. *)
Theorem stopped_flow_serves_nothing
  (st : state) (inputs : list input) (url : URL) :
  let st' := run inputs (stop st) in
  step (Request url) st' = (st', None).
Proof.
  intros st'. cbn [step].
  assert (Hs : server st' = false).
  { apply run_down. unfold stop. destruct (server st) eqn:E; [reflexivity|exact E]. }
  now rewrite Hs.
Qed.

Lemma quiet_down_step (t0 : Z) (i : input) (st : state) :
  quiet t0 st -> server st = false ->
  quiet t0 (fst (step i st)) /\ server (fst (step i st)) = false.
Proof.
  intros Hq Hs. split; [|now apply step_down].
  destruct i as [t|url|call session|].
  - now apply quiet_step.
  - cbn [step]. now rewrite Hs.
  - now apply quiet_step.
  - now apply quiet_step.
Qed.

Lemma quiet_down_run (t0 : Z) (inputs : list input) (st : state) :
  quiet t0 st -> server st = false -> quiet t0 (run inputs st).
Proof.
  revert st. induction inputs as [|i rest IH]; intros st Hq Hs; cbn [run];
    [exact Hq|].
  destruct (quiet_down_step t0 i st Hq Hs). now apply IH.
Qed.

(** X10. [stop()] does not settle the promise.  When it is called on a flow
    that no callback has reached, no later request or exchange settles the
    promise either: it stays pending until the clock reads the start plus
    five minutes, and is rejected with the timeout error from then on. *)
Theorem stopped_flow_only_times_out
  (cfg : Config) (t0 : Z) (d : disk) (earlier later : list input) :
  Forall no_callback earlier ->
  let st := run (earlier ++ Stop :: later) (startAuthFlow cfg t0 d) in
  (promise st = Pending /\ clock st < t0 + AUTH_TIMEOUT_MS)
  \/ (promise st = Rejected TIMEOUT_ERROR /\ t0 + AUTH_TIMEOUT_MS <= clock st).
Proof.
  intros Hearlier st.
  assert (Hq : quiet t0 st).
  { unfold st. rewrite run_app. cbn [run step fst].
    apply quiet_down_run.
    - apply (quiet_step t0 Stop); [exact I|].
      apply quiet_run; [exact Hearlier|apply startAuthFlow_quiet].
    - unfold stop.
      destruct (server (run earlier (startAuthFlow cfg t0 d))) eqn:E;
        [reflexivity|exact E]. }
  destruct Hq as (_ & _ & [(Hp & _ & Hc)|(Hp & _ & _ & Hc)]); [left|right];
    now split.
Qed.

(** *** An exchange that answers after the promise has settled *)

(** X11. When an exchange answers with a session object after the promise has
    settled (the timeout has fired, or another callback came first), the
    record is still saved and the browser still gets the success page,
    while the promise keeps the outcome it had. *)
Theorem late_exchange_saves_token
  (st : state) (call : nat) (tok : string) (response : object) :
  awaiting call tok st ->
  promise st <> Pending ->
  write_error (store st) = None ->
  mkdir_error (store st) = None ->
  let tokenData : object :=
    [ ("access_token", field "access_token" response);
      ("refresh_token", field "refresh_token" response);
      ("user_id", field "user_id" response);
      ("user_name", field "user_name" response);
      ("generated_at", JStr (Date_toISOString (clock st))) ] in
  exists st',
    step (SessionResult call (Ok (JObj response))) st = (st', Some SUCCESS_PAGE)
    /\ promise st' = promise st
    /\ token_file (store st') = Some (JSON_stringify (JObj tokenData)).
Proof.
  intros Hw Hp Hwrite Hmkdir tokenData.
  cbn [step]. unfold awaiting in Hw. rewrite Hw.
  unfold fetch_resume. cbn [clock store set_calls].
  rewrite handleOAuthCallback_resume_cases. cbv zeta. fold tokenData.
  destruct (saveToken_writable (clock st) tokenData (store st) Hwrite Hmkdir)
    as [d' Hsave].
  rewrite Hsave.
  destruct (saveToken_returns _ _ _ _ Hsave) as (Hfile & _ & _).
  unfold tokenData in Hfile. rewrite completeTokenData_fixed in Hfile.
  fold tokenData in Hfile.
  open_flow st. cbn in Hp.
  eexists. split; [reflexivity|].
  destruct tid, prom; cbn; try contradiction; auto.
Qed.

(** *** What touches the token store *)

Lemma fire_each_store (due_now : list timer) (st : state) :
  store (fire_each due_now st) = store st.
Proof.
  revert st. induction due_now as [|u rest IH]; intros s; cbn [fire_each];
    [reflexivity|].
  rewrite IH. destruct (is_armed (timer_id u) s); [|reflexivity].
  destruct (action u); open_flow s; destruct srv, tid, prom; reflexivity.
Qed.

Lemma fetch_catch_store (error : thrown) (st : state) :
  store (fst (fetch_catch error st)) = store st.
Proof. open_flow st. destruct tid, prom; reflexivity. Qed.

Lemma fetch_then_store (tokenData : object) (st : state) :
  store (fst (fetch_then tokenData st)) = store st.
Proof. open_flow st. destruct tid, prom; reflexivity. Qed.

Lemma step_store (i : input) (st : state) :
  no_session i -> store (fst (step i st)) = store st.
Proof.
  intros Hi. destruct i as [t|url|call session|]; cbn [step fst].
  - unfold advance. now rewrite fire_each_store.
  - destruct (server st); [|reflexivity]. unfold fetch.
    destruct (String.eqb (pathname url) CALLBACK_PATH); [|reflexivity].
    destruct (handleOAuthCallback_check url) as [error|requestToken].
    + pose proof (fetch_catch_store error st) as He.
      now destruct (fetch_catch error st).
    + reflexivity.
  - destruct session as [v|e]; [destruct Hi|].
    destruct (find_call call (calls st)); [|reflexivity].
    unfold fetch_resume. cbn [clock store set_calls].
    rewrite handleOAuthCallback_resume_cases. cbv zeta.
    match goal with
    | |- context [fetch_catch ?e ?s] =>
        pose proof (fetch_catch_store e s) as He; destruct (fetch_catch e s)
    end.
    cbn [fst] in *. now rewrite He.
  - unfold stop. now destruct (server st).
Qed.

(** X12. The token store changes only when an exchange answered with a
    session: requests, failed exchanges, the timers and [stop()] leave the
    disk as it was. *)
Theorem store_changes_only_on_exchange (inputs : list input) (st : state) :
  Forall no_session inputs -> store (run inputs st) = store st.
Proof.
  intros Hall. revert st.
  induction Hall as [|i rest Hi _ IH]; intros st; cbn [run]; [reflexivity|].
  rewrite IH. now apply step_store.
Qed.

(** *** A resolved promise *)








(** *** The listener while the promise is pending *)

Lemma fetch_catch_settles (error : thrown) (st : state) :
  promise (fst (fetch_catch error st)) <> Pending.
Proof. open_flow st. destruct tid, prom; cbn; discriminate. Qed.

Lemma fetch_then_settles (tokenData : object) (st : state) :
  promise (fst (fetch_then tokenData st)) <> Pending.
Proof. open_flow st. destruct tid, prom; cbn; discriminate. Qed.

Lemma fetch_catch_timeoutId (error : thrown) (st : state) :
  timeoutId (fst (fetch_catch error st)) = timeoutId st.
Proof. open_flow st. destruct tid, prom; reflexivity. Qed.

Lemma fetch_then_timeoutId (tokenData : object) (st : state) :
  timeoutId (fst (fetch_then tokenData st)) = timeoutId st.
Proof. open_flow st. destruct tid, prom; reflexivity. Qed.

Lemma fire_each_timeoutId (due_now : list timer) (st : state) :
  timeoutId (fire_each due_now st) = timeoutId st.
Proof.
  revert st. induction due_now as [|u rest IH]; intros s; cbn [fire_each];
    [reflexivity|].
  rewrite IH. destruct (is_armed (timer_id u) s); [|reflexivity].
  destruct (action u); open_flow s; destruct srv, tid, prom; reflexivity.
Qed.

Lemma listening_start (cfg : Config) (t0 : Z) (d : disk) :
  listening t0 (startAuthFlow cfg t0 d).
Proof. unfold listening, startAuthFlow. cbn. auto. Qed.

Lemma listening_step (t0 : Z) (i : input) (st : state) :
  no_stop i -> listening t0 st -> listening t0 (fst (step i st)).
Proof.
  intros Hi Hlis. pose proof Hlis as [Hid Hl].
  destruct i as [t|url|call session|]; cbn [step fst].
  - (* the clock moves *)
    split; [unfold advance; now rewrite fire_each_timeoutId|].
    intros Hp.
    assert (Hbefore : promise st = Pending).
    { destruct (advance_evolves t st) as [E|[E _]]; congruence. }
    destruct (Hl Hbefore) as [Hs Ht].
    destruct st as [cfg clk prom tid srv tms nt cs nc sto lg].
    cbn in Hid, Hs, Ht, Hbefore. subst tid srv tms prom.
    revert Hp. unfold advance. cbn [set_clock clock timers filter due timeout_timer].
    destruct (t0 + AUTH_TIMEOUT_MS <=? Z.max clk t); cbn; [discriminate|auto].
  - destruct (server st) eqn:Hs; [|exact Hlis]. unfold fetch.
    destruct (String.eqb (pathname url) CALLBACK_PATH); [|exact Hlis].
    destruct (handleOAuthCallback_check url) as [error|requestToken].
    + pose proof (fetch_catch_settles error st) as Hset.
      pose proof (fetch_catch_timeoutId error st) as Ht.
      destruct (fetch_catch error st) as [st' r]. cbn [fst] in *.
      split; [congruence|]. intros Hp. contradiction.
    + exact Hlis.
  - destruct (find_call call (calls st)); [|exact Hlis].
    unfold fetch_resume. cbn [clock store set_calls].
    destruct (handleOAuthCallback_resume (clock st) session (store st))
      as [d' [tokenData|error]].
    + match goal with
      | |- context [fetch_then tokenData ?s] =>
          pose proof (fetch_then_settles tokenData s) as Hset;
          pose proof (fetch_then_timeoutId tokenData s) as Ht;
          destruct (fetch_then tokenData s) as [st' r]
      end.
      cbn [fst] in *. split; [now rewrite Ht|]. intros Hp. contradiction.
    + match goal with
      | |- context [fetch_catch error ?s] =>
          pose proof (fetch_catch_settles error s) as Hset;
          pose proof (fetch_catch_timeoutId error s) as Ht;
          destruct (fetch_catch error s) as [st' r]
      end.
      cbn [fst] in *. split; [now rewrite Ht|]. intros Hp. contradiction.
  - destruct Hi.
Qed.

Lemma listening_run (t0 : Z) (inputs : list input) (st : state) :
  Forall no_stop inputs -> listening t0 st -> listening t0 (run inputs st).
Proof.
  intros Hall. revert st.
  induction Hall as [|i rest Hi _ IH]; intros st Hl; cbn [run]; [exact Hl|].
  apply IH. now apply listening_step.
Qed.

(** X25. As long as nobody calls [stop()], the listener is up for as long as
    the promise is pending: whatever requests, exchange answers and timers
    came before, a flow whose promise is pending serves the next request,
    and its timeout is the only timer armed.  The listener closes only
    after the promise has settled. *)
Theorem listener_up_while_pending
  (cfg : Config) (t0 : Z) (d : disk) (inputs : list input) (url : URL) :
  Forall no_stop inputs ->
  let st := run inputs (startAuthFlow cfg t0 d) in
  promise st = Pending ->
  server st = true
  /\ timers st = [timeout_timer t0]
  /\ step (Request url) st = fetch url st.
Proof.
  intros Hall st Hp.
  destruct (listening_run t0 inputs _ Hall (listening_start cfg t0 d)) as [_ Hl].
  destruct (Hl Hp) as [Hs Ht]. fold st in Hs, Ht.
  split; [exact Hs|]. split; [exact Ht|]. cbn [step]. now rewrite Hs.
Qed.

End WithPlatform.

(** *** On the reference platform *)

Import Examples.

Lemma settled_by_deadline_witness :
  promise (go [Request other_url; Advance (NOW + 300000)] (flow empty_disk))
  <> Pending.
Proof.
  apply (settled_by_deadline (H := Reference.platform) cfg NOW empty_disk
           [Request other_url; Advance (NOW + 300000)]).
  vm_compute. discriminate.
Defined.

Lemma listener_down_after_grace_witness :
  server (go [Advance (NOW + 6000); Request success_url]
             (go [Advance (NOW + 5000); Request denied_url] (flow empty_disk)))
  = false.
Proof.
  apply (listener_down_after_grace (H := Reference.platform) cfg NOW empty_disk
           [Advance (NOW + 5000); Request denied_url] [Request success_url]
           (NOW + 6000)).
  - vm_compute. discriminate.
  - vm_compute. discriminate.
Defined.

Lemma stopped_flow_only_times_out_witness :
  promise (go [Request other_url; Stop; Request success_url;
               SessionResult 0 (Ok session); Advance (NOW + 300000)]
              (flow empty_disk))
  = Rejected TIMEOUT_ERROR.
Proof.
  destruct (stopped_flow_only_times_out (H := Reference.platform)
              cfg NOW empty_disk [Request other_url]
              [Request success_url; SessionResult 0 (Ok session);
               Advance (NOW + 300000)])
    as [(_ & Hc)|(Hp & _)].
  - repeat constructor. discriminate.
  - vm_compute in Hc. discriminate Hc.
  - exact Hp.
Defined.

Lemma late_exchange_saves_token_witness :
  let st := go [Request success_url; Advance (NOW + 300000)] (flow empty_disk) in
  exists st',
    step (H := Reference.platform) (SessionResult 0 (Ok session)) st
    = (st', Some SUCCESS_PAGE)
    /\ promise st' = Rejected TIMEOUT_ERROR
    /\ has_file (store st') = true.
Proof.
  destruct (late_exchange_saves_token (H := Reference.platform)
              (go [Request success_url; Advance (NOW + 300000)] (flow empty_disk))
              0 "abc" session_fields)
    as (st' & Hstep & Hp & Hfile).
  - vm_compute. reflexivity.
  - vm_compute. discriminate.
  - reflexivity.
  - reflexivity.
  - exists st'. split; [|split].
    + vm_compute in Hstep |- *. exact Hstep.
    + vm_compute in Hp |- *. exact Hp.
    + unfold has_file. now rewrite Hfile.
Defined.

Lemma store_changes_only_on_exchange_witness :
  store (go [Request success_url; SessionResult 0 (Throw (ErrorObj "Token is invalid"));
             Advance (NOW + 300000); Stop]
            (flow (disk_with (file_of jane_saved))))
  = disk_with (file_of jane_saved).
Proof.
  apply (store_changes_only_on_exchange (H := Reference.platform)
           [Request success_url; SessionResult 0 (Throw (ErrorObj "Token is invalid"));
            Advance (NOW + 300000); Stop]
           (flow (disk_with (file_of jane_saved)))).
  repeat constructor.
Defined.


Lemma failed_exchange_rejects_witness :
  exists st',
    step (H := Reference.platform)
      (SessionResult 0 (Throw (ErrorObj "Token is invalid or has expired.")))
      (go [Request success_url] (flow empty_disk))
    = (st', Some (mkResponse 500 "text/plain"
                    "❌ Authentication failed: Error: Session generation failed: Token is invalid or has expired."))
    /\ promise st'
       = Rejected (ErrorObj "Session generation failed: Token is invalid or has expired.")
    /\ store st' = empty_disk.
Proof.
  destruct (failed_exchange_rejects (H := Reference.platform)
              (go [Request success_url] (flow empty_disk)) 0 "abc"
              (ErrorObj "Token is invalid or has expired."))
    as (st' & Hstep & Hp & Hstore).
  - reflexivity.
  - reflexivity.
  - exists st'. split; [|split].
    + vm_compute in Hstep |- *. exact Hstep.
    + exact Hp.
    + exact Hstore.
Defined.

Lemma listener_up_while_pending_witness :
  step (H := Reference.platform) (Request other_url)
    (go [Request success_url; Advance (NOW + 299999)] (flow empty_disk))
  = (go [Request success_url; Advance (NOW + 299999)] (flow empty_disk),
     Some WAITING).
Proof.
  destruct (listener_up_while_pending (H := Reference.platform) cfg NOW empty_disk
              [Request success_url; Advance (NOW + 299999)] other_url)
    as (_ & _ & Hstep).
  - repeat constructor.
  - vm_compute. reflexivity.
  - refine (eq_trans Hstep _). vm_compute. reflexivity.
Defined.

End HandshakeExtras.

(* ===================================================================== *)
(** ** Properties of the client *)
(* ===================================================================== *)

Module KiteClientProps.
Import JS Fs TokenManager Spec TokenStoreProps TokenStoreExtras KiteClient
  ClientSpec.

Section WithPlatform.
Context `{Platform}.

Lemma isTokenValid_valid_on (now : Z) (d : disk) :
  isTokenValid now d = (d, Ok (valid_on now d)).
Proof. apply isTokenValid_stored. Qed.

Lemma isReady_cases (now : Z) (c : client) (d : disk) :
  isReady now c d = (d, Ok (isAuthenticated c && valid_on now d)).
Proof.
  unfold isReady. destruct (isAuthenticated c); cbn [andb].
  - apply isTokenValid_valid_on.
  - reflexivity.
Qed.

Lemma set_token_disk_same (c : client) : set_token_disk (token_disk c) c = c.
Proof. now destruct c. Qed.

Lemma call_cases (now : Z) (op : operation) (args : list jsval) (c : client) :
  call now op args c
  = if isAuthenticated c && valid_on now (token_disk c)
    then (mkClient (isAuthenticated c)
                   (kiteConnect c ++ [request (next_request c) op (passed_on op args)])%list
                   (awaited c ++ [(next_request c, op)])%list (S (next_request c))
                   (token_disk c),
          Ok (next_request c))
    else (c, Throw NOT_AUTHENTICATED).
Proof.
  unfold call, on_disk, ensureAuthenticated, bind. rewrite isReady_cases.
  destruct c as [auth sent aw nr d]. cbn.
  destruct (auth && valid_on now d); reflexivity.
Qed.

(** X15. An API method reaches the Kite API exactly when the client's
    [isAuthenticated] is set (it found a valid token at construction, and
    no answer with status 403 has come since) and the token file holds a
    valid token at the time of the call; otherwise the method rejects with
    the "Not authenticated" error, nothing is sent, and the client is as it
    was. *)
Theorem call_reaches_kite_iff_ready
  (now : Z) (op : operation) (args : list jsval) (c : client) :
  (isAuthenticated c = true
   /\ isTokenValid now (token_disk c) = (token_disk c, Ok true)
   /\ exists c',
        client_step (Call now op args) c = (c', None)
        /\ kiteConnect c'
           = (kiteConnect c ++ [request (next_request c) op (passed_on op args)])%list
        /\ isAuthenticated c' = true
        /\ token_disk c' = token_disk c)
  \/ ((isAuthenticated c = false
       \/ isTokenValid now (token_disk c) = (token_disk c, Ok false))
      /\ client_step (Call now op args) c = (c, Some (Throw NOT_AUTHENTICATED))).
Proof.
  cbn [client_step]. rewrite call_cases, isTokenValid_valid_on.
  destruct (isAuthenticated c) eqn:Ea; cbn [andb].
  - destruct (valid_on now (token_disk c)).
    + left. repeat split. eexists. repeat split.
    + right. split; [now right|reflexivity].
  - right. split; [now left|reflexivity].
Qed.

(** *** A client that is not authenticated *)

Lemma handleApiError_locked (error : rejection) (op : operation) (c : client) :
  isAuthenticated c = false ->
  isAuthenticated (fst (handleApiError error op c)) = false
  /\ kiteConnect (fst (handleApiError error op c)) = kiteConnect c.
Proof.
  intros Hc. unfold handleApiError.
  destruct (is_object error && is_403 (status_of error)); [now split|].
  destruct (is_object error && truthy (message_of_rejection error)); now split.
Qed.

Lemma handleApiError_kiteConnect (error : rejection) (op : operation) (c : client) :
  kiteConnect (fst (handleApiError error op c)) = kiteConnect c.
Proof.
  unfold handleApiError.
  destruct (is_object error && is_403 (status_of error)); [reflexivity|].
  now destruct (is_object error && truthy (message_of_rejection error)).
Qed.

(** Nothing sets [isAuthenticated] again, and a client that is not
    authenticated sends nothing. *)
Lemma locked_step (i : client_input) (c : client) :
  isAuthenticated c = false ->
  isAuthenticated (fst (client_step i c)) = false
  /\ kiteConnect (fst (client_step i c)) = kiteConnect c.
Proof.
  intros Hc. destruct i as [now op args|id a|d]; cbn [client_step].
  - rewrite call_cases, Hc. cbn. now split.
  - destruct (find_awaited id (awaited c)) as [op|]; [|now split].
    destruct a as [v|error]; cbn [settle_call fst]; [now split|].
    match goal with
    | |- context [handleApiError error op ?x] =>
        pose proof (handleApiError_locked error op x Hc) as He;
        destruct (handleApiError error op x)
    end.
    exact He.
  - now split.
Qed.

Lemma locked_run (inputs : list client_input) (c : client) :
  isAuthenticated c = false ->
  isAuthenticated (client_run inputs c) = false
  /\ kiteConnect (client_run inputs c) = kiteConnect c.
Proof.
  revert c. induction inputs as [|i rest IH]; intros c Hc; cbn [client_run];
    [now split|].
  destruct (locked_step i c Hc) as [Ha Hk].
  destruct (IH _ Ha) as [Ha' Hk']. split; [exact Ha'|congruence].
Qed.

Lemma new_KiteClient_cases (now : Z) (d : disk) :
  new_KiteClient now d
  = Ok match stored d with
       | Some (JObj fields) =>
           if valid_at now fields
           then mkClient true [setAccessToken (field "access_token" fields)] [] 0 d
           else mkClient false [] [] 0 d
       | _ => mkClient false [] [] 0 d
       end.
Proof.
  unfold new_KiteClient. rewrite getValidToken_stored.
  destruct (stored d) as [record|] eqn:E; [|reflexivity].
  destruct (stored_is_object _ _ E) as (fields & -> & Ha & _).
  destruct (valid_at now fields); [|reflexivity]. now rewrite Ha.
Qed.

(** X16. A client constructed while the token file holds no valid token never
    reaches the Kite API: whatever is called and whatever token is saved
    afterwards, it has sent nothing, and every API method rejects with
    the "Not authenticated" error.  Only a new client picks up a token. *)
Theorem client_without_token_stays_locked
  (now : Z) (d : disk) (inputs : list client_input)
  (now' : Z) (op : operation) (args : list jsval) :
  isTokenValid now d = (d, Ok false) ->
  exists c,
    new_KiteClient now d = Ok c
    /\ kiteConnect (client_run inputs c) = []
    /\ client_step (Call now' op args) (client_run inputs c)
       = (client_run inputs c, Some (Throw NOT_AUTHENTICATED)).
Proof.
  rewrite isTokenValid_valid_on. intros [= Hv].
  eexists. split; [apply new_KiteClient_cases|].
  unfold valid_on in Hv.
  set (c := match stored d with
            | Some (JObj fields) =>
                if valid_at now fields
                then mkClient true [setAccessToken (field "access_token" fields)] [] 0 d
                else mkClient false [] [] 0 d
            | _ => mkClient false [] [] 0 d
            end).
  assert (Hc : c = mkClient false [] [] 0 d).
  { unfold c. destruct (stored d) as [[| |b|f|s|items|fields]|]; try reflexivity.
    now rewrite Hv. }
  rewrite Hc.
  destruct (locked_run inputs (mkClient false [] [] 0 d) eq_refl) as [Ha Hk].
  split; [exact Hk|].
  cbn [client_step]. rewrite call_cases, Ha. reflexivity.
Qed.

(** X17. When the Kite API answers a call with status 403, the method rejects
    with the "Authentication failed" error, and from then on the client
    sends nothing more: every API method rejects with the
    "Not authenticated" error, whatever the token file holds. *)
Theorem forbidden_answer_locks_client
  (c : client) (id : nat) (op : operation) (error : rejection)
  (inputs : list client_input) (now' : Z) (op' : operation) (args : list jsval) :
  find_awaited id (awaited c) = Some op ->
  is_object error = true ->
  is_403 (status_of error) = true ->
  let c1 := fst (client_step (Answer id (Failed error)) c) in
  snd (client_step (Answer id (Failed error)) c)
  = Some (Throw (ErrorObj ("Authentication failed during " ++ operation_name op
                           ++ ". Token may be expired.")))
  /\ kiteConnect (client_run inputs c1) = kiteConnect c
  /\ client_step (Call now' op' args) (client_run inputs c1)
     = (client_run inputs c1, Some (Throw NOT_AUTHENTICATED)).
Proof.
  intros Hid Hobj H403 c1. unfold c1. clear c1.
  cbn [client_step]. rewrite Hid. cbn [settle_call].
  unfold handleApiError. rewrite Hobj, H403. cbn [andb fst snd].
  split; [reflexivity|].
  match goal with
  | |- context [client_run inputs ?x] =>
      destruct (locked_run inputs x eq_refl) as [Ha Hk]
  end.
  split; [exact Hk|].
  rewrite call_cases, Ha. reflexivity.
Qed.

(** *** The access token *)

Lemma step_kiteConnect (i : client_input) (c : client) :
  exists sent,
    kiteConnect (fst (client_step i c)) = (kiteConnect c ++ sent)%list
    /\ Forall is_request sent.
Proof.
  destruct i as [now op args|id a|d]; cbn [client_step].
  - rewrite call_cases.
    destruct (isAuthenticated c && valid_on now (token_disk c)); cbn.
    + eexists. split; [reflexivity|]. now repeat constructor.
    + exists []. now rewrite app_nil_r.
  - exists []. rewrite app_nil_r. split; [|constructor].
    destruct (find_awaited id (awaited c)) as [op|]; [|reflexivity].
    destruct a as [v|error]; cbn [settle_call fst]; [reflexivity|].
    match goal with
    | |- context [handleApiError error op ?x] =>
        pose proof (handleApiError_kiteConnect error op x) as He;
        destruct (handleApiError error op x)
    end.
    exact He.
  - exists []. now rewrite app_nil_r.
Qed.

Lemma run_kiteConnect (inputs : list client_input) (c : client) :
  exists sent,
    kiteConnect (client_run inputs c) = (kiteConnect c ++ sent)%list
    /\ Forall is_request sent.
Proof.
  revert c. induction inputs as [|i rest IH]; intros c; cbn [client_run].
  - exists []. now rewrite app_nil_r.
  - destruct (step_kiteConnect i c) as (s1 & E1 & H1).
    destruct (IH (fst (client_step i c))) as (s2 & E2 & H2).
    exists (s1 ++ s2)%list. split.
    + now rewrite E2, E1, app_assoc.
    + apply Forall_app. now split.
Qed.

(** X18. The client sets its access token once, at construction, to the
    access token the token file held then.  Whatever happens afterwards
    it only adds API requests: when the token file is replaced, the client
    goes on with the access token of its construction. *)
Theorem access_token_set_once (now : Z) (d : disk) (inputs : list client_input) :
  exists c sent,
    new_KiteClient now d = Ok c
    /\ kiteConnect (client_run inputs c) = (kiteConnect c ++ sent)%list
    /\ Forall is_request sent
    /\ (kiteConnect c = []
        \/ exists token,
             kiteConnect c = [setAccessToken token]
             /\ truthy token = true
             /\ getValidToken now d = (d, Ok token))
    /\ (sent <> [] -> kiteConnect c <> []).
Proof.
  rewrite new_KiteClient_cases. eexists.
  match goal with
  | |- exists sent, Ok ?x = _ /\ _ => set (c := x)
  end.
  destruct (run_kiteConnect inputs c) as (sent & E & Hsent).
  exists sent. split; [reflexivity|]. split; [exact E|]. split; [exact Hsent|].
  rewrite getValidToken_stored.
  destruct (stored d) as [record|] eqn:Es.
  - destruct (stored_is_object _ _ Es) as (fields & -> & Ha & _).
    destruct (valid_at now fields) eqn:Ev.
    + unfold c. cbn [kiteConnect]. split.
      * right. eexists. split; [reflexivity|]. now split.
      * discriminate.
    + destruct (locked_run inputs c eq_refl) as [_ Hk].
      rewrite Hk in E. split; [now left|].
      intros Hne _. apply Hne.
      apply (app_inv_head (kiteConnect c)). now rewrite app_nil_r.
  - destruct (locked_run inputs c eq_refl) as [_ Hk].
    rewrite Hk in E. split; [now left|].
    intros Hne _. apply Hne.
    apply (app_inv_head (kiteConnect c)). now rewrite app_nil_r.
Qed.

(** *** The authentication status *)

Lemma getAuthenticationStatus_cases (now1 now2 : Z) (c : client) :
  getAuthenticationStatus now1 now2 c (token_disk c)
  = (token_disk c,
     Ok match stored (token_disk c) with
        | Some (JObj fields) =>
            if valid_at now1 fields
            then [ ("authenticated", JBool (isAuthenticated c && valid_at now2 fields));
                   ("user", or_else (field "user_name" fields) (field "user_id" fields));
                   ("tokenExpiry", field "generated_at" fields) ]
            else [ ("authenticated", JBool (isAuthenticated c && valid_at now2 fields));
                   ("user", JUndefined);
                   ("tokenExpiry", JUndefined) ]
        | _ => [ ("authenticated", JBool false);
                 ("user", JUndefined);
                 ("tokenExpiry", JUndefined) ]
        end).
Proof.
  unfold getAuthenticationStatus, bind. rewrite getValidTokenData_stored.
  rewrite isReady_cases. unfold valid_on.
  destruct (stored (token_disk c)) as [record|] eqn:Es.
  - destruct (stored_is_object _ _ Es) as (fields & -> & _).
    destruct (valid_at now1 fields); cbn; [|reflexivity].
    unfold or_else. now destruct (truthy (field "user_name" fields)).
  - cbn. now rewrite andb_false_r.
Qed.

(** X19. [getAuthenticationStatus] never throws and leaves the disk alone.
    It reports [authenticated] as true exactly when the client's
    [isAuthenticated] is set and the token file holds a valid token; when
    it does, [user] is the user name of the stored record, or its
    user id when it has no name, and is never empty; [tokenExpiry] is the
    time the record was generated at, not the time it expires. *)
Theorem authentication_status_names_user (now1 now2 : Z) (c : client) :
  now1 <= now2 ->
  exists status ready,
    getAuthenticationStatus now1 now2 c (token_disk c) = (token_disk c, Ok status)
    /\ field "authenticated" status = JBool ready
    /\ (ready = true <->
        isAuthenticated c = true
        /\ isTokenValid now2 (token_disk c) = (token_disk c, Ok true))
    /\ (ready = true ->
        exists record,
          loadToken (token_disk c) = (token_disk c, Ok (Some (JObj record)))
          /\ field "user" status
             = or_else (field "user_name" record) (field "user_id" record)
          /\ truthy (field "user" status) = true
          /\ field "tokenExpiry" status = field "generated_at" record).
Proof.
  intros Hle. rewrite getAuthenticationStatus_cases, isTokenValid_valid_on,
    loadToken_stored.
  unfold valid_on.
  destruct (stored (token_disk c)) as [record|] eqn:Es.
  - destruct (stored_is_object _ _ Es) as (fields & -> & _ & Hu & _).
    assert (Hready : forall b, isAuthenticated c && b = true <->
                       isAuthenticated c = true
                       /\ (token_disk c, @Ok bool b) = (token_disk c, Ok true)).
    { intros b. rewrite andb_true_iff. split; intros [Ha Hb]; split; congruence. }
    destruct (valid_at now1 fields) eqn:E1; do 2 eexists;
      (split; [reflexivity|]); (split; [reflexivity|]);
      (split; [apply Hready|]).
    + intros _. exists fields. split; [reflexivity|]. cbn [field lookup String.eqb].
      cbn. split; [reflexivity|]. split; [|reflexivity].
      unfold or_else. destruct (truthy (field "user_name" fields)) eqn:En; auto.
    + intros Hr. apply andb_true_iff in Hr as [_ H2].
      rewrite (valid_at_earlier now1 now2 fields Hle H2) in E1. discriminate.
  - do 2 eexists. split; [reflexivity|]. split; [reflexivity|].
    split; [|discriminate]. split; [discriminate|]. intros [_ [=]].
Qed.

End WithPlatform.
End KiteClientProps.

(* ===================================================================== *)
(** ** Properties of the tool handler *)
(* ===================================================================== *)

Module McpServerProps.
Import JS Fs TokenManager Spec TokenStoreProps TokenStoreExtras KiteClient
  ClientSpec KiteClientProps McpServer.

Section WithPlatform.
Context `{Platform}.

Lemma find_tool_listed (t : tool) : find_tool (tool_name t) = Some t.
Proof. now destruct t. Qed.

(** X20. A tool call for a name that no tool has is refused with
    [MethodNotFound]; a call for any tool but [get_auth_status] on a client
    that is not ready (its [isAuthenticated] is not set, or the token file
    holds no valid token now) is refused with the
    "Not authenticated with Kite API" error.  In both cases nothing is sent
    to the Kite API and the client is as it was. *)
Theorem tool_call_refused_when_not_ready
  (now1 now2 : Z) (n : string) (args : jsval) (c : client) :
  n <> "get_auth_status" ->
  isAuthenticated c = false
  \/ isTokenValid now1 (token_disk c) = (token_disk c, Ok false) ->
  serve (CallTool now1 now2 n args) c
  = (c, Some (Threw (match find_tool n with
                     | Some _ => NOT_AUTHENTICATED_WITH_KITE
                     | None => mkMcpError MethodNotFound ("Tool " ++ n ++ " not found")
                     end))).
Proof.
  intros Hn Hnot. cbn [serve]. unfold callTool.
  destruct (find_tool n) as [t|]; [|reflexivity].
  apply String.eqb_neq in Hn. rewrite Hn. cbn [negb].
  unfold on_disk. rewrite isReady_cases.
  assert (Hr : isAuthenticated c && valid_on now1 (token_disk c) = false).
  { destruct Hnot as [Ha|Hv].
    - now rewrite Ha.
    - rewrite isTokenValid_valid_on in Hv. injection Hv as ->.
      apply andb_false_r. }
  rewrite Hr. now rewrite set_token_disk_same.
Qed.

(** X21. [get_auth_status] is answered whatever the state of the client: the
    handler returns the status as text, sends nothing to the Kite API and
    leaves the client as it was. *)
Theorem auth_status_always_answers
  (now1 now2 : Z) (args : jsval) (c : client) :
  exists status ready,
    serve (CallTool now1 now2 "get_auth_status" args) c
    = (c, Some (Returned (text_content (JObj status))))
    /\ getAuthenticationStatus now1 now2 c (token_disk c)
       = (token_disk c, Ok status)
    /\ field "authenticated" status = JBool ready
    /\ (ready = true ->
        isAuthenticated c = true
        /\ isTokenValid now2 (token_disk c) = (token_disk c, Ok true)).
Proof.
  cbn [serve]. unfold callTool. cbn [find_tool find ALL_TOOLS tool_name String.eqb].
  cbn. unfold execute. cbn [delegate]. unfold on_disk.
  rewrite getAuthenticationStatus_cases, isTokenValid_valid_on.
  rewrite set_token_disk_same. unfold valid_on.
  destruct (stored (token_disk c)) as [record|] eqn:Es.
  - destruct (stored_is_object _ _ Es) as (fields & -> & _).
    destruct (valid_at now1 fields); do 2 eexists;
      (split; [reflexivity|]); (split; [reflexivity|]);
      (split; [reflexivity|]);
      intros Hr; apply andb_true_iff in Hr as [Ha Hv]; now rewrite Hv.
  - do 2 eexists. split; [reflexivity|]. split; [reflexivity|].
    split; [reflexivity|]. discriminate.
Qed.

(** *** What the tools can reach *)

Lemma execute_requests (t : tool) (args : jsval) (now1 now2 : Z) (c : client) :
  exists sent,
    kiteConnect (fst (execute t args now1 now2 c)) = (kiteConnect c ++ sent)%list
    /\ Forall tool_request sent.
Proof.
  assert (Hnone : exists sent, kiteConnect c = (kiteConnect c ++ sent)%list
                               /\ Forall tool_request sent).
  { exists []. now rewrite app_nil_r. }
  assert (Hcall : forall op passed,
             tool_request (request (next_request c) op (passed_on op passed)) ->
             exists sent,
               kiteConnect (fst (let (c', r) := call now2 op passed c in
                                 match r with
                                 | Ok id => (c', @inr (result jsval) nat id)
                                 | Throw e => (c', inl (Throw e))
                                 end))
               = (kiteConnect c ++ sent)%list
               /\ Forall tool_request sent).
  { intros op passed Hok. rewrite call_cases.
    destruct (isAuthenticated c && valid_on now2 (token_disk c)); cbn.
    - eexists. split; [reflexivity|]. constructor; [exact Hok|constructor].
    - exact Hnone. }
  assert (Hplain : forall op, op <> getOrderHistory -> op <> getOHLC ->
                     op <> modifyOrder -> ~ not_exposed op).
  { intros op H1 H2 H3 [E|[E|E]]; contradiction. }
  unfold execute.
  destruct t; cbn [delegate];
    try (apply Hcall; cbn; split;
         [apply Hplain; discriminate
         |intros [E|E]; try discriminate E; eexists; reflexivity]).
  - (* cancel_order *)
    destruct (get_prop args "order_id") as [v|e]; cbn [JS.bind]; [|exact Hnone].
    apply Hcall. cbn. split; [apply Hplain; discriminate|].
    intros _. eexists. reflexivity.
  - destruct (get_prop args "instruments") as [v|e]; cbn [JS.bind]; [|exact Hnone].
    apply Hcall. cbn. split; [apply Hplain; discriminate|].
    intros [E|E]; discriminate E.
  - destruct (get_prop args "instruments") as [v|e]; cbn [JS.bind]; [|exact Hnone].
    apply Hcall. cbn. split; [apply Hplain; discriminate|].
    intros [E|E]; discriminate E.
  - destruct (get_prop args "exchange") as [v|e]; cbn [JS.bind]; [|exact Hnone].
    apply Hcall. cbn. split; [apply Hplain; discriminate|].
    intros [E|E]; discriminate E.
  - (* get_auth_status *)
    unfold on_disk. rewrite getAuthenticationStatus_cases.
    rewrite set_token_disk_same. exact Hnone.
Qed.

Lemma serve_requests (e : event) (c : client) :
  exists sent,
    kiteConnect (fst (serve e c)) = (kiteConnect c ++ sent)%list
    /\ Forall tool_request sent.
Proof.
  assert (Hnone : exists sent, kiteConnect c = (kiteConnect c ++ sent)%list
                               /\ Forall tool_request sent).
  { exists []. now rewrite app_nil_r. }
  destruct e as [now1 now2 n args|id a|d]; cbn [serve].
  - unfold callTool. destruct (find_tool n) as [t|]; [|exact Hnone].
    assert (Hgate : (if negb (String.eqb n "get_auth_status")
                     then on_disk (isReady now1 c) c
                     else (c, Ok true))
                    = (c, Ok (if negb (String.eqb n "get_auth_status")
                              then isAuthenticated c && valid_on now1 (token_disk c)
                              else true))).
    { destruct (negb (String.eqb n "get_auth_status")); [|reflexivity].
      unfold on_disk. rewrite isReady_cases. now rewrite set_token_disk_same. }
    rewrite Hgate.
    destruct (if negb (String.eqb n "get_auth_status")
              then isAuthenticated c && valid_on now1 (token_disk c)
              else true); [|exact Hnone].
    pose proof (execute_requests t (or_else args (JObj [])) now1 now2 c) as He.
    destruct (execute t (or_else args (JObj [])) now1 now2 c) as [c2 [[v|e]|id]];
      exact He.
  - assert (E : kiteConnect (fst (client_step (Answer id a) c)) = kiteConnect c).
    { cbn [client_step]. destruct (find_awaited id (awaited c)) as [op|]; [|reflexivity].
      destruct a as [v|error]; cbn [settle_call fst]; [reflexivity|].
      match goal with
      | |- context [handleApiError error op ?x] =>
          pose proof (handleApiError_kiteConnect error op x) as He;
          destruct (handleApiError error op x)
      end.
      exact He. }
    exists []. rewrite app_nil_r. split; [|constructor].
    destruct (client_step (Answer id a) c) as [c' [r|]]; exact E.
  - exact Hnone.
Qed.

Lemma serve_all_requests (events : list event) (c : client) :
  exists sent,
    kiteConnect (serve_all events c) = (kiteConnect c ++ sent)%list
    /\ Forall tool_request sent.
Proof.
  revert c. induction events as [|e rest IH]; intros c; cbn [serve_all].
  - exists []. now rewrite app_nil_r.
  - destruct (serve_requests e c) as (s1 & E1 & H1).
    destruct (IH (fst (serve e c))) as (s2 & E2 & H2).
    exists (s1 ++ s2)%list. split.
    + now rewrite E2, E1, app_assoc.
    + apply Forall_app. now split.
Qed.

(** X22. Whatever requests reach the server, its client never calls
    [getOrderHistory], [getOHLC] or [modifyOrder] on the Kite API: no tool
    can modify an order.  Orders are placed and cancelled with the variety
    "regular" only. *)
Theorem tools_never_modify_orders
  (now : Z) (d : disk) (events : list event)
  (id : nat) (op : operation) (args : list jsval) :
  exists c,
    new_KiteClient now d = Ok c
    /\ (In (request id op args) (kiteConnect (serve_all events c)) ->
        op <> getOrderHistory /\ op <> getOHLC /\ op <> modifyOrder
        /\ (op = placeOrder \/ op = cancelOrder ->
            exists rest, args = JStr "regular" :: rest)).
Proof.
  rewrite new_KiteClient_cases. eexists. split; [reflexivity|].
  match goal with
  | |- context [serve_all events ?x] => set (c := x)
  end.
  destruct (serve_all_requests events c) as (sent & E & Hsent).
  rewrite E. intros Hin. apply in_app_or in Hin as [Hin|Hin].
  - exfalso. unfold c in Hin.
    destruct (stored d) as [[| |b|f|s|items|fields]|]; try destruct Hin.
    destruct (valid_at now fields); cbn in Hin; [|destruct Hin].
    destruct Hin as [Hin|[]]. discriminate Hin.
  - rewrite Forall_forall in Hsent. specialize (Hsent _ Hin).
    cbn in Hsent. destruct Hsent as [Hexp Hreg].
    unfold not_exposed in Hexp. repeat split; auto; intros E'; apply Hexp; auto.
Qed.

(** *** What a failure of the Kite API looks like to the caller *)

(** X24. When the Kite API fails a call a tool awaits, the handler throws
    an [McpError] with the code [InternalError] whose message is
    "Tool execution failed: " followed by the message [handleApiError]
    gave: "Authentication failed during <operation>. Token may be
    expired." when the failure is an object with status 403, which also
    ends the authentication of the client, and "<operation> failed: "
    with some detail otherwise, the client staying as authenticated as it
    was.  Nothing is sent to the Kite API. *)
Theorem api_failure_reported_as_internal_error
  (c : client) (id : nat) (op : operation) (error : rejection) :
  find_awaited id (awaited c) = Some op ->
  exists c' m,
    serve (ApiAnswer id (Failed error)) c
    = (c', Some (Threw (mkMcpError InternalError ("Tool execution failed: " ++ m))))
    /\ kiteConnect c' = kiteConnect c
    /\ find_awaited id (awaited c') = None
    /\ (if is_object error && is_403 (status_of error)
        then m = "Authentication failed during " ++ operation_name op
                 ++ ". Token may be expired."
             /\ isAuthenticated c' = false
        else (exists detail, m = operation_name op ++ " failed: " ++ detail)
             /\ isAuthenticated c' = isAuthenticated c).
Proof.
  intros Hid. cbn [serve client_step]. rewrite Hid. cbn [settle_call].
  assert (Hgone : forall l, find_awaited id
                    (filter (fun x : nat * operation => negb (Nat.eqb (fst x) id)) l)
                  = None).
  { induction l as [|[i o] rest IH]; cbn; [reflexivity|].
    destruct (Nat.eqb i id) eqn:E; cbn; [exact IH|]. now rewrite E. }
  unfold handleApiError.
  destruct (is_object error && is_403 (status_of error)).
  - do 2 eexists. split; [reflexivity|]. cbn. auto.
  - destruct (is_object error && truthy (message_of_rejection error));
      do 2 eexists; (split; [reflexivity|]); cbn; eauto 6.
Qed.

(** *** A server started without a token *)

Lemma locked_serve (e : event) (c : client) :
  isAuthenticated c = false ->
  isAuthenticated (fst (serve e c)) = false
  /\ kiteConnect (fst (serve e c)) = kiteConnect c.
Proof.
  intros Hc. destruct e as [now1 now2 n args|id a|d]; cbn [serve].
  - unfold callTool. destruct (find_tool n) as [t|] eqn:Ef; [|now split].
    destruct (negb (String.eqb n "get_auth_status")) eqn:En.
    + unfold on_disk. rewrite isReady_cases, Hc, set_token_disk_same. now split.
    + apply negb_false_iff, String.eqb_eq in En. subst n.
      cbn in Ef. injection Ef as <-.
      unfold execute. cbn [delegate]. unfold on_disk.
      rewrite getAuthenticationStatus_cases, set_token_disk_same. now split.
  - pose proof (locked_step (Answer id a) c Hc) as Hl.
    destruct (client_step (Answer id a) c) as [c' [r|]]; exact Hl.
  - now split.
Qed.

Lemma locked_serve_all (events : list event) (c : client) :
  isAuthenticated c = false ->
  isAuthenticated (serve_all events c) = false
  /\ kiteConnect (serve_all events c) = kiteConnect c.
Proof.
  revert c. induction events as [|e rest IH]; intros c Hc; cbn [serve_all];
    [now split|].
  destruct (locked_serve e c Hc) as [Ha Hk].
  destruct (IH _ Ha) as [Ha' Hk']. split; [exact Ha'|congruence].
Qed.

(** X23. A server started while the token file holds no valid token sends
    nothing to the Kite API for as long as it runs, even when a token is
    saved in the meantime: every call of a tool other than
    [get_auth_status] is refused, and [get_auth_status] reports that the
    server is not authenticated.  The server has to be started again after
    the authentication. *)
Theorem server_without_token_stays_locked
  (now : Z) (d : disk) (events : list event)
  (now1 now2 : Z) (t : tool) (args : jsval) :
  isTokenValid now d = (d, Ok false) ->
  exists c,
    new_KiteClient now d = Ok c
    /\ kiteConnect (serve_all events c) = []
    /\ (t <> GetAuthStatusTool ->
        serve (CallTool now1 now2 (tool_name t) args) (serve_all events c)
        = (serve_all events c, Some (Threw NOT_AUTHENTICATED_WITH_KITE)))
    /\ exists status,
         serve (CallTool now1 now2 "get_auth_status" args) (serve_all events c)
         = (serve_all events c, Some (Returned (text_content (JObj status))))
         /\ field "authenticated" status = JBool false.
Proof.
  rewrite isTokenValid_valid_on. intros [= Hv].
  rewrite new_KiteClient_cases. eexists. split; [reflexivity|].
  match goal with
  | |- context [serve_all events ?x] => set (c := x)
  end.
  assert (Hc : c = mkClient false [] [] 0 d).
  { unfold c, valid_on in *.
    destruct (stored d) as [[| |b|f|s|items|fields]|]; try reflexivity.
    now rewrite Hv. }
  rewrite Hc.
  destruct (locked_serve_all events (mkClient false [] [] 0 d) eq_refl) as [Ha Hk].
  set (c' := serve_all events (mkClient false [] [] 0 d)) in *.
  split; [exact Hk|]. split.
  - intros Ht. cbn [serve]. unfold callTool. rewrite find_tool_listed.
    assert (Hn : String.eqb (tool_name t) "get_auth_status" = false)
      by (destruct t; try reflexivity; now destruct Ht).
    rewrite Hn. cbn [negb]. unfold on_disk.
    now rewrite isReady_cases, Ha, set_token_disk_same.
  - cbn [serve]. unfold callTool.
    cbn [find_tool find ALL_TOOLS tool_name String.eqb]. cbn.
    unfold execute. cbn [delegate]. unfold on_disk.
    rewrite getAuthenticationStatus_cases, set_token_disk_same, Ha.
    destruct (stored (token_disk c')) as [[| |b|f|s|items|fields]|];
      try (eexists; split; reflexivity).
    destruct (valid_at now1 fields); eexists; split; reflexivity.
Qed.

End WithPlatform.
End McpServerProps.

(* ===================================================================== *)
(** ** The client and the handler on the reference platform *)
(* ===================================================================== *)

Module ClientWitnesses.
Import JS Fs TokenManager KiteClient ClientSpec KiteClientProps McpServer
  McpServerProps Examples MoreExamples.

Lemma client_without_token_stays_locked_witness :
  exists c,
    new_KiteClient (H := Reference.platform) NOW empty_disk = Ok c
    /\ kiteConnect
         (client_run (H := Reference.platform)
              [TokenFile (disk_with (file_of jane_saved));
               Call (NOW + 1000) getProfile []] c)
       = [].
Proof.
  destruct (client_without_token_stays_locked (H := Reference.platform)
              NOW empty_disk
              [TokenFile (disk_with (file_of jane_saved));
               Call (NOW + 1000) getProfile []]
              (NOW + 2000) getHoldings [])
    as (c & Hnew & Hsent & _).
  - reflexivity.
  - exists c. now split.
Defined.

Lemma forbidden_answer_locks_client_witness :
  client_step (H := Reference.platform) (Call (NOW + 2000) getHoldings [])
    (fst (client_step (H := Reference.platform) (Answer 0 (Failed forbidden)) waiting_client))
  = (fst (client_step (H := Reference.platform) (Answer 0 (Failed forbidden)) waiting_client),
     Some (Throw NOT_AUTHENTICATED)).
Proof.
  destruct (forbidden_answer_locks_client (H := Reference.platform)
              waiting_client 0 getProfile forbidden [] (NOW + 2000) getHoldings [])
    as (_ & _ & Hcall).
  - reflexivity.
  - reflexivity.
  - reflexivity.
  - exact Hcall.
Defined.

Lemma authentication_status_names_user_witness :
  exists status,
    getAuthenticationStatus (H := Reference.platform) NOW (NOW + 1) ready_client
      (disk_with (file_of jane_saved))
    = (disk_with (file_of jane_saved), Ok status)
    /\ field "authenticated" status = JBool true
    /\ field "user" status = JStr "Jane".
Proof.
  destruct (authentication_status_names_user (H := Reference.platform)
              NOW (NOW + 1) ready_client)
    as (status & ready & Hstatus & Hauth & _ & _).
  - lia.
  - exists status. split; [exact Hstatus|].
    vm_compute in Hstatus. injection Hstatus as <-. now split.
Defined.

Lemma tool_call_refused_when_not_ready_witness :
  serve (H := Reference.platform)
    (CallTool (NOW + 5 * 3600000) (NOW + 5 * 3600000) "place_order" order)
    ready_client
  = (ready_client, Some (Threw NOT_AUTHENTICATED_WITH_KITE)).
Proof.
  apply (tool_call_refused_when_not_ready (H := Reference.platform)
           (NOW + 5 * 3600000) (NOW + 5 * 3600000) "place_order" order ready_client).
  - discriminate.
  - right. vm_compute. reflexivity.
Defined.

Lemma server_without_token_stays_locked_witness :
  exists c,
    new_KiteClient (H := Reference.platform) NOW empty_disk = Ok c
    /\ kiteConnect
         (serve_all (H := Reference.platform)
            [TokenFileChange (disk_with (file_of jane_saved));
             CallTool (NOW + 1000) (NOW + 1000) "get_holdings" JUndefined] c)
       = [].
Proof.
  destruct (server_without_token_stays_locked (H := Reference.platform)
              NOW empty_disk
              [TokenFileChange (disk_with (file_of jane_saved));
               CallTool (NOW + 1000) (NOW + 1000) "get_holdings" JUndefined]
              (NOW + 2000) (NOW + 2000) PlaceOrderTool order)
    as (c & Hnew & Hsent & _).
  - reflexivity.
  - exists c. now split.
Defined.

Lemma api_failure_reported_as_internal_error_witness :
  snd (serve (H := Reference.platform) (ApiAnswer 0 (Failed forbidden)) waiting_client)
  = Some (Threw (mkMcpError InternalError
                   "Tool execution failed: Authentication failed during getProfile. Token may be expired.")).
Proof.
  destruct (api_failure_reported_as_internal_error (H := Reference.platform)
              waiting_client 0 getProfile forbidden)
    as (c' & m & Hserve & _ & _ & Hm).
  - reflexivity.
  - rewrite Hserve. cbn in Hm. destruct Hm as [-> _]. reflexivity.
Defined.

(** A server started with a valid token places the order it is asked
    for, with the variety "regular", and answers with the text of what the
    Kite API returned. *)
Example place_order_reaches_kite :
  let (c1, o1) :=
    serve (H := Reference.platform)
      (CallTool (NOW + 1000) (NOW + 1000) "place_order" order) ready_client in
  o1 = Some (Awaits 0)
  /\ kiteConnect c1
     = [setAccessToken (JStr "tok-123");
        request 0 placeOrder [JStr "regular"; order]]
  /\ snd (serve (H := Reference.platform)
            (ApiAnswer 0 (Fulfilled (JObj [("order_id", JStr "151220000000000")])))
            c1)
     = Some (Returned
               (text_content (H := Reference.platform)
                  (JObj [("order_id", JStr "151220000000000")]))).
Proof. vm_compute. repeat split; reflexivity. Qed.

End ClientWitnesses.
